(** * ld-find-code-refs: the hunker and the branch submission of [coderefs.Scan]

    A shallow embedding of [package coderefs]: line truncation, the search for
    referenced flags in a line, the aggregation of search results per path, the
    per-flag hunk builder with its defensive limits, and the tail of [Scan]
    that submits the branch and prunes stale ones.

    Go strings are byte sequences: they are [string]s whose [ascii]s are the
    bytes.  Go [int]s are [Z].  A [*list.Element] of the per-file list of
    search result lines is its position in that list; [Prev] and [Next] are
    the neighbouring positions, [nil] before the first and after the last.
    A run-time panic is [None], and so is the use of a position outside of
    the list, which is no element. *)

From Stdlib Require Import ZArith Lia Bool Ascii String List Sorted.
From stdpp Require Import gmap strings list fin_maps.

Local Open Scope Z_scope.

(** ** Bytes, runes and UTF-8 *)

Module Utf8.

Definition byteZ (c : ascii) : Z := Z.of_N (N_of_ascii c).
Definition byteOf (z : Z) : ascii := ascii_of_N (Z.to_N z).

(** [utf8.RuneError], the replacement character U+FFFD. *)
Definition RuneError : Z := 65533.
Definition MaxRune : Z := 1114111.

Definition isCont (c : ascii) : bool :=
  (128 <=? byteZ c) && (byteZ c <=? 191).

(** Length of the sequence announced by a leading byte; [0%nat] for a byte
    that cannot start a multi-byte sequence (table [first] of unicode/utf8). *)
Definition seqLen (b0 : Z) : nat :=
  if (194 <=? b0) && (b0 <=? 223) then 2%nat
  else if (224 <=? b0) && (b0 <=? 239) then 3%nat
  else if (240 <=? b0) && (b0 <=? 244) then 4%nat
  else 0%nat.

(** Accepted range of the second byte ([acceptRanges] of unicode/utf8). *)
Definition acceptLo (b0 : Z) : Z :=
  if b0 =? 224 then 160 else if b0 =? 240 then 144 else 128.
Definition acceptHi (b0 : Z) : Z :=
  if b0 =? 237 then 159 else if b0 =? 244 then 143 else 191.
Definition inAccept (b0 : Z) (c1 : ascii) : bool :=
  (acceptLo b0 <=? byteZ c1) && (byteZ c1 <=? acceptHi b0).

Definition rune2 (b0 b1 : Z) : Z := (b0 mod 32) * 64 + b1 mod 64.
Definition rune3 (b0 b1 b2 : Z) : Z :=
  (b0 mod 16) * 4096 + (b1 mod 64) * 64 + b2 mod 64.
Definition rune4 (b0 b1 b2 b3 : Z) : Z :=
  (b0 mod 8) * 262144 + (b1 mod 64) * 4096 + (b2 mod 64) * 64 + b3 mod 64.

(** The conversion [[]rune(s)]: one rune per encoded code point, and
    [RuneError] for every byte that does not start a valid encoding. *)
Fixpoint runes (s : string) : list Z :=
  match s with
  | EmptyString => []
  | String c0 s1 =>
    let b0 := byteZ c0 in
    if b0 <? 128 then b0 :: runes s1
    else
      match seqLen b0, s1 with
      | 2%nat, String c1 s2 =>
        if inAccept b0 c1 then rune2 b0 (byteZ c1) :: runes s2
        else RuneError :: runes s1
      | 3%nat, String c1 (String c2 s3) =>
        if inAccept b0 c1 && isCont c2
        then rune3 b0 (byteZ c1) (byteZ c2) :: runes s3
        else RuneError :: runes s1
      | 4%nat, String c1 (String c2 (String c3 s4)) =>
        if inAccept b0 c1 && isCont c2 && isCont c3
        then rune4 b0 (byteZ c1) (byteZ c2) (byteZ c3) :: runes s4
        else RuneError :: runes s1
      | _, _ => RuneError :: runes s1
      end
  end.

Definition str1 (a : Z) : string := String (byteOf a) EmptyString.
Definition str2 (a b : Z) : string := String (byteOf a) (str1 b).
Definition str3 (a b c : Z) : string := String (byteOf a) (str2 b c).
Definition str4 (a b c d : Z) : string := String (byteOf a) (str3 b c d).

(** [utf8.EncodeRune]: surrogates and out-of-range values are written as
    [RuneError]. *)
Definition encodeRune (r : Z) : string :=
  if (0 <=? r) && (r <=? 127) then str1 r
  else if (0 <=? r) && (r <=? 2047) then str2 (192 + r / 64) (128 + r mod 64)
  else if (r <? 0) || (MaxRune <? r) || ((55296 <=? r) && (r <=? 57343))
  then str3 239 191 189
  else if r <=? 65535
  then str3 (224 + r / 4096) (128 + (r / 64) mod 64) (128 + r mod 64)
  else str4 (240 + r / 262144) (128 + (r / 4096) mod 64)
            (128 + (r / 64) mod 64) (128 + r mod 64).

(** The conversion [string(rs)] of a rune slice. *)
Fixpoint encodeRunes (rs : list Z) : string :=
  match rs with
  | [] => EmptyString
  | r :: rs' => (encodeRune r ++ encodeRunes rs')%string
  end.

(** [utf8.ValidString]: decoding and encoding gives the string back. *)
Definition valid (s : string) : bool := String.eqb (encodeRunes (runes s)) s.

End Utf8.

(** ** Limits *)

Definition minFlagKeyLen : Z := 3.
Definition maxFileCount : Z := 10000.
Definition maxLineCharCount : Z := 500.
Definition maxHunkCount : Z := 25000.
Definition maxHunkedLinesPerFileAndFlagCount : Z := 500.
Definition maxProjKeyLength : Z := 20.

(** Go's [len] of a string: its number of bytes. *)
Definition len (s : string) : Z := Z.of_nat (String.length s).

(** The horizontal ellipsis U+2026 as Go writes it into a string. *)
Definition ellipsis : string := Utf8.encodeRune 8230.

(** The size classes of the allocator of the Go runtime, in bytes
    ([runtime/sizeclasses.go]), and its page size. *)
Definition sizeClasses : list Z :=
  [8; 16; 24; 32; 48; 64; 80; 96; 112; 128; 144; 160; 176; 192; 208; 224;
   240; 256; 288; 320; 352; 384; 416; 448; 480; 512; 576; 640; 704; 768;
   896; 1024; 1152; 1280; 1408; 1536; 1792; 2048; 2304; 2688; 3072; 3200;
   3456; 4096; 4864; 5120; 5376; 6144; 6528; 6784; 6912; 8192; 9472; 9728;
   10240; 10880; 12288; 13568; 14336; 16384; 18432; 19072; 20480; 21760;
   24576; 27264; 28672; 32768].
Definition pageSize : Z := 8192.

(** [runtime.roundupsize]: the size of the block that is allocated for
    [size] bytes. *)
Definition roundupsize (size : Z) : Z :=
  match List.find (fun c => size <=? c) sizeClasses with
  | Some c => c
  | None => (size + pageSize - 1) / pageSize * pageSize
  end.

(** The capacity of the slice [[]rune(line)] of [n] runes.  The slice of
    [truncateLine] does not escape: up to 32 runes it is a buffer of that
    size on the stack, beyond that [runtime.rawruneslice] allocates
    [roundupsize(4 * n)] bytes and clears the ones after the runes. *)
Definition runeSliceCap (n : Z) : Z :=
  if n <=? 32 then 32 else roundupsize (4 * n) / 4.

(** The slice expression [rs[0:n]] of a slice of capacity [cap] whose
    elements beyond the length are zero: up to the length it is a prefix,
    up to the capacity it reaches into the zero elements, and beyond the
    capacity it panics. *)
Definition sliceTo (rs : list Z) (cap n : Z) : option (list Z) :=
  if n <=? Z.of_nat (length rs) then Some (take (Z.to_nat n) rs)
  else if n <=? cap
       then Some (rs ++ replicate (Z.to_nat n - length rs)%nat 0)
       else None.

Definition truncateLine (line : string) : option string :=
  if maxLineCharCount <? len line then
    let runes := Utf8.runes line in
    rs ← sliceTo runes (runeSliceCap (Z.of_nat (length runes)))
                 maxLineCharCount;
    Some (Utf8.encodeRunes rs ++ ellipsis)%string
  else Some line.

(** ** Data model *)

Record searchResultLine := {
  Path : string;
  LineNum : Z;
  LineText : string;
  FlagKeys : gmap string (list string)
}.

Record HunkRep := {
  ProjKey : string;
  FlagKey : string;
  StartingLineNumber : Z;
  Lines : string;
  Aliases : list string
}.

Record ReferenceHunksRep := {
  RepPath : string;
  Hunks : list HunkRep
}.

(** The per-file search results: the list of all result lines of the file,
    and for every flag the positions in that list where the flag occurs. *)
Record fileSearchResults := {
  path : string;
  fileSearchResultLines : list searchResultLine;
  flagReferenceMap : gmap string (list nat)
}.

(** What the program writes to its log, and [Fatalf]. *)
Inductive logEvent :=
| WarnFileCount (n : Z)
| WarnHunkCount (n : Z)
| WarnHunkedLines (n : Z) (file flag : string)
| ErrNoHunks (file : string)
| WarnUpdateSequenceId (id : Z)
| InfoPrune
| WarnRemoteBranches
| InfoStaleBranches (n : Z).

(** Modelled from the spec: [helpers.Dedupe] is not among the sources; the
    hunk's aliases are a deduplicated list, here the list of first
    occurrences in their order. *)
Fixpoint dedupeFrom (seen : gset string) (s : list string) : list string :=
  match s with
  | [] => []
  | e :: s' =>
    if decide (e ∈ seen) then dedupeFrom seen s'
    else e :: dedupeFrom ({[e]} ∪ seen) s'
  end.

Definition Dedupe (s : list string) : list string := dedupeFrom ∅ s.

(** ** buildHunksForFlag *)

Definition newline : string := String (ascii_of_nat 10) EmptyString.

Definition initHunk (projKey flagKey : string) : HunkRep :=
  {| ProjKey := projKey; FlagKey := flagKey; StartingLineNumber := 0;
     Lines := EmptyString; Aliases := [] |}.

(** The zero value of [ld.HunkRep]. *)
Definition zeroHunk : HunkRep :=
  {| ProjKey := EmptyString; FlagKey := EmptyString; StartingLineNumber := 0;
     Lines := EmptyString; Aliases := [] |}.

Definition setStart (h : HunkRep) (n : Z) : HunkRep :=
  {| ProjKey := ProjKey h; FlagKey := FlagKey h; StartingLineNumber := n;
     Lines := Lines h; Aliases := Aliases h |}.
Definition setLines (h : HunkRep) (s : string) : HunkRep :=
  {| ProjKey := ProjKey h; FlagKey := FlagKey h;
     StartingLineNumber := StartingLineNumber h;
     Lines := s; Aliases := Aliases h |}.
Definition setAliases (h : HunkRep) (a : list string) : HunkRep :=
  {| ProjKey := ProjKey h; FlagKey := FlagKey h;
     StartingLineNumber := StartingLineNumber h;
     Lines := Lines h; Aliases := a |}.

(** The variables of [buildHunksForFlag] that live across the references.
    [previousHunk] is [nil] while [hunks] is empty and points to its last
    element afterwards (it is reassigned at every [append]).
    [appendToPreviousHunk] is false whenever a reference starts: the only
    branch that is taken when it is true resets it. *)
Record bhState := {
  hunks : list HunkRep;
  currentHunk : HunkRep;
  lastSeenLineNum : Z;
  hunkStringBuilder : string;
  numHunkedLines : Z
}.

Definition initState : bhState :=
  {| hunks := []; currentHunk := zeroHunk; lastSeenLineNum := -1;
     hunkStringBuilder := EmptyString; numHunkedLines := 0 |}.

(** [previousHunk.Lines = s]. *)
Definition setPreviousLines (hs : list HunkRep) (s : string)
  : option (list HunkRep) :=
  match last hs with
  | Some h => Some (<[pred (length hs) := setLines h s]> hs)
  | None => None
  end.

Section Hunker.
Context (projKey flag file : string) (lines : list searchResultLine)
        (ctxLines : Z).

(** The backward seek: [n] iterations from [ptr]. *)
Fixpoint seekBack (lastSeen : Z) (n : nat) (ptr : nat) (num : Z) (app : bool)
  : option (nat * Z * bool) :=
  match n with
  | O => Some (ptr, num, app)
  | S n' =>
    let '(ptr1, num1) :=
      match ptr with O => (ptr, num) | S p => (p, num + 1) end in
    l ← lines !! ptr1;
    seekBack lastSeen n' ptr1 num1
             (if LineNum l <=? lastSeen then true else app)
  end.

(** One iteration of the forward walk at [ptr]. *)
Definition writeLine (l : searchResultLine) (st : bhState) : option bhState :=
  if lastSeenLineNum st <? LineNum l then
    lineText ← truncateLine (LineText l);
    Some {| hunks := hunks st;
            currentHunk :=
              setAliases (currentHunk st)
                (Aliases (currentHunk st) ++ default [] (FlagKeys l !! flag));
            lastSeenLineNum := LineNum l;
            hunkStringBuilder :=
              (hunkStringBuilder st ++ (lineText ++ newline))%string;
            numHunkedLines := numHunkedLines st + 1 |}
  else Some st.

Definition next (ptr : nat) : nat :=
  if decide (S ptr < length lines)%nat then S ptr else ptr.

Fixpoint seekForward (n : nat) (ptr : nat) (st : bhState) : option bhState :=
  match n with
  | O => Some st
  | S n' =>
    l ← lines !! ptr;
    st' ← writeLine l st;
    seekForward n' (next ptr) st'
  end.

Definition startHunk (st : bhState) (start : Z) : bhState :=
  {| hunks := hunks st;
     currentHunk := setStart (initHunk projKey flag) start;
     lastSeenLineNum := lastSeenLineNum st;
     hunkStringBuilder := EmptyString;
     numHunkedLines := numHunkedLines st |}.

Definition finishHunk (app : bool) (st : bhState) : option bhState :=
  if app then
    hs ← setPreviousLines (hunks st) (hunkStringBuilder st);
    Some {| hunks := hs; currentHunk := currentHunk st;
            lastSeenLineNum := lastSeenLineNum st;
            hunkStringBuilder := hunkStringBuilder st;
            numHunkedLines := numHunkedLines st |}
  else
    let cur := setAliases (setLines (currentHunk st) (hunkStringBuilder st))
                          (Dedupe (Aliases (currentHunk st))) in
    Some {| hunks := hunks st ++ [cur]; currentHunk := cur;
            lastSeenLineNum := lastSeenLineNum st;
            hunkStringBuilder := hunkStringBuilder st;
            numHunkedLines := numHunkedLines st |}.

(** The body of the loop over the references, up to the check of the limit. *)
Definition processRef (st : bhState) (ref : nat) : option bhState :=
  '(ptr, numCtxLinesBeforeFlagRef, app) ←
    seekBack (lastSeenLineNum st) (Z.to_nat ctxLines) ref 0 false;
  st1 ← (if app then Some st
         else l ← lines !! ptr; Some (startHunk st (LineNum l)));
  st2 ← seekForward (Z.to_nat (numCtxLinesBeforeFlagRef + 1 + ctxLines))
                    ptr st1;
  finishHunk app st2.

Fixpoint buildLoop (refs : list nat) (st : bhState)
  : option (list HunkRep * list logEvent) :=
  match refs with
  | [] => Some (hunks st, [])
  | ref :: rest =>
    st' ← processRef st ref;
    if maxHunkedLinesPerFileAndFlagCount <? numHunkedLines st'
    then Some (hunks st', [WarnHunkedLines (numHunkedLines st') file flag])
    else buildLoop rest st'
  end.

Definition buildHunksForFlag (flagReferences : list nat)
  : option (list HunkRep * list logEvent) :=
  buildLoop flagReferences initState.

(** The references in order, without the limit: the state the loop is in
    after them. *)
Fixpoint runRefs (refs : list nat) (st : bhState) : option bhState :=
  match refs with
  | [] => Some st
  | ref :: rest => st' ← processRef st ref; runRefs rest st'
  end.

End Hunker.

(** The line range of a hunk: it starts at [StartingLineNumber] and has one
    line per newline of [Lines]. *)
Fixpoint countNewlines (s : string) : Z :=
  match s with
  | EmptyString => 0
  | String c s' =>
    (if Ascii.eqb c (ascii_of_nat 10) then 1 else 0) + countNewlines s'
  end.

Definition hunkStart (h : HunkRep) : Z := StartingLineNumber h.
Definition hunkEnd (h : HunkRep) : Z :=
  StartingLineNumber h + countNewlines (Lines h) - 1.

Definition mkLine (p : string) (n : Z) (t : string)
  (fk : list (string * list string)) : searchResultLine :=
  {| Path := p; LineNum := n; LineText := t; FlagKeys := list_to_map fk |}.

(** ** findReferencedFlags *)

(** The patterns that [findReferencedFlags] compiles are read here where
    their reading is plain: a quoted term of well-formed text is searched
    byte for byte, and a bracket expression that holds no character with a
    special meaning is the set of its characters.  The delimiters go into
    the pattern unquoted, so they can make any other pattern; those are
    left to [regexp.MustCompile], which is a parameter of the model. *)

Module Regexp.

Fixpoint hasPrefix (p s : string) : bool :=
  match p, s with
  | EmptyString, _ => true
  | String a p', String b s' => Ascii.eqb a b && hasPrefix p' s'
  | String _ _, EmptyString => false
  end.

(** [regexp.MustCompile(regexp.QuoteMeta(term)).MatchString(ref)]: the
    quoted term stands for itself and is searched anywhere in [ref]. *)
Fixpoint matchLiteral (term ref : string) : bool :=
  hasPrefix term ref ||
  match ref with
  | EmptyString => false
  | String _ ref' => matchLiteral term ref'
  end.

Fixpoint dropBytes (n : nat) (s : string) : string :=
  match n, s with
  | S n', String _ s' => dropBytes n' s'
  | _, _ => s
  end.

(** A character class that is a plain set of runes. *)
Definition inClass (chars : list Z) (r : Z) : bool := bool_decide (r ∈ chars).

Definition delimitedAt (chars term rs : list Z) : bool :=
  match rs with
  | [] => false
  | d1 :: rest =>
    inClass chars d1 && bool_decide (take (length term) rest = term) &&
    match drop (length term) rest with
    | d2 :: _ => inClass chars d2
    | [] => false
    end
  end.

(** The pattern [[set]term[set]], searched anywhere in the runes of the
    line: a rune of the set, the runes of the term, a rune of the set. *)
Fixpoint matchDelimited (chars term rs : list Z) : bool :=
  delimitedAt chars term rs ||
  match rs with
  | [] => false
  | _ :: rs' => matchDelimited chars term rs'
  end.

Definition backslash : ascii := ascii_of_nat 92.

(** The bytes that [regexp.QuoteMeta] escapes. *)
Definition special (c : ascii) : bool :=
  existsb (Ascii.eqb c)
    (list_ascii_of_string (String backslash ".+*?()|[]{}^$")).

Fixpoint QuoteMeta (s : string) : string :=
  match s with
  | EmptyString => EmptyString
  | String c s' =>
    if special c then String backslash (String c (QuoteMeta s'))
    else String c (QuoteMeta s')
  end.

(** Well-formed UTF-8 without the replacement character: the text whose
    runes and bytes stand for each other in every line, well-formed or
    not. *)
Definition plainTerm (term : string) : bool :=
  forallb (fun r => negb (r =? Utf8.RuneError)) (Utf8.runes term).

(** No [[] before a [:], which would begin a named class. *)
Fixpoint noNamedClass (chars : list Z) : bool :=
  match chars with
  | r :: rest =>
    negb ((r =? 91) && match rest with r' :: _ => r' =? 58 | [] => false end)
    && noNamedClass rest
  | [] => true
  end.

(** The runes that a bracket expression, written [[set]], reads as the set
    of these runes: no backslash (an escape), []] only in front (elsewhere
    it ends the expression), no named class, no [^] in front (a negation)
    and [-] only in front or at the end (elsewhere it makes a range). *)
Definition literalSet (chars : list Z) : bool :=
  forallb (fun r => negb (r =? 92)) chars &&
  forallb (fun r => negb (r =? 93)) (tail chars) &&
  noNamedClass chars &&
  match chars with
  | r :: _ => negb (r =? 94)
  | [] => true
  end &&
  forallb (fun r => negb (r =? 45)) (removelast (tail chars)).

End Regexp.

Section FindReferencedFlags.

(** [regexp.MustCompile] on the patterns that are given no reading here:
    the match function of the compiled pattern, or [None] when the pattern
    does not compile and the call panics. *)
Variable MustCompile : string -> option (string -> bool).

(** [regexp.MustCompile(regexp.QuoteMeta(term))].  A pattern that is not
    well-formed UTF-8 does not compile. *)
Definition literalMatcher (term : string) : option (string -> bool) :=
  if Regexp.plainTerm term then Some (Regexp.matchLiteral term)
  else if Utf8.valid term then MustCompile (Regexp.QuoteMeta term)
  else None.

(** [fmt.Sprintf("[%s]%s[%s]", delims, regexp.QuoteMeta(key), delims)] *)
Definition delimitedPattern (delims key : string) : string :=
  ("[" ++ delims ++ "]" ++ Regexp.QuoteMeta key ++ "[" ++ delims ++ "]")%string.

(** [regexp.MustCompile] of the pattern with delimiters.  The delimiters
    are not quoted: they are read as a set where the syntax of bracket
    expressions does so, and as whatever pattern they make elsewhere. *)
Definition delimitedMatcher (delims key : string) : option (string -> bool) :=
  if Regexp.plainTerm delims && Regexp.plainTerm key &&
     Regexp.literalSet (Utf8.runes delims)
  then Some (fun ref => Regexp.matchDelimited (Utf8.runes delims)
                          (Utf8.runes key) (Utf8.runes ref))
  else MustCompile (delimitedPattern delims key).

(** The matcher of a key: the pattern of the key alone is compiled first,
    and replaced when there are delimiters. *)
Definition keyMatcher (delims key : string) : option (string -> bool) :=
  match literalMatcher key with
  | Some matcher =>
    if 0 <? len delims then delimitedMatcher delims key else Some matcher
  | None => None
  end.

(** The loop over the aliases of one flag: the aliases found in the line,
    in their order. *)
Fixpoint matchedAliases (ref : string) (flagAliases : list string)
  : option (list string) :=
  match flagAliases with
  | [] => Some []
  | alias :: rest =>
    match literalMatcher alias, matchedAliases ref rest with
    | Some aliasMatcher, Some found =>
      Some (if aliasMatcher ref then alias :: found else found)
    | _, _ => None
    end
  end.

(** What one iteration of the loop over [aliases] leaves in [ret[key]], or
    [None] when it panics. *)
Definition referencedEntry (ref delims key : string)
  (flagAliases : list string) : option (option (list string)) :=
  match keyMatcher delims key, matchedAliases ref flagAliases with
  | Some matcher, Some matched =>
    Some (if matcher ref then Some matched
          else match matched with [] => None | _ :: _ => Some matched end)
  | _, _ => None
  end.

(** Every iteration reads and writes [ret] at its own key only; the call
    panics when one of them does. *)
Definition findReferencedFlags (ref : string)
  (aliases : gmap string (list string)) (delims : string)
  : option (gmap string (list string)) :=
  if forallb (fun '(key, flagAliases) =>
                bool_decide (is_Some (referencedEntry ref delims key
                                        flagAliases)))
             (map_to_list aliases)
  then Some (map_imap (fun key flagAliases =>
                         default None (referencedEntry ref delims key
                                         flagAliases)) aliases)
  else None.

End FindReferencedFlags.

(** ** Aggregation by path *)

(** How a call ends: with a value, in [log.Error.Fatalf], or in a panic. *)
Inductive res (A : Type) :=
| Ok (a : A)
| Fatalf (msg : string)
| Panicked.
Arguments Ok {A} a.
Arguments Fatalf {A} msg.
Arguments Panicked {A}.

Definition outOfOrder : string := "search results returned out of order".

Definition newFileSearchResults (p : string) : fileSearchResults :=
  {| path := p; fileSearchResultLines := []; flagReferenceMap := ∅ |}.

(** Returns the position of the pushed element. *)
Definition addSearchResult (fsr : fileSearchResults)
  (searchResult : searchResultLine) : res (fileSearchResults * nat) :=
  let pushed :=
    ({| path := path fsr;
        fileSearchResultLines := fileSearchResultLines fsr ++ [searchResult];
        flagReferenceMap := flagReferenceMap fsr |},
     length (fileSearchResultLines fsr)) in
  match last (fileSearchResultLines fsr) with
  | Some prev =>
    if LineNum searchResult <? LineNum prev then Fatalf outOfOrder
    else Ok pushed
  | None => Ok pushed
  end.

Definition addFlagReference (key : string) (ref : nat)
  (fsr : fileSearchResults) : fileSearchResults :=
  {| path := path fsr;
     fileSearchResultLines := fileSearchResultLines fsr;
     flagReferenceMap :=
       match flagReferenceMap fsr !! key with
       | Some refs => <[key := refs ++ [ref]]> (flagReferenceMap fsr)
       | None => <[key := [ref]]> (flagReferenceMap fsr)
       end |}.

Fixpoint aggregateLoop (g : list searchResultLine)
  (allFileResults : list fileSearchResults)
  (currentFileResults : fileSearchResults) : res (list fileSearchResults) :=
  match g with
  | [] => Ok (allFileResults ++ [currentFileResults])
  | searchResult :: g' =>
    let '(all1, cur1) :=
      if decide (Path searchResult = path currentFileResults)
      then (allFileResults, currentFileResults)
      else (allFileResults ++ [currentFileResults],
            newFileSearchResults (Path searchResult)) in
    match addSearchResult cur1 searchResult with
    | Ok (cur2, elem) =>
      aggregateLoop g' all1
        (map_fold (fun flagKey _ fsr => addFlagReference flagKey elem fsr)
                  cur2 (FlagKeys searchResult))
    | Fatalf m => Fatalf m
    | Panicked => Panicked
    end
  end.

Definition aggregateByPath (g : list searchResultLine)
  : res (list fileSearchResults) :=
  match g with
  | [] => Ok []
  | first :: _ => aggregateLoop g [] (newFileSearchResults (Path first))
  end.

(** ** Hunks of a file and of all files *)

Fixpoint hunkRepsLoop (projKey : string) (fsr : fileSearchResults)
  (ctxLines : Z) (entries : list (string * list nat))
  (hunks : list HunkRep) (log : list logEvent)
  : option (list HunkRep * list logEvent) :=
  match entries with
  | [] => Some (hunks, log)
  | (flagKey, flagReferences) :: rest =>
    '(flagHunks, l) ←
      buildHunksForFlag projKey flagKey (path fsr)
        (fileSearchResultLines fsr) ctxLines flagReferences;
    hunkRepsLoop projKey fsr ctxLines rest (hunks ++ flagHunks) (log ++ l)
  end.

(** The flags are visited in the order of [map_to_list]; Go leaves the order
    of a map's keys open. *)
Definition makeHunkReps (fsr : fileSearchResults) (projKey : string)
  (ctxLines : Z) : option (list HunkRep * list logEvent) :=
  hunkRepsLoop projKey fsr ctxLines (map_to_list (flagReferenceMap fsr))
               [] [].

Fixpoint repsLoop (projKey : string) (ctxLines : Z)
  (files : list fileSearchResults) (numHunks : Z)
  (shouldSuppressUnexpectedError : bool)
  (reps : list ReferenceHunksRep) (log : list logEvent)
  : option (list ReferenceHunksRep * list logEvent) :=
  match files with
  | [] => Some (reps, log)
  | fsr :: rest =>
    if maxHunkCount <? numHunks then Some (reps, log ++ [WarnHunkCount numHunks])
    else
      '(hunks, l) ← makeHunkReps fsr projKey ctxLines;
      if (Z.of_nat (length hunks) =? 0) && negb shouldSuppressUnexpectedError
      then repsLoop projKey ctxLines rest numHunks true reps
                    (log ++ l ++ [ErrNoHunks (path fsr)])
      else repsLoop projKey ctxLines rest
                    (numHunks + Z.of_nat (length hunks))
                    shouldSuppressUnexpectedError
                    (reps ++ [{| RepPath := path fsr; Hunks := hunks |}])
                    (log ++ l)
  end.

(** The files that are looked at: at most [maxFileCount]. *)
Definition limitFiles (files : list fileSearchResults)
  : list fileSearchResults * list logEvent :=
  if maxFileCount <? Z.of_nat (length files)
  then (take (Z.to_nat maxFileCount) files,
        [WarnFileCount (Z.of_nat (length files))])
  else (files, []).

Definition makeReferenceHunksReps (g : list searchResultLine)
  (projKey : string) (ctxLines : Z)
  : res (list ReferenceHunksRep * list logEvent) :=
  match aggregateByPath g with
  | Ok aggregatedSearchResults =>
    let '(files, l) := limitFiles aggregatedSearchResults in
    match repsLoop projKey ctxLines files 0 false [] l with
    | Some r => Ok r
    | None => Panicked
    end
  | Fatalf m => Fatalf m
  | Panicked => Panicked
  end.

Definition totalHunks (reps : list ReferenceHunksRep) : Z :=
  foldr (fun rep n => Z.of_nat (length (Hunks rep)) + n) 0 reps.

(** ** The branch and its submission *)

Module ld.

Record BranchRep := {
  Name : string;
  Head : string;
  UpdateSequenceId : option Z;
  SyncTime : Z;
  References : list ReferenceHunksRep
}.

(** The errors of the API client that [Scan] tells apart, and
    [ld.IsTransient]. *)
Inductive errKind :=
| BranchUpdateSequenceIdConflictErr
| EntityTooLargeErr
| OtherErr.

Record error := { kind : errKind; IsTransient : bool }.

End ld.

Module options.

(** The options that the modelled part of [Scan] reads. *)
Record Options := {
  ProjKey : string;
  ContextLines : Z;
  UpdateSequenceId : Z;
  OutDir : string;
  DryRun : bool;
  IgnoreServiceErrors : bool
}.

End options.

Record branch := {
  Name : string;
  Head : string;
  UpdateSequenceId : option Z;
  SyncTime : Z;
  SearchResults : list searchResultLine
}.

Definition trimPrefix (s p : string) : string :=
  if Regexp.hasPrefix p s then Regexp.dropBytes (String.length p) s else s.

Definition makeBranchRep (b : branch) (projKey : string) (ctxLines : Z)
  : res (ld.BranchRep * list logEvent) :=
  match makeReferenceHunksReps (SearchResults b) projKey ctxLines with
  | Ok (refs, l) =>
    Ok ({| ld.Name := trimPrefix (Name b) "refs/heads/";
           ld.Head := Head b;
           ld.UpdateSequenceId := UpdateSequenceId b;
           ld.SyncTime := SyncTime b;
           ld.References := refs |}, l)
  | Fatalf m => Fatalf m
  | Panicked => Panicked
  end.

(** What the run finds outside of itself after the search: the git client,
    the clock, the sorted search results, and the answers of the service and
    of the remote.  [None] as an answer is Go's [nil] error. *)
Record world := {
  GitBranch : string;
  GitSha : string;
  timestamp : Z;
  sortedRefs : list searchResultLine;
  writeToCSV : option ld.error;
  PutCodeReferenceBranch : option ld.error;
  RemoteBranches : ld.error + gmap string bool;
  GetCodeReferenceRepositoryBranches : ld.error + list string;
  PostDeleteBranchesTask : option ld.error
}.

(** What a run does that can be seen from outside, in order. *)
Inductive effect :=
| Log (e : logEvent)
| PutBranch (b : ld.BranchRep)
| ListRemoteBranches
| ListRepositoryBranches
| DeleteBranches (names : list string).

(** The end of the run: [Scan] returns, or the process exits. *)
Inductive exit :=
| Returns
| Exits (code : Z).

Definition fatalServiceError (err : ld.error) (ignoreServiceErrors : bool)
  : exit :=
  if ld.IsTransient err then
    if ignoreServiceErrors then Exits 0 else Exits 1
  else Exits 1.

Definition calculateStaleBranches (branches : list string)
  (remoteBranches : gmap string bool) : list string :=
  List.filter (fun name => negb (default false (remoteBranches !! name)))
              branches.

(** Returns the error, if any, and what was done. *)
Definition deleteStaleBranches (w : world)
  (remoteBranches : gmap string bool) : option ld.error * list effect :=
  match GetCodeReferenceRepositoryBranches w with
  | inl err => (Some err, [ListRepositoryBranches])
  | inr branches =>
    let staleBranches := calculateStaleBranches branches remoteBranches in
    let seen := [ListRepositoryBranches;
                 Log (InfoStaleBranches (Z.of_nat (length staleBranches)))] in
    if 0 <? Z.of_nat (length staleBranches) then
      (PostDeleteBranchesTask w, seen ++ [DeleteBranches staleBranches])
    else (None, seen)
  end.

(** The pruning phase, the last statements of [Scan]. *)
Definition prune (opts : options.Options) (w : world) : exit * list effect :=
  match RemoteBranches w with
  | inl _ => (Returns, [Log InfoPrune; ListRemoteBranches;
                        Log WarnRemoteBranches])
  | inr remoteBranches =>
    let '(err, done) := deleteStaleBranches w remoteBranches in
    (match err with
     | Some e => fatalServiceError e (options.IgnoreServiceErrors opts)
     | None => Returns
     end,
     [Log InfoPrune; ListRemoteBranches] ++ done)
  end.

Definition updateIdOf (opts : options.Options) : option Z :=
  if 0 <=? options.UpdateSequenceId opts
  then Some (options.UpdateSequenceId opts) else None.

(** The submission: the [switch] on the error of the PUT, then the pruning. *)
Definition submit (opts : options.Options) (w : world) (b : branch)
  (branchRep : ld.BranchRep) : exit * list effect :=
  match PutCodeReferenceBranch w with
  | None =>
    let '(e, done) := prune opts w in (e, PutBranch branchRep :: done)
  | Some err =>
    match ld.kind err with
    | ld.BranchUpdateSequenceIdConflictErr =>
      let warned :=
        match UpdateSequenceId b with
        | Some id => [Log (WarnUpdateSequenceId id)]
        | None => []
        end in
      let '(e, done) := prune opts w in
      (e, PutBranch branchRep :: warned ++ done)
    | ld.EntityTooLargeErr => (Exits 1, [PutBranch branchRep])
    | ld.OtherErr =>
      (fatalServiceError err (options.IgnoreServiceErrors opts),
       [PutBranch branchRep])
    end
  end.

(** [Scan] from the construction of the branch on.  What comes before (the
    clients, the repository, the flags, the aliases and the search, each of
    which can end the run) is not part of this function; informational log
    lines other than the ones of [logEvent] are left out.  A panic ends the
    process with status 2. *)
Definition Scan (opts : options.Options) (w : world) : exit * list effect :=
  let b := {| Name := GitBranch w;
              UpdateSequenceId := updateIdOf opts;
              SyncTime := timestamp w;
              Head := GitSha w;
              SearchResults := sortedRefs w |} in
  match makeBranchRep b (options.ProjKey opts) (options.ContextLines opts) with
  | Fatalf _ => (Exits 1, [])
  | Panicked => (Exits 2, [])
  | Ok (branchRep, l) =>
    let logged := map Log l in
    match (if decide (options.OutDir opts = EmptyString) then None
           else writeToCSV w) with
    | Some _ => (Exits 1, logged)
    | None =>
      if options.DryRun opts then (Returns, logged)
      else let '(e, done) := submit opts w b branchRep in (e, logged ++ done)
    end
  end.

(** ** Notions used in the statements *)

Fixpoint takeBytes (n : nat) (s : string) : string :=
  match n, s with
  | S n', String c s' => String c (takeBytes n' s')
  | _, _ => EmptyString
  end.

Fixpoint asciiOnly (s : string) : bool :=
  match s with
  | EmptyString => true
  | String c s' => (Utf8.byteZ c <? 128) && asciiOnly s'
  end.

(** A string is well-formed UTF-8 when decoding and encoding gives it back. *)
Definition validUtf8 (s : string) : Prop :=
  Utf8.encodeRunes (Utf8.runes s) = s.

(** The term occurs in the line. *)
Definition occursIn (term ref : string) : Prop :=
  exists pre post, ref = (pre ++ term ++ post)%string.

(** The term occurs in the line between two delimiters: the characters of
    the term stand in the line with a character of the delimiters
    immediately before and after them. *)
Definition wrappedIn (delims term ref : string) : Prop :=
  exists pre d1 d2 post,
    Utf8.runes ref = pre ++ d1 :: Utf8.runes term ++ d2 :: post /\
    d1 ∈ Utf8.runes delims /\ d2 ∈ Utf8.runes delims.

(** The pattern of the quoted term finds the occurrences of the term. *)
Definition searchedLiterally (MustCompile : string -> option (string -> bool))
  (term : string) : Prop :=
  exists matcher,
    literalMatcher MustCompile term = Some matcher /\
    forall ref, matcher ref = true <-> occursIn term ref.

(** The keys and aliases of the configuration are all searched literally. *)
Definition termsSearchedLiterally
  (MustCompile : string -> option (string -> bool))
  (aliases : gmap string (list string)) : Prop :=
  forall key flagAliases, aliases !! key = Some flagAliases ->
    searchedLiterally MustCompile key /\
    forall a, a ∈ flagAliases -> searchedLiterally MustCompile a.

(** The delimiter string stands for the set of its characters in the
    pattern of the key: the pattern finds the key between two of them. *)
Definition delimitersStandFor (MustCompile : string -> option (string -> bool))
  (delims key : string) : Prop :=
  exists matcher,
    delimitedMatcher MustCompile delims key = Some matcher /\
    forall ref, matcher ref = true <-> wrappedIn delims key ref.

(** Two neighbours of the sequence have the same path and line numbers that
    go down. *)
Definition outOfOrderAt (g : list searchResultLine) (i : nat) : Prop :=
  exists a b, g !! i = Some a /\ g !! S i = Some b /\
              Path a = Path b /\ LineNum b < LineNum a.

(** The same surroundings with another answer to the PUT of the branch. *)
Definition withPut (w : world) (answer : option ld.error) : world :=
  {| GitBranch := GitBranch w; GitSha := GitSha w; timestamp := timestamp w;
     sortedRefs := sortedRefs w; writeToCSV := writeToCSV w;
     PutCodeReferenceBranch := answer;
     RemoteBranches := RemoteBranches w;
     GetCodeReferenceRepositoryBranches := GetCodeReferenceRepositoryBranches w;
     PostDeleteBranchesTask := PostDeleteBranchesTask w |}.

(** Line number at a position of the file's list (0 outside of it). *)
Definition lineNumAt (lines : list searchResultLine) (i : nat) : Z :=
  default 0 (LineNum <$> lines !! i).

(** No line text holds a newline. *)
Definition oneLineTexts (lines : list searchResultLine) : Prop :=
  Forall (fun l => countNewlines (LineText l) = 0) lines.

(** The line lies in the range of the hunk. *)
Definition covers (h : HunkRep) (n : Z) : Prop :=
  hunkStart h <= n <= hunkEnd h.

(** Hunks in increasing order that do not overlap. *)
Definition hunksApart (hs : list HunkRep) : Prop :=
  forall i j h1 h2, (i < j)%nat -> hs !! i = Some h1 -> hs !! j = Some h2 ->
    hunkStart h1 < hunkStart h2 /\ hunkEnd h1 < hunkStart h2.

(** The matches of a flag, given by their positions, have line numbers that
    are not negative and strictly increase. *)
Definition matchesAscend (lines : list searchResultLine) (refs : list nat)
  : Prop :=
  Forall (fun r => 0 <= lineNumAt lines r) refs /\
  StronglySorted Z.lt (map (lineNumAt lines) refs).

(** One result per line: the line numbers are above [prev] and strictly
    increase. *)
Fixpoint ascendingFrom (prev : Z) (lines : list searchResultLine) : bool :=
  match lines with
  | [] => true
  | l :: lines' => (prev <? LineNum l) && ascendingFrom (LineNum l) lines'
  end.

Definition oneResultPerLine (lines : list searchResultLine) : bool :=
  ascendingFrom (-1) lines.

(** The references of a flag are positions of the list, in increasing
    order. *)
Fixpoint refsFrom (lo len : nat) (refs : list nat) : bool :=
  match refs with
  | [] => true
  | r :: refs' => (lo <=? r)%nat && (r <? len)%nat && refsFrom (S r) len refs'
  end.

Definition validRefs (lines : list searchResultLine) (refs : list nat)
  : bool :=
  refsFrom 0 (length lines) refs.

(** The results within [c] positions of the position [r] are consecutive
    lines of the file. *)
Definition contextAround (c : nat) (lines : list searchResultLine) (r : nat)
  : bool :=
  forallb (fun i =>
             match lines !! i, lines !! S i with
             | Some a, Some b => LineNum b =? LineNum a + 1
             | _, _ => true
             end)
          (seq (r - c) (r + c - (r - c))).

Definition limitWarning (st : bhState) (file flag : string) : logEvent :=
  WarnHunkedLines (numHunkedLines st) file flag.

(** The invariant of the loop over the references: the hunks built so far
    are apart and lie, like the last seen line, at or below [hi]; the text
    of the last hunk is what the builder holds. *)
Definition inv2 (st : bhState) (hi : Z) : Prop :=
  hunksApart (hunks st) /\
  (forall h, h ∈ hunks st -> hunkStart h <= hi /\ hunkEnd h <= hi) /\
  lastSeenLineNum st <= hi /\
  (forall h, last (hunks st) = Some h -> Lines h = hunkStringBuilder st).

(** The invariant of the loop over the references when the context of
    every match is consecutive: the references [done] lie below the position
    [m]; the lines from [m + ctxLines] on are beyond the last seen line; the
    last hunk holds the builder's text and ends at the last seen line; every
    reference in [done] is covered; and every hunk has a reference in [done]
    within [ctxLines] lines of its start and one within [ctxLines] lines of
    its end. *)
Definition inv1 (lines : list searchResultLine) (ctxLines : Z)
  (done : list nat) (st : bhState) (m : nat) : Prop :=
  Forall (fun r => (r < m)%nat /\ (r < length lines)%nat) done /\
  (forall i, (m + Z.to_nat ctxLines <= i)%nat -> (i < length lines)%nat ->
             lastSeenLineNum st < lineNumAt lines i) /\
  (forall h, last (hunks st) = Some h ->
             Lines h = hunkStringBuilder st /\
             hunkEnd h = lastSeenLineNum st) /\
  (forall r, r ∈ done ->
             exists h, h ∈ hunks st /\ covers h (lineNumAt lines r)) /\
  (forall h, h ∈ hunks st ->
     exists r1 r2, r1 ∈ done /\ r2 ∈ done /\
       hunkStart h <= lineNumAt lines r1 <= hunkStart h + ctxLines /\
       hunkEnd h - ctxLines <= lineNumAt lines r2 <= hunkEnd h).

(** ** Inputs of the examples *)

Fixpoint repeatString (n : nat) (s : string) : string :=
  match n with
  | O => EmptyString
  | S n' => (s ++ repeatString n' s)%string
  end.

(** 501 times the two-byte character U+00E9. *)
Definition twoByteLine : string := repeatString 501 (Utf8.encodeRune 233).

(** 400 single-byte and 60 two-byte characters: 520 bytes, 460 characters. *)
Definition paddedLine : string :=
  (repeatString 400 "a" ++ repeatString 60 (Utf8.encodeRune 233))%string.

Definition defaultDelims : string := String (ascii_of_nat 34) "'`".

(** An alias of [my-flag] in a line without any delimiter. *)
Definition aliasLine : string := "enabled := flags.myFlag".
Definition demoAliases : gmap string (list string) :=
  {[ "my-flag" := ["myFlag"] ]}.

(** Two matches of [my-flag] two lines apart, the second one through the
    alias [myFlag]; with one line of context the second match extends the
    hunk of the first. *)
Definition aliasHunkLines : list searchResultLine :=
  [mkLine "a.go" 1 "flag('my-flag')" [("my-flag", [])];
   mkLine "a.go" 2 "// context" [];
   mkLine "a.go" 3 "flags.myFlag" [("my-flag", ["myFlag"])];
   mkLine "a.go" 4 "// end" []].

Definition conflictErr : ld.error :=
  {| ld.kind := ld.BranchUpdateSequenceIdConflictErr; ld.IsTransient := false |}.
Definition serverErr : ld.error :=
  {| ld.kind := ld.OtherErr; ld.IsTransient := false |}.

Definition demoOptions (updateSequenceId : Z) : options.Options :=
  {| options.ProjKey := "default"; options.ContextLines := 1;
     options.UpdateSequenceId := updateSequenceId;
     options.OutDir := EmptyString; options.DryRun := false;
     options.IgnoreServiceErrors := false |}.

Definition demoRefs : list searchResultLine :=
  [mkLine "a.go" 2 "L2" [];
   mkLine "a.go" 3 "L3" [("foo-flag", [])];
   mkLine "a.go" 4 "L4" []].

(** The service answers the PUT with the conflict; [answer] is what it says
    when asked for the branches it knows. *)
Definition conflictWorld (answer : ld.error + list string) : world :=
  {| GitBranch := "refs/heads/main"; GitSha := "0a1b2c"; timestamp := 1;
     sortedRefs := demoRefs; writeToCSV := None;
     PutCodeReferenceBranch := Some conflictErr;
     RemoteBranches := inr {[ "main" := true ]};
     GetCodeReferenceRepositoryBranches := answer;
     PostDeleteBranchesTask := None |}.

(** Scenario S1: a file of ten lines with matches on lines 3 and 7, found
    with one line of context. *)
Definition twoMatches : list searchResultLine :=
  [mkLine "a.go" 2 "L2" [];
   mkLine "a.go" 3 "L3" [("foo-flag", [])];
   mkLine "a.go" 4 "L4" [];
   mkLine "a.go" 6 "L6" [];
   mkLine "a.go" 7 "L7" [("foo-flag", [])];
   mkLine "a.go" 8 "L8" []].

(** The same line reported twice. *)
Definition sameLineTwice : list searchResultLine :=
  [mkLine "a.go" 3 "L3" [("foo-flag", [])];
   mkLine "a.go" 3 "L3" [("foo-flag", [])]].

(** Two results four lines apart, the second one a match. *)
Definition gapLines : list searchResultLine :=
  [mkLine "a.go" 1 "a" []; mkLine "a.go" 5 "b" [("foo-flag", [])]].

(** A file of 502 lines that all mention the flag [f]; the first line also
    mentions the flag [g]. *)
Definition longFileLines : list searchResultLine :=
  map (fun i => mkLine "big.go" (Z.of_nat (S i)) "x"
                  (if i is O then [("f", []); ("g", [])] else [("f", [])]))
      (seq 0 502).

Definition longFile : fileSearchResults :=
  {| path := "big.go"; fileSearchResultLines := longFileLines;
     flagReferenceMap := {[ "f" := seq 0 502; "g" := [0%nat] ]} |}.

(** The state of the hunk builder for [f] after 500 references, the state
    after one more, and the hunks and the log of the file. *)
Definition longFileBelow : bhState :=
  Eval vm_compute in
    default initState
      (runRefs "default" "f" longFileLines 0 (seq 0 500) initState).

Definition longFileOver : bhState :=
  Eval vm_compute in
    default initState
      (processRef "default" "f" longFileLines 0 longFileBelow 500%nat).

Definition longFileHunks : list HunkRep * list logEvent :=
  Eval vm_compute in default ([], []) (makeHunkReps longFile "default" 0).

(** The [i]-th of a series of files with 1000 lines that all mention the
    flag [f]. *)
Definition thousandMatches (i : nat) : fileSearchResults :=
  {| path := (repeatString (S i) "a" ++ ".go")%string;
     fileSearchResultLines :=
       map (fun k => mkLine (repeatString (S i) "a" ++ ".go")%string
                       (Z.of_nat (S k)) "x" [("f", [])])
           (seq 0 1000);
     flagReferenceMap := {[ "f" := seq 0 1000 ]} |}.

(** 26 such files, and what becomes of them without source lines in the
    hunks ([contextLines = -1]): 26000 hunks. *)
Definition manyFiles : list fileSearchResults :=
  map thousandMatches (seq 0 26).

Definition manyFilesReps : list ReferenceHunksRep * list logEvent :=
  Eval vm_compute in
    default ([], []) (repsLoop "default" (-1) manyFiles 0 false [] []).

(** ** More of [package coderefs] *)

(** The loop of [filterShortFlagKeys] with its two slices. *)
Fixpoint filterShortLoop (flags filteredFlags omittedFlags : list string)
  : list string * list string :=
  match flags with
  | [] => (filteredFlags, omittedFlags)
  | flag :: rest =>
    if minFlagKeyLen <=? len flag
    then filterShortLoop rest (filteredFlags ++ [flag]) omittedFlags
    else filterShortLoop rest filteredFlags (omittedFlags ++ [flag])
  end.

Definition filterShortFlagKeys (flags : list string)
  : list string * list string :=
  filterShortLoop flags [] [].

(** How the part of [Scan] that fetches the flag keys ends: the process
    exits, or the run goes on with the keys to search for; [omitted] is the
    number in the warning about omitted keys, if it is logged. *)
Inductive flagsOutcome :=
| Stop (code : Z)
| Search (filteredFlags : list string) (omitted : option Z).

(** [getFlags] hands on the answer of [ldApi.GetFlagKeyList], the list being
    [nil] with an error. *)
Definition getFlags (GetFlagKeyList : ld.error + list string)
  : ld.error + list string :=
  match GetFlagKeyList with
  | inl err => inl err
  | inr flags => inr flags
  end.

(** [Scan] from the call of [getFlags] to the warning about omitted keys;
    [fatalServiceError] always ends the process. *)
Definition scanFlags (GetFlagKeyList : ld.error + list string)
  (ignoreServiceErrors : bool) : flagsOutcome :=
  match getFlags GetFlagKeyList with
  | inl err =>
    match fatalServiceError err ignoreServiceErrors with
    | Exits code => Stop code
    | Returns => Stop 1
    end
  | inr flags =>
    if Z.of_nat (length flags) =? 0 then Stop 0
    else
      let '(filteredFlags, omittedFlags) := filterShortFlagKeys flags in
      if Z.of_nat (length filteredFlags) =? 0 then Stop 0
      else if 0 <? Z.of_nat (length omittedFlags)
           then Search filteredFlags (Some (Z.of_nat (length omittedFlags)))
           else Search filteredFlags None
  end.

(** ** Alias configurations: [package options] *)

Module aliases.

Definition AliasType := string.

Definition Literal : AliasType := "literal".
Definition CamelCase : AliasType := "camelcase".
Definition PascalCase : AliasType := "pascalcase".
Definition SnakeCase : AliasType := "snakecase".
Definition UpperSnakeCase : AliasType := "uppersnakecase".
Definition KebabCase : AliasType := "kebabcase".
Definition DotCase : AliasType := "dotcase".
Definition FilePattern : AliasType := "filepattern".
Definition Command : AliasType := "command".

(** The errors of the validation, by their messages; [InvalidPattern] holds
    the error of [regexp.Compile]. *)
Inductive error :=
| NotAValidAliasType (t : AliasType)
| MustProvideFlags
| MustProvidePaths
| MustProvidePattern
| MustContainFlagKey
| InvalidPattern (err : string)
| MustProvideCommand
| NegativeTimeout
| UnexpectedField (t : AliasType) (field : string).

Definition AliasType_IsValid (a : AliasType) : option error :=
  if existsb (String.eqb a)
       [Literal; CamelCase; PascalCase; SnakeCase; UpperSnakeCase; KebabCase;
        DotCase; FilePattern; Command]
  then None
  else Some (NotAValidAliasType a).

(** The fields of [Alias] that the validation reads; a [nil] map or pointer
    is [None]. *)
Record Alias := {
  Type_ : AliasType;
  Name : string;
  Flags : option (gmap string (list string));
  Path : option string;
  Paths : list string;
  Pattern : option string;
  Command_ : option string;
  Timeout : option Z
}.

Section Validation.
(** [regexp.Compile]: the error, if any. *)
Context (regexpCompile : string -> option string).

(** The first [switch] of [Alias.IsValid]: the expected fields. *)
Definition expectedFields (a : Alias) : option error :=
  if String.eqb (Type_ a) Literal then
    match Flags a with None => Some MustProvideFlags | Some _ => None end
  else if String.eqb (Type_ a) FilePattern then
    if (Z.of_nat (length (Paths a)) =? 0)
       && (match Path a with None => true | Some _ => false end)
    then Some MustProvidePaths
    else
      match Pattern a with
      | None => Some MustProvidePattern
      | Some p =>
        if negb (Regexp.matchLiteral "FLAG_KEY" p) then Some MustContainFlagKey
        else match regexpCompile p with
             | Some err => Some (InvalidPattern err)
             | None => None
             end
      end
  else if String.eqb (Type_ a) Command then
    match Command_ a with
    | None => Some MustProvideCommand
    | Some _ =>
      match Timeout a with
      | Some t => if t <? 0 then Some NegativeTimeout else None
      | None => None
      end
    end
  else None.

(** The second [switch], without a tag: the first case whose condition
    holds is the only one that runs. *)
Definition unexpectedField (a : Alias) : string :=
  if negb (String.eqb (Type_ a) Literal) then
    match Flags a with Some _ => "flags" | None => EmptyString end
  else if negb (String.eqb (Type_ a) FilePattern) then
    let field := if 0 <? Z.of_nat (length (Paths a)) then "paths"
                 else EmptyString in
    match Pattern a with Some _ => "pattern" | None => field end
  else if negb (String.eqb (Type_ a) Command) then
    let field := match Command_ a with
                 | Some _ => "command"
                 | None => EmptyString
                 end in
    match Timeout a with Some _ => "timeout" | None => field end
  else EmptyString.

Definition Alias_IsValid (a : Alias) : option error :=
  match AliasType_IsValid (Type_ a) with
  | Some err => Some err
  | None =>
    match expectedFields a with
    | Some err => Some err
    | None =>
      if String.eqb (unexpectedField a) EmptyString then None
      else Some (UnexpectedField (Type_ a) (unexpectedField a))
    end
  end.

(** [YamlOptions.IsValid] over [o.Aliases]. *)
Fixpoint YamlOptions_IsValid (aliases : list Alias) : option error :=
  match aliases with
  | [] => None
  | a :: rest =>
    match Alias_IsValid a with
    | Some err => Some err
    | None => YamlOptions_IsValid rest
    end
  end.

End Validation.

(** The alias types that rewrite the flag key. *)
Definition caseTypes : list AliasType :=
  [CamelCase; PascalCase; SnakeCase; UpperSnakeCase; KebabCase; DotCase].

(** A compiler that accepts every pattern. *)
Definition compileAll (p : string) : option string := None.

Definition camelWithCommand : Alias :=
  {| Type_ := CamelCase; Name := "camel"; Flags := None; Path := None;
     Paths := ["src/*.go"]; Pattern := None; Command_ := Some "gen";
     Timeout := Some (-5) |}.

Definition camelWithFlags : Alias :=
  {| Type_ := CamelCase; Name := "camel"; Flags := Some ∅; Path := None;
     Paths := []; Pattern := None; Command_ := None; Timeout := None |}.

End aliases.

(** ** More notions used in the statements *)

(** The events that the hunker logs. *)
Definition hunkerEvent (e : logEvent) : bool :=
  match e with
  | WarnFileCount _ | WarnHunkCount _ | WarnHunkedLines _ _ _
  | ErrNoHunks _ => true
  | _ => false
  end.

(** An effect on the service or the remote, as opposed to a line of the
    log. *)
Definition isCall (ev : effect) : bool :=
  match ev with
  | Log _ => false
  | _ => true
  end.

(** Two surroundings that differ at most in what the service and the remote
    answer. *)
Definition sameLocally (w w' : world) : Prop :=
  GitBranch w = GitBranch w' /\ GitSha w = GitSha w' /\
  timestamp w = timestamp w' /\ sortedRefs w = sortedRefs w' /\
  writeToCSV w = writeToCSV w'.

(** The positions of the results of a file that mention the flag. *)
Definition mentions (key : string) (lines : list searchResultLine)
  : list nat :=
  List.filter (fun i => match lines !! i with
                        | Some l => bool_decide (is_Some (FlagKeys l !! key))
                        | None => false
                        end)
              (seq 0 (length lines)).

(** Neighbours in the list of files have different paths. *)
Definition pathsDiffer (files : list fileSearchResults) : Prop :=
  forall i f1 f2, files !! i = Some f1 -> files !! S i = Some f2 ->
                  path f1 <> path f2.

(** The line numbers of a file never go down. *)
Definition lineNumsAscend (lines : list searchResultLine) : Prop :=
  forall i a b, lines !! i = Some a -> lines !! S i = Some b ->
                LineNum a <= LineNum b.

(** What [aggregateByPath] keeps for the file it is filling. *)
Definition fileInv (f : fileSearchResults) : Prop :=
  Forall (fun l => Path l = path f) (fileSearchResultLines f) /\
  lineNumsAscend (fileSearchResultLines f) /\
  forall key,
    flagReferenceMap f !! key
    = (if decide (mentions key (fileSearchResultLines f) = []) then None
       else Some (mentions key (fileSearchResultLines f))).

(** The number of lines that the hunks hold. *)
Definition totalLines (hs : list HunkRep) : Z :=
  foldr (fun h n => countNewlines (Lines h) + n) 0 hs.

(** A hunk of the flag in the project that starts at a result of the file. *)
Definition hunkOf (projKey flag : string) (lines : list searchResultLine)
  (h : HunkRep) : Prop :=
  ProjKey h = projKey /\ FlagKey h = flag /\
  exists l, l ∈ lines /\ StartingLineNumber h = LineNum l.

(** The hunk of a reference when no context is asked for. *)
Definition bareHunk (projKey flag : string) (lines : list searchResultLine)
  (ref : nat) : HunkRep :=
  {| ProjKey := projKey; FlagKey := flag;
     StartingLineNumber := lineNumAt lines ref;
     Lines := EmptyString; Aliases := [] |}.

Definition isNoHunks (e : logEvent) : bool :=
  match e with ErrNoHunks _ => true | _ => false end.

(** A search result that the hunk builder can take: its line number is not
    negative and its text can be truncated. *)
Definition hunkable (l : searchResultLine) : Prop :=
  0 <= LineNum l /\ is_Some (truncateLine (LineText l)).

(** The hunk of a reference that holds the line of the reference only. *)
Definition matchHunk (projKey flag : string) (lines : list searchResultLine)
  (ref : nat) : HunkRep :=
  match lines !! ref with
  | Some l =>
    {| ProjKey := projKey; FlagKey := flag;
       StartingLineNumber := LineNum l;
       Lines := (default EmptyString (truncateLine (LineText l))
                 ++ newline)%string;
       Aliases := Dedupe (default [] (FlagKeys l !! flag)) |}
  | None => zeroHunk
  end.

(** ** More inputs of the examples *)

Definition dryRunOptions : options.Options :=
  {| options.ProjKey := "default"; options.ContextLines := 1;
     options.UpdateSequenceId := 7;
     options.OutDir := EmptyString; options.DryRun := true;
     options.IgnoreServiceErrors := false |}.

Definition lenientOptions : options.Options :=
  {| options.ProjKey := "default"; options.ContextLines := 1;
     options.UpdateSequenceId := 7;
     options.OutDir := EmptyString; options.DryRun := false;
     options.IgnoreServiceErrors := true |}.

(** The service refuses the PUT with [err]. *)
Definition refusingWorld (err : ld.error) : world :=
  withPut (conflictWorld (inr ["main"])) (Some err).

Definition tooLargeErr : ld.error :=
  {| ld.kind := ld.EntityTooLargeErr; ld.IsTransient := false |}.
Definition transientErr : ld.error :=
  {| ld.kind := ld.OtherErr; ld.IsTransient := true |}.

(** The remote cannot be asked for its branches. *)
Definition noRemoteWorld : world :=
  {| GitBranch := "refs/heads/main"; GitSha := "0a1b2c"; timestamp := 1;
     sortedRefs := demoRefs; writeToCSV := None;
     PutCodeReferenceBranch := None;
     RemoteBranches := inl serverErr;
     GetCodeReferenceRepositoryBranches := inr ["main"];
     PostDeleteBranchesTask := None |}.

(** The service knows three branches, the remote has two of them. *)
Definition staleWorld : world :=
  {| GitBranch := "refs/heads/main"; GitSha := "0a1b2c"; timestamp := 1;
     sortedRefs := demoRefs; writeToCSV := None;
     PutCodeReferenceBranch := None;
     RemoteBranches := inr {[ "main" := true; "feature-a" := true ]};
     GetCodeReferenceRepositoryBranches :=
       inr ["main"; "feature-a"; "feature-b"];
     PostDeleteBranchesTask := None |}.


Definition threeFiles : list searchResultLine :=
  [mkLine "a.go" 3 "L3" [("foo-flag", [])];
   mkLine "a.go" 4 "L4" [];
   mkLine "a.go" 9 "L9" [("foo-flag", []); ("bar-flag", [])];
   mkLine "b.go" 1 "L1" [("bar-flag", [])];
   mkLine "a.go" 2 "L2" []].

Definition threeFilesAggregated : list fileSearchResults :=
  Eval vm_compute in
    match aggregateByPath threeFiles with Ok files => files | _ => [] end.

Definition threeFilesFirst : fileSearchResults :=
  Eval vm_compute in
    default (newFileSearchResults EmptyString) (head threeFilesAggregated).

(** A file without a flag between two files with flags, and a file without
    a flag after them. *)
Definition blankFiles : list searchResultLine :=
  [mkLine "a.go" 1 "flag('foo-flag')" [("foo-flag", [])];
   mkLine "b.go" 1 "nothing" [];
   mkLine "c.go" 7 "flag('foo-flag')" [("foo-flag", [])];
   mkLine "d.go" 1 "nothing" []].

Definition blankFilesReps : list ReferenceHunksRep * list logEvent :=
  Eval vm_compute in
    match makeReferenceHunksReps blankFiles "default" 0 with
    | Ok r => r
    | _ => ([], [])
    end.

Definition blankFirstRep : ReferenceHunksRep :=
  Eval vm_compute in
    default {| RepPath := EmptyString; Hunks := [] |}
            (head (fst blankFilesReps)).

Definition blankFirstHunk : HunkRep :=
  Eval vm_compute in default zeroHunk (head (Hunks blankFirstRep)).

Definition noContextOptions : options.Options :=
  {| options.ProjKey := "default"; options.ContextLines := -1;
     options.UpdateSequenceId := -1;
     options.OutDir := EmptyString; options.DryRun := false;
     options.IgnoreServiceErrors := false |}.

Definition noContextBranch : ld.BranchRep :=
  Eval vm_compute in
    match makeReferenceHunksReps demoRefs "default" (-1) with
    | Ok (refs, _) =>
      {| ld.Name := "main"; ld.Head := "0a1b2c"; ld.UpdateSequenceId := None;
         ld.SyncTime := 1; ld.References := refs |}
    | _ => {| ld.Name := EmptyString; ld.Head := EmptyString;
              ld.UpdateSequenceId := None; ld.SyncTime := 0;
              ld.References := [] |}
    end.

(** ** Notions of the order of the results and of the files reported *)

(** The result at [j] has a line number below the one of the result that
    was added last before it for its path. *)
Definition belowPreviousAt (g : list searchResultLine) (j : nat) : Prop :=
  exists i a b,
    (i < j)%nat /\ g !! i = Some a /\ g !! j = Some b /\
    Path a = Path b /\
    (forall k c, (i < k < j)%nat -> g !! k = Some c -> Path c <> Path b) /\
    LineNum b < LineNum a.

(** The results of one path stand next to each other. *)
Definition pathsAdjacent (g : list searchResultLine) : Prop :=
  forall i k j a c b,
    (i < k < j)%nat ->
    g !! i = Some a -> g !! k = Some c -> g !! j = Some b ->
    Path a = Path b -> Path c = Path b.

(** The report of a file: its path and the hunks made for it. *)
Definition reportOf (projKey : string) (ctxLines : Z)
  (fsr : fileSearchResults) (rep : ReferenceHunksRep) : Prop :=
  RepPath rep = path fsr /\
  exists l, makeHunkReps fsr projKey ctxLines = Some (Hunks rep, l).

Definition noHunks (rep : ReferenceHunksRep) : bool :=
  match Hunks rep with [] => true | _ :: _ => false end.

(** The reports without the first one that has no hunk. *)
Fixpoint dropFirstEmpty (all : list ReferenceHunksRep)
  : list ReferenceHunksRep :=
  match all with
  | [] => []
  | rep :: rest => if noHunks rep then rest else rep :: dropFirstEmpty rest
  end.

(** The error about the first report that has no hunk. *)
Definition firstEmptyError (all : list ReferenceHunksRep) : list logEvent :=
  match List.find noHunks all with
  | Some rep => [ErrNoHunks (RepPath rep)]
  | None => []
  end.


(** * Properties *)

(** ** Truncation *)

Lemma byteOf_byteZ c : Utf8.byteOf (Utf8.byteZ c) = c.
Proof.
  unfold Utf8.byteOf, Utf8.byteZ. rewrite N2Z.id. apply ascii_N_embedding.
Qed.

Lemma byteZ_range c : 0 <= Utf8.byteZ c < 256.
Proof.
  unfold Utf8.byteZ. pose proof (N_ascii_bounded c). lia.
Qed.

Lemma byteZ_byteOf z : 0 <= z < 256 -> Utf8.byteZ (Utf8.byteOf z) = z.
Proof.
  intros Hz. unfold Utf8.byteOf, Utf8.byteZ.
  rewrite N_ascii_embedding by lia. lia.
Qed.

Lemma runes_cons_ascii c s :
  Utf8.byteZ c < 128 -> Utf8.runes (String c s) = Utf8.byteZ c :: Utf8.runes s.
Proof.
  intros Hc. cbn [Utf8.runes].
  destruct (Z.ltb_spec (Utf8.byteZ c) 128); [reflexivity | lia].
Qed.

Lemma encodeRune_ascii c :
  Utf8.byteZ c < 128 -> Utf8.encodeRune (Utf8.byteZ c) = String c EmptyString.
Proof.
  intros Hc. pose proof (byteZ_range c) as Hr. unfold Utf8.encodeRune.
  destruct (Z.leb_spec 0 (Utf8.byteZ c)); [| lia].
  destruct (Z.leb_spec (Utf8.byteZ c) 127); [| lia].
  cbn [andb]. unfold Utf8.str1. by rewrite byteOf_byteZ.
Qed.

Lemma length_runes_ascii s :
  asciiOnly s = true -> length (Utf8.runes s) = String.length s.
Proof.
  induction s as [| c s IH]; [reflexivity |].
  cbn [asciiOnly]. intros [Hc Hs]%andb_true_iff. apply Z.ltb_lt in Hc.
  rewrite runes_cons_ascii by done. cbn. by rewrite IH.
Qed.

Lemma encode_take_ascii s n :
  asciiOnly s = true ->
  Utf8.encodeRunes (take n (Utf8.runes s)) = takeBytes n s.
Proof.
  revert n. induction s as [| c s IH]; intros n.
  - by destruct n.
  - cbn [asciiOnly]. intros [Hc Hs]%andb_true_iff. apply Z.ltb_lt in Hc.
    rewrite runes_cons_ascii by done. destruct n as [| n]; [reflexivity |].
    cbn [take Utf8.encodeRunes takeBytes].
    rewrite encodeRune_ascii by done. cbn. by rewrite IH.
Qed.

Lemma string_app_assoc (a b c : string) :
  ((a ++ b) ++ c)%string = (a ++ (b ++ c))%string.
Proof.
  induction a as [| x a IH]; [reflexivity |].
  change (String x ((a ++ b) ++ c) = String x (a ++ (b ++ c)))%string.
  by f_equal.
Qed.

Lemma string_app_nil_r (a : string) : (a ++ EmptyString)%string = a.
Proof.
  induction a as [| x a IH]; [reflexivity |].
  change (String x (a ++ EmptyString) = String x a)%string. by f_equal.
Qed.

Lemma encodeRunes_app rs1 rs2 :
  Utf8.encodeRunes (rs1 ++ rs2)
  = (Utf8.encodeRunes rs1 ++ Utf8.encodeRunes rs2)%string.
Proof.
  induction rs1 as [| r rs1 IH]; [reflexivity |].
  change (Utf8.encodeRunes ((r :: rs1) ++ rs2))
    with (Utf8.encodeRune r ++ Utf8.encodeRunes (rs1 ++ rs2))%string.
  rewrite IH. symmetry. apply string_app_assoc.
Qed.

Lemma truncateLine_short line :
  len line <= maxLineCharCount -> truncateLine line = Some line.
Proof.
  intros H. unfold truncateLine.
  destruct (Z.ltb_spec maxLineCharCount (len line)); [lia | reflexivity].
Qed.

Lemma truncateLine_long line :
  maxLineCharCount < len line ->
  maxLineCharCount <= Z.of_nat (length (Utf8.runes line)) ->
  truncateLine line
  = Some (Utf8.encodeRunes (take 500 (Utf8.runes line)) ++ ellipsis)%string.
Proof.
  intros H1 H2. unfold truncateLine, sliceTo.
  destruct (Z.ltb_spec maxLineCharCount (len line)); [| lia].
  destruct (Z.leb_spec maxLineCharCount (Z.of_nat (length (Utf8.runes line))));
    [| lia].
  reflexivity.
Qed.

(** C4, as the code has it: a line of at most 500 bytes is returned
    unchanged; a longer line that holds at least 500 characters is cut after
    its first 500 characters (not bytes) and gets the ellipsis.  What is kept
    is a prefix of the line when the line is well-formed UTF-8, and it is
    exactly the 500-byte prefix when all characters are single bytes. *)
Theorem truncateLine_first_500_runes (line : string)
  (Hlen : len line <= maxLineCharCount
          \/ maxLineCharCount <= Z.of_nat (length (Utf8.runes line))) :
  (len line <= maxLineCharCount -> truncateLine line = Some line) /\
  (maxLineCharCount < len line ->
   let kept := Utf8.encodeRunes (take 500 (Utf8.runes line)) in
   truncateLine line = Some (kept ++ ellipsis)%string /\
   (validUtf8 line -> exists rest, line = (kept ++ rest)%string) /\
   (asciiOnly line = true -> kept = takeBytes 500 line)).
Proof.
  split; [apply truncateLine_short |].
  intros Hlong kept. destruct Hlen as [Hlen | Hlen]; [lia |].
  split; [by apply truncateLine_long |]. split.
  - intros Hvalid. exists (Utf8.encodeRunes (drop 500 (Utf8.runes line))).
    subst kept. rewrite <- encodeRunes_app, take_drop. by symmetry.
  - intros Hascii. subst kept. by apply encode_take_ascii.
Qed.

Lemma truncateLine_first_500_runes_witness :
  maxLineCharCount < len twoByteLine /\
  validUtf8 twoByteLine /\
  exists rest,
    twoByteLine
    = (Utf8.encodeRunes (take 500 (Utf8.runes twoByteLine)) ++ rest)%string.
Proof.
  assert (Hlong : maxLineCharCount < len twoByteLine) by (vm_compute; reflexivity).
  assert (Hvalid : validUtf8 twoByteLine) by (vm_compute; reflexivity).
  split; [exact Hlong |]. split; [exact Hvalid |].
  refine (proj1 (proj2 (proj2 (truncateLine_first_500_runes twoByteLine _)
                              Hlong)) Hvalid).
  right. vm_compute. discriminate.
Defined.

(** C4 as stated fails: a line of 501 two-byte characters has 1002 bytes;
    what is kept of it is 500 characters, that is 1000 bytes, and not its
    500-byte prefix. *)
Lemma truncateLine_not_500_bytes :
  maxLineCharCount < len twoByteLine /\
  truncateLine twoByteLine
  <> Some (takeBytes 500 twoByteLine ++ ellipsis)%string.
Proof.
  split; [vm_compute; reflexivity |].
  intros H. apply (f_equal (fun o => len (default EmptyString o))) in H.
  vm_compute in H. discriminate.
Qed.

(** ** Aggregation: the order of the search results *)

Lemma addFlagReferences_fields (m : gmap string (list string)) elem fsr :
  let fsr' := map_fold (fun flagKey _ fsr => addFlagReference flagKey elem fsr)
                       fsr m in
  path fsr' = path fsr /\
  fileSearchResultLines fsr' = fileSearchResultLines fsr.
Proof.
  cbn. apply (map_fold_weak_ind
    (fun (r : fileSearchResults) (_ : gmap string (list string)) =>
       path r = path fsr /\
       fileSearchResultLines r = fileSearchResultLines fsr)); [done |].
  intros k x m' r _ [IH1 IH2]. done.
Qed.

Lemma addSearchResult_cases fsr l :
  (exists prev, last (fileSearchResultLines fsr) = Some prev /\
                LineNum l < LineNum prev /\
                addSearchResult fsr l = Fatalf outOfOrder) \/
  ((forall prev, last (fileSearchResultLines fsr) = Some prev ->
                 LineNum prev <= LineNum l) /\
   exists fsr', addSearchResult fsr l
                = Ok (fsr', length (fileSearchResultLines fsr)) /\
     path fsr' = path fsr /\
     fileSearchResultLines fsr' = fileSearchResultLines fsr ++ [l] /\
     flagReferenceMap fsr' = flagReferenceMap fsr).
Proof.
  unfold addSearchResult.
  destruct (last (fileSearchResultLines fsr)) as [prev |] eqn:Hlast.
  - destruct (Z.ltb_spec (LineNum l) (LineNum prev)).
    + left. by exists prev.
    + right. split; [intros ? [= <-]; lia |]. eauto.
  - right. split; [done |]. eauto.
Qed.

Lemma outOfOrderAt_S b g i : outOfOrderAt (b :: g) (S i) <-> outOfOrderAt g i.
Proof. done. Qed.

Lemma outOfOrderAt_0 b g :
  outOfOrderAt (b :: g) 0
  <-> exists b', head g = Some b' /\ Path b = Path b' /\ LineNum b' < LineNum b.
Proof.
  unfold outOfOrderAt. split.
  - intros (a & b' & [= <-] & H2 & H3 & H4). exists b'.
    destruct g; naive_solver.
  - intros (b' & H1 & H2 & H3). exists b, b'. destruct g; naive_solver.
Qed.

(** What the loop finds wrong: the next result lies below the last one of
    the current file, or two later neighbours are out of order. *)
Lemma outOfOrder_cons b g :
  (exists i, outOfOrderAt (b :: g) i) <->
  (exists b0, head g = Some b0 /\ Path b = Path b0 /\ LineNum b0 < LineNum b)
  \/ exists i, outOfOrderAt g i.
Proof.
  split.
  - intros [[| i] Hi].
    + left. by apply outOfOrderAt_0.
    + right. exists i. by apply outOfOrderAt_S in Hi.
  - intros [H0 | [i Hi]].
    + exists 0%nat. by apply outOfOrderAt_0.
    + exists (S i). by apply outOfOrderAt_S.
Qed.

Lemma aggregateLoop_spec g : forall all cur,
  (forall p, last (fileSearchResultLines cur) = Some p -> Path p = path cur) ->
  let bad :=
    (exists b p, head g = Some b /\ last (fileSearchResultLines cur) = Some p /\
                 Path p = Path b /\ LineNum b < LineNum p) \/
    exists i, outOfOrderAt g i in
  (bad -> aggregateLoop g all cur = Fatalf outOfOrder) /\
  (~ bad -> exists files, aggregateLoop g all cur = Ok files).
Proof.
  induction g as [| b g IH]; intros all cur Hcur bad.
  { split.
    - intros [(b & p & [=] & _) | [i (a & b & [=] & _)]].
    - intros _. eexists. reflexivity. }
  (* once [b] is pushed, the rest of the loop sees it as the last result *)
  assert (Hrest : forall all1 cur1 fsr',
    path fsr' = Path b ->
    fileSearchResultLines fsr' = fileSearchResultLines cur1 ++ [b] ->
    let cur3 := map_fold (fun flagKey _ fsr =>
                            addFlagReference flagKey
                              (length (fileSearchResultLines cur1)) fsr)
                         fsr' (FlagKeys b) in
    ((exists i, outOfOrderAt (b :: g) i) ->
     aggregateLoop g all1 cur3 = Fatalf outOfOrder) /\
    (~ (exists i, outOfOrderAt (b :: g) i) ->
     exists files, aggregateLoop g all1 cur3 = Ok files)).
  { intros all1 cur1 fsr' Hp Hls cur3.
    destruct (addFlagReferences_fields (FlagKeys b)
                (length (fileSearchResultLines cur1)) fsr') as [Hp' Hl'].
    fold cur3 in Hp', Hl'.
    assert (Hlast3 : last (fileSearchResultLines cur3) = Some b)
      by (rewrite Hl', Hls; apply last_snoc).
    destruct (IH all1 cur3) as [IHbad IHok].
    { intros p. rewrite Hlast3. intros [= <-]. congruence. }
    rewrite outOfOrder_cons. split.
    - intros [(b0 & Hh & Hpp & Hlt) | Hi]; apply IHbad; [left | by right].
      by exists b0, b.
    - intros Hn. apply IHok. intros [(b0 & p & Hh & Hl0 & Hpp & Hlt) | Hi];
        apply Hn; [left | by right].
      rewrite Hlast3 in Hl0. injection Hl0 as <-. by exists b0. }
  cbn [aggregateLoop].
  destruct (decide (Path b = path cur)) as [Hsame | Hnew].
  - destruct (addSearchResult_cases cur b)
      as [(prev & Hl & Hlt & ->) | (Hle & fsr' & -> & Hp & Hls & Hm)].
    + split; [done |]. intros Hn. exfalso. apply Hn. left.
      exists b, prev. repeat split; try done. by rewrite (Hcur _ Hl).
    + destruct (Hrest all cur fsr') as [Hbad Hok]; [congruence | done |].
      split.
      * intros [(b0 & p & [= <-] & Hl0 & _ & Hlt) | Hi]; [| by apply Hbad].
        specialize (Hle _ Hl0). lia.
      * intros Hn. apply Hok. intros Hi. apply Hn. by right.
  - destruct (addSearchResult_cases (newFileSearchResults (Path b)) b)
      as [(prev & [=] & _) | (_ & fsr' & -> & Hp & Hls & Hm)].
    destruct (Hrest (all ++ [cur]) (newFileSearchResults (Path b)) fsr')
      as [Hbad Hok]; [done | done |].
    split.
    + intros [(b0 & p & [= <-] & Hl0 & Hpp & Hlt) | Hi]; [| by apply Hbad].
      exfalso. apply Hnew. rewrite <- Hpp. by apply Hcur.
    + intros Hn. apply Hok. intros Hi. apply Hn. by right.
Qed.

(** Where the results of one path stand next to each other, the result
    added last for a path is the neighbour before. *)
Lemma belowPrevious_outOfOrder g :
  ((exists i, outOfOrderAt g i) -> exists j, belowPreviousAt g j) /\
  (pathsAdjacent g ->
   (exists j, belowPreviousAt g j) -> exists i, outOfOrderAt g i).
Proof.
  split.
  - intros [i (a & b & Ha & Hb & Hp & Hlt)]. exists (S i), i, a, b.
    repeat split; try done; [lia |]. intros k c Hk. lia.
  - intros Hadj [j (i & a & b & Hij & Ha & Hb & Hp & Hbetween & Hlt)].
    destruct (decide (j = S i)) as [-> | Hne].
    { exists i, a, b. done. }
    exfalso.
    destruct (lookup_lt_is_Some_2 g (S i)) as [c Hc].
    { apply lookup_lt_Some in Hb. lia. }
    apply (Hbetween (S i) c); [lia | done |].
    apply (Hadj i (S i) j a c b); [lia | done | done | done | done].
Qed.

(** C8, as the code has it: a result whose line number is below the one
    added before it to the same file ends the run in [Fatalf]; an equal or
    a larger line number is accepted.  Over a whole sequence a new file is
    begun whenever the path changes, so the aggregation is fatal exactly
    when two neighbours of one path go down, and then the run exits with 1.
    Where the results of each path stand next to each other, that is
    exactly when a result lies below the one added last for its path. *)
Theorem addSearchResult_out_of_order :
  (forall fsr l prev,
     last (fileSearchResultLines fsr) = Some prev ->
     (LineNum l < LineNum prev -> addSearchResult fsr l = Fatalf outOfOrder) /\
     (LineNum prev <= LineNum l ->
      exists fsr', addSearchResult fsr l
                   = Ok (fsr', length (fileSearchResultLines fsr)) /\
        fileSearchResultLines fsr' = fileSearchResultLines fsr ++ [l])) /\
  (forall g,
     ((exists i, outOfOrderAt g i) -> aggregateByPath g = Fatalf outOfOrder) /\
     (~ (exists i, outOfOrderAt g i) -> exists files, aggregateByPath g = Ok files)) /\
  (forall opts w,
     (exists i, outOfOrderAt (sortedRefs w) i) -> Scan opts w = (Exits 1, [])) /\
  (forall g, pathsAdjacent g ->
     ((exists j, belowPreviousAt g j) ->
      aggregateByPath g = Fatalf outOfOrder) /\
     (~ (exists j, belowPreviousAt g j) ->
      exists files, aggregateByPath g = Ok files)).
Proof.
  assert (Hagg : forall g,
     ((exists i, outOfOrderAt g i) -> aggregateByPath g = Fatalf outOfOrder) /\
     (~ (exists i, outOfOrderAt g i) ->
      exists files, aggregateByPath g = Ok files)).
  { intros [| first g].
    - split; [intros [i (a & b & [=] & _)] | by eexists].
    - unfold aggregateByPath.
      destruct (aggregateLoop_spec (first :: g) []
                  (newFileSearchResults (Path first))) as [Hbad Hok];
        [done |].
      split.
      + intros Hi. apply Hbad. by right.
      + intros Hn. apply Hok. intros [(b & p & _ & [=] & _) | Hi]. by apply Hn. }
  split; [| split; [exact Hagg |]; split].
  - intros fsr l prev Hlast.
    destruct (addSearchResult_cases fsr l)
      as [(prev' & Hl & Hlt & ->) | (Hle & fsr' & -> & _ & Hls & _)].
    + split; [done |]. rewrite Hlast in Hl. injection Hl as <-. lia.
    + split; [specialize (Hle _ Hlast); lia |]. eauto.
  - intros opts w Hbad. unfold Scan, makeBranchRep, makeReferenceHunksReps.
    cbn [SearchResults]. by rewrite (proj1 (Hagg _) Hbad).
  - intros g Hadj. destruct (Hagg g) as [Hbad Hok].
    destruct (belowPrevious_outOfOrder g) as [Hto Hfrom]. split.
    + intros Hj. apply Hbad. by apply Hfrom.
    + intros Hn. apply Hok. intros Hi. apply Hn. by apply Hto.
Qed.

(** C8 as stated fails where a path comes back after another one: the last
    result of [threeFiles] has the path of the first three and a line
    number below theirs, and the sequence is accepted, as two files of
    that path. *)
Lemma aggregateByPath_accepts_line_below_earlier :
  belowPreviousAt threeFiles 4 /\
  aggregateByPath threeFiles = Ok threeFilesAggregated /\
  map path threeFilesAggregated = ["a.go"; "b.go"; "a.go"].
Proof.
  split; [| split; reflexivity].
  exists 2%nat, (mkLine "a.go" 9 "L9" [("foo-flag", []); ("bar-flag", [])]),
         (mkLine "a.go" 2 "L2" []).
  split; [lia |]. split; [reflexivity |]. split; [reflexivity |].
  split; [reflexivity |]. split; [| cbn; lia].
  intros k c Hk Hc. assert (k = 3%nat) as -> by lia.
  injection Hc as <-. discriminate.
Qed.

(** ** The submission of the branch *)

Lemma Scan_cases opts w :
  (exists branchRep l,
     makeBranchRep
       {| Name := GitBranch w; UpdateSequenceId := updateIdOf opts;
          SyncTime := timestamp w; Head := GitSha w;
          SearchResults := sortedRefs w |}
       (options.ProjKey opts) (options.ContextLines opts)
     = Ok (branchRep, l) /\
     ld.UpdateSequenceId branchRep = updateIdOf opts /\
     ((exists code, Scan opts w = (Exits code, map Log l)) \/
      Scan opts w = (Returns, map Log l) \/
      Scan opts w
      = (fst (submit opts w
                {| Name := GitBranch w; UpdateSequenceId := updateIdOf opts;
                   SyncTime := timestamp w; Head := GitSha w;
                   SearchResults := sortedRefs w |} branchRep),
         map Log l ++
         snd (submit opts w
                {| Name := GitBranch w; UpdateSequenceId := updateIdOf opts;
                   SyncTime := timestamp w; Head := GitSha w;
                   SearchResults := sortedRefs w |} branchRep)))) \/
  (exists code, Scan opts w = (Exits code, [])).
Proof.
  unfold Scan.
  destruct (makeBranchRep _ _ _) as [[branchRep l] | m |] eqn:Hrep;
    [| right; eauto | right; eauto].
  left. exists branchRep, l. split; [done |]. split.
  { unfold makeBranchRep in Hrep.
    destruct (makeReferenceHunksReps _ _ _) as [[refs l'] | |]; [| done | done].
    by injection Hrep as <- _. }
  destruct (if decide _ then _ else _) as [e |]; [eauto |].
  destruct (options.DryRun opts); [eauto |].
  right. right. by destruct (submit _ _ _ _).
Qed.

Lemma not_put_in_log br (l : list logEvent) : PutBranch br ∉ map Log l.
Proof. intros (e & [=] & _)%list_elem_of_fmap. Qed.

Lemma prune_effects opts w :
  exists done, snd (prune opts w) = Log InfoPrune :: ListRemoteBranches :: done /\
               forall br, PutBranch br ∉ done.
Proof.
  unfold prune, deleteStaleBranches.
  destruct (RemoteBranches w) as [e | remote].
  { eexists. split; [reflexivity |]. intros br. set_solver. }
  destruct (GetCodeReferenceRepositoryBranches w) as [e | branches].
  { eexists. split; [reflexivity |]. intros br. set_solver. }
  destruct (0 <? _).
  - eexists. split; [reflexivity |]. intros br. set_solver.
  - eexists. split; [reflexivity |]. intros br. set_solver.
Qed.

Lemma submit_puts opts w b branchRep br :
  PutBranch br ∈ snd (submit opts w b branchRep) -> br = branchRep.
Proof.
  destruct (prune_effects opts w) as (done & Hdone & Hno).
  unfold submit. destruct (prune opts w) as [e tr]. cbn in Hdone. subst tr.
  destruct (PutCodeReferenceBranch w) as [err |].
  - destruct (ld.kind err); cbn [snd].
    + destruct (UpdateSequenceId b); specialize (Hno br); set_solver.
    + set_solver.
    + set_solver.
  - cbn [snd]. specialize (Hno br). set_solver.
Qed.

(** C10: the branch that is submitted carries an updateSequenceId exactly
    when the configured value is at least 0, and then it is that value. *)
Theorem Scan_updateSequenceId_iff_nonneg opts w br
  (Hput : PutBranch br ∈ snd (Scan opts w)) :
  (is_Some (ld.UpdateSequenceId br) <-> 0 <= options.UpdateSequenceId opts) /\
  (forall id, ld.UpdateSequenceId br = Some id ->
              id = options.UpdateSequenceId opts).
Proof.
  assert (Hid : ld.UpdateSequenceId br = updateIdOf opts).
  { destruct (Scan_cases opts w)
      as [(branchRep & l & _ & Hrep & [[c H] | [H | H]]) | [c H]];
      rewrite H in Hput; cbn [snd] in Hput.
    - by apply not_put_in_log in Hput.
    - by apply not_put_in_log in Hput.
    - apply elem_of_app in Hput as [Hput | Hput].
      + by apply not_put_in_log in Hput.
      + apply submit_puts in Hput. by subst br.
    - by apply elem_of_nil in Hput. }
  rewrite Hid. unfold updateIdOf.
  destruct (Z.leb_spec 0 (options.UpdateSequenceId opts)).
  - split; [split; [done | by eexists] | by intros id [= <-]].
  - split; [split; [by intros [? [=]] | lia] | by intros id [=]].
Qed.

Lemma Scan_updateSequenceId_iff_nonneg_witness :
  exists br,
    PutBranch br ∈ snd (Scan (demoOptions 0) (conflictWorld (inr ["main"]))) /\
    ld.UpdateSequenceId br = Some 0.
Proof.
  eexists. split; [vm_compute; left |].
  match goal with
  | |- ld.UpdateSequenceId ?b = _ =>
    pose proof (Scan_updateSequenceId_iff_nonneg (demoOptions 0)
                  (conflictWorld (inr ["main"])) b) as H
  end.
  destruct H as [[_ H] _]; [vm_compute; left | reflexivity].
Defined.

Lemma prune_withPut opts w answer : prune opts (withPut w answer) = prune opts w.
Proof. reflexivity. Qed.

(** C5, as the code has it: the conflict on the PUT of the branch is not an
    error of the run.  The run ends as the run with a successful PUT ends and
    does all that this one does, the pruning included; its end is the end of
    the pruning phase, which is fatal when marking the stale branches fails;
    the warning is logged when an updateSequenceId was configured. *)
Theorem Scan_conflict_as_success opts w err
  (Hput : PutCodeReferenceBranch w = Some err)
  (Hkind : ld.kind err = ld.BranchUpdateSequenceIdConflictErr) :
  fst (Scan opts w) = fst (Scan opts (withPut w None)) /\
  (forall ev, ev ∈ snd (Scan opts (withPut w None)) -> ev ∈ snd (Scan opts w)) /\
  (forall br, PutBranch br ∈ snd (Scan opts w) ->
     fst (Scan opts w) = fst (prune opts w) /\
     Log InfoPrune ∈ snd (Scan opts w) /\
     ListRemoteBranches ∈ snd (Scan opts w) /\
     (0 <= options.UpdateSequenceId opts ->
      Log (WarnUpdateSequenceId (options.UpdateSequenceId opts))
      ∈ snd (Scan opts w))).
Proof.
  destruct (prune_effects opts w) as (done & Hdone & Hno).
  unfold Scan. cbn [withPut GitBranch GitSha timestamp sortedRefs writeToCSV].
  assert (Hnil : forall br : ld.BranchRep, PutBranch br ∉ @nil effect)
    by (intros br; apply not_elem_of_nil).
  destruct (makeBranchRep _ _ _) as [[branchRep l] | m |];
    [| split; [done | split; [done | by intros br ?%Hnil]]
     | split; [done | split; [done | by intros br ?%Hnil]]].
  destruct (if decide _ then _ else _) as [e |].
  { split; [done | split; [done | by intros br ?%not_put_in_log]]. }
  destruct (options.DryRun opts).
  { split; [done | split; [done | by intros br ?%not_put_in_log]]. }
  unfold submit. cbn [withPut PutCodeReferenceBranch UpdateSequenceId].
  rewrite Hput, Hkind, prune_withPut.
  destruct (prune opts w) as [e tr]. cbn [fst snd] in *. subst tr.
  split; [done |]. split.
  { intros ev. destruct (updateIdOf opts); set_solver. }
  intros br _. split; [done |].
  split; [destruct (updateIdOf opts); set_solver |].
  split; [destruct (updateIdOf opts); set_solver |].
  intros Hid. unfold updateIdOf.
  destruct (Z.leb_spec 0 (options.UpdateSequenceId opts)); [| lia].
  set_solver.
Qed.

Lemma Scan_conflict_as_success_witness :
  fst (Scan (demoOptions 5) (conflictWorld (inr ["main"; "gone"])))
  = fst (Scan (demoOptions 5)
           (withPut (conflictWorld (inr ["main"; "gone"])) None)) /\
  fst (Scan (demoOptions 5) (conflictWorld (inr ["main"; "gone"]))) = Returns.
Proof.
  split; [| vm_compute; reflexivity].
  exact (proj1 (Scan_conflict_as_success (demoOptions 5)
                  (conflictWorld (inr ["main"; "gone"])) conflictErr
                  eq_refl eq_refl)).
Defined.

(** C5 as stated fails.  With the conflict on the PUT and an error of the
    service when the branches to prune are listed, the run ends with status 1;
    and without a configured updateSequenceId no warning is logged. *)
Lemma Scan_conflict_not_always_0 :
  PutCodeReferenceBranch (conflictWorld (inl serverErr)) = Some conflictErr /\
  Scan (demoOptions 5) (conflictWorld (inl serverErr))
  = (Exits 1,
     [PutBranch {| ld.Name := "main"; ld.Head := "0a1b2c";
                   ld.UpdateSequenceId := Some 5; ld.SyncTime := 1;
                   ld.References :=
                     [{| RepPath := "a.go";
                         Hunks := [{| ProjKey := "default";
                                      FlagKey := "foo-flag";
                                      StartingLineNumber := 2;
                                      Lines := "L2
L3
L4
";
                                      Aliases := [] |}] |}] |};
      Log (WarnUpdateSequenceId 5); Log InfoPrune; ListRemoteBranches;
      ListRepositoryBranches]) /\
  forall id,
    Log (WarnUpdateSequenceId id)
    ∉ snd (Scan (demoOptions (-1)) (conflictWorld (inr ["main"]))).
Proof.
  split; [reflexivity |]. split; [vm_compute; reflexivity |].
  intros id. vm_compute. intros H.
  repeat (apply elem_of_cons in H as [H | H]; [discriminate H |]).
  by apply elem_of_nil in H.
Qed.

(** ** The search for referenced flags *)

Lemma hasPrefix_spec p s :
  Regexp.hasPrefix p s = true <-> exists post, s = (p ++ post)%string.
Proof.
  revert s. induction p as [| a p IH]; intros s.
  - split; [intros _; by exists s | done].
  - destruct s as [| b s]; cbn [Regexp.hasPrefix].
    + split; [done | intros [post [=]]].
    + rewrite andb_true_iff, Ascii.eqb_eq, IH. split.
      * intros [-> [post ->]]. by exists post.
      * intros [post [= -> ->]]. eauto.
Qed.

Lemma matchLiteral_spec term ref :
  Regexp.matchLiteral term ref = true <-> occursIn term ref.
Proof.
  unfold occursIn. induction ref as [| c ref IH].
  - cbn [Regexp.matchLiteral]. rewrite orb_false_r, hasPrefix_spec. split.
    + intros [post H]. by exists EmptyString, post.
    + intros ([| ? ?] & post & H); [by exists post | done].
  - cbn [Regexp.matchLiteral]. rewrite orb_true_iff, hasPrefix_spec, IH. split.
    + intros [[post H] | (pre & post & H)].
      * by exists EmptyString, post.
      * exists (String c pre), post. cbn. by rewrite H.
    + intros ([| c' pre] & post & H).
      * left. by exists post.
      * right. injection H as -> H. eauto.
Qed.

Ltac encode_decoded Hlen Hacc :=
  unfold Utf8.inAccept, Utf8.isCont, Utf8.acceptLo, Utf8.acceptHi in Hacc;
  unfold Utf8.seqLen in Hlen;
  repeat match type of Hlen with
         | context [if ?b then _ else _] =>
           destruct b eqn:?; try discriminate Hlen
         end;
  repeat match type of Hacc with
         | context [?x =? ?y] => destruct (Z.eqb_spec x y)
         end;
  try lia;
  repeat match goal with
         | H : (_ && _) = true |- _ => apply andb_true_iff in H as [? ?]
         | H : (_ <=? _) = true |- _ => apply Z.leb_le in H
         | H : (_ && _) = false |- _ =>
           apply andb_false_iff in H as [?%Z.leb_gt | ?%Z.leb_gt]
         end;
  unfold Utf8.encodeRune, Utf8.rune2, Utf8.rune3, Utf8.rune4, Utf8.MaxRune;
  repeat match goal with
         | |- context [?x <=? ?y] =>
           destruct (Z.leb_spec x y);
           try (exfalso; Z.div_mod_to_equations; lia)
         | |- context [?x <? ?y] =>
           destruct (Z.ltb_spec x y);
           try (exfalso; Z.div_mod_to_equations; lia)
         end;
  cbn [andb orb];
  unfold Utf8.str4, Utf8.str3, Utf8.str2, Utf8.str1;
  repeat f_equal; Z.div_mod_to_equations; lia.

Lemma encodeRune_rune2 c0 c1 :
  Utf8.seqLen (Utf8.byteZ c0) = 2%nat ->
  Utf8.inAccept (Utf8.byteZ c0) c1 = true ->
  Utf8.encodeRune (Utf8.rune2 (Utf8.byteZ c0) (Utf8.byteZ c1))
  = String c0 (String c1 EmptyString).
Proof.
  intros Hlen Hacc. unfold Utf8.inAccept, Utf8.isCont in Hacc.
  rewrite <- (byteOf_byteZ c0) at 2. rewrite <- (byteOf_byteZ c1) at 2.
  pose proof (byteZ_range c0). pose proof (byteZ_range c1).
  set (b0 := Utf8.byteZ c0) in *. set (b1 := Utf8.byteZ c1) in *.
  clearbody b0 b1. encode_decoded Hlen Hacc.
Qed.

Lemma encodeRune_rune3 c0 c1 c2 :
  Utf8.seqLen (Utf8.byteZ c0) = 3%nat ->
  Utf8.inAccept (Utf8.byteZ c0) c1 && Utf8.isCont c2 = true ->
  Utf8.encodeRune (Utf8.rune3 (Utf8.byteZ c0) (Utf8.byteZ c1) (Utf8.byteZ c2))
  = String c0 (String c1 (String c2 EmptyString)).
Proof.
  intros Hlen Hacc. unfold Utf8.inAccept, Utf8.isCont in Hacc.
  rewrite <- (byteOf_byteZ c0) at 2. rewrite <- (byteOf_byteZ c1) at 2.
  rewrite <- (byteOf_byteZ c2) at 2.
  pose proof (byteZ_range c0). pose proof (byteZ_range c1).
  pose proof (byteZ_range c2).
  set (b0 := Utf8.byteZ c0) in *. set (b1 := Utf8.byteZ c1) in *.
  set (b2 := Utf8.byteZ c2) in *.
  clearbody b0 b1 b2. encode_decoded Hlen Hacc.
Qed.

Lemma encodeRune_rune4 c0 c1 c2 c3 :
  Utf8.seqLen (Utf8.byteZ c0) = 4%nat ->
  Utf8.inAccept (Utf8.byteZ c0) c1 && Utf8.isCont c2 && Utf8.isCont c3 = true ->
  Utf8.encodeRune
    (Utf8.rune4 (Utf8.byteZ c0) (Utf8.byteZ c1) (Utf8.byteZ c2) (Utf8.byteZ c3))
  = String c0 (String c1 (String c2 (String c3 EmptyString))).
Proof.
  intros Hlen Hacc. unfold Utf8.inAccept, Utf8.isCont in Hacc.
  rewrite <- (byteOf_byteZ c0) at 2. rewrite <- (byteOf_byteZ c1) at 2.
  rewrite <- (byteOf_byteZ c2) at 2. rewrite <- (byteOf_byteZ c3) at 2.
  pose proof (byteZ_range c0). pose proof (byteZ_range c1).
  pose proof (byteZ_range c2). pose proof (byteZ_range c3).
  set (b0 := Utf8.byteZ c0) in *. set (b1 := Utf8.byteZ c1) in *.
  set (b2 := Utf8.byteZ c2) in *. set (b3 := Utf8.byteZ c3) in *.
  clearbody b0 b1 b2 b3. encode_decoded Hlen Hacc.
Qed.

(** The first rune of a string stands for a chunk of its bytes, which is
    the encoding of the rune unless the rune is [RuneError]. *)
Lemma runes_uncons s r rest :
  Utf8.runes s = r :: rest ->
  exists chunk s',
    s = (chunk ++ s')%string /\ Utf8.runes s' = rest /\
    (r <> Utf8.RuneError -> chunk = Utf8.encodeRune r).
Proof.
  destruct s as [| c0 s1]; [done |]. cbn [Utf8.runes].
  assert (Hbad : Utf8.RuneError :: Utf8.runes s1 = r :: rest ->
    exists chunk s',
      String c0 s1 = (chunk ++ s')%string /\ Utf8.runes s' = rest /\
      (r <> Utf8.RuneError -> chunk = Utf8.encodeRune r)).
  { intros [= <- <-]. by exists (String c0 EmptyString), s1. }
  destruct (Z.ltb_spec (Utf8.byteZ c0) 128) as [Hc | Hc].
  { intros [= <- <-]. exists (String c0 EmptyString), s1.
    by rewrite encodeRune_ascii. }
  destruct (Utf8.seqLen (Utf8.byteZ c0)) as [| [| [| [| [| n]]]]] eqn:Hlen;
    try exact Hbad.
  - destruct s1 as [| c1 s2]; [exact Hbad |].
    destruct (Utf8.inAccept _ c1) eqn:Hacc; [| exact Hbad].
    intros [= <- <-]. exists (String c0 (String c1 EmptyString)), s2.
    by rewrite encodeRune_rune2.
  - destruct s1 as [| c1 [| c2 s3]]; try exact Hbad.
    destruct (Utf8.inAccept _ c1 && Utf8.isCont c2) eqn:Hacc; [| exact Hbad].
    intros [= <- <-].
    exists (String c0 (String c1 (String c2 EmptyString))), s3.
    by rewrite encodeRune_rune3.
  - destruct s1 as [| c1 [| c2 [| c3 s4]]]; try exact Hbad.
    destruct (Utf8.inAccept _ c1 && Utf8.isCont c2 && Utf8.isCont c3)
      eqn:Hacc; [| exact Hbad].
    intros [= <- <-].
    exists (String c0 (String c1 (String c2 (String c3 EmptyString)))), s4.
    by rewrite encodeRune_rune4.
Qed.

(** Runes other than [RuneError] at the head of a string are its bytes. *)
Lemma runes_prefix rs s rest :
  Forall (fun r => r <> Utf8.RuneError) rs ->
  Utf8.runes s = rs ++ rest ->
  exists s', s = (Utf8.encodeRunes rs ++ s')%string /\ Utf8.runes s' = rest.
Proof.
  intros Hrs. revert s. induction Hrs as [| r rs Hr _ IH]; intros s Hs.
  - by exists s.
  - apply runes_uncons in Hs as (chunk & s1 & -> & Hs1 & Hchunk).
    apply IH in Hs1 as (s' & -> & Hs'). exists s'.
    rewrite (Hchunk Hr). cbn [Utf8.encodeRunes].
    by rewrite string_app_assoc.
Qed.

Lemma runes_skip pre s rest :
  Utf8.runes s = pre ++ rest ->
  exists p s', s = (p ++ s')%string /\ Utf8.runes s' = rest.
Proof.
  revert s. induction pre as [| r pre IH]; intros s Hs.
  - by exists EmptyString, s.
  - apply runes_uncons in Hs as (chunk & s1 & -> & Hs1 & _).
    apply IH in Hs1 as (p & s' & -> & Hs'). exists (chunk ++ p)%string, s'.
    by rewrite string_app_assoc.
Qed.

Lemma runes_nil s : Utf8.runes s = [] -> s = EmptyString.
Proof.
  intros Hs. destruct s as [| c0 s1]; [done |].
  pose proof (runes_uncons (String c0 s1) 0 []) as Hu.
  destruct (Utf8.runes (String c0 s1)) eqn:Hr; [| done].
  revert Hr. cbn [Utf8.runes].
  repeat match goal with
         | |- context [if ?b then _ else _] => destruct b
         | |- context [match ?x with _ => _ end] => destruct x
         end; done.
Qed.

Lemma plainTerm_spec term :
  Regexp.plainTerm term = true <->
  Forall (fun r => r <> Utf8.RuneError) (Utf8.runes term).
Proof.
  unfold Regexp.plainTerm. rewrite forallb_forall, Forall_forall.
  setoid_rewrite list_elem_of_In.
  split; intros H r Hr; specialize (H r Hr).
  - apply negb_true_iff, Z.eqb_neq in H. done.
  - by apply negb_true_iff, Z.eqb_neq.
Qed.

(** A plain term is well-formed UTF-8. *)
Lemma plainTerm_valid term :
  Regexp.plainTerm term = true -> Utf8.encodeRunes (Utf8.runes term) = term.
Proof.
  intros Hp%plainTerm_spec.
  destruct (runes_prefix (Utf8.runes term) term [] Hp) as (s' & Hs & Hs').
  { by rewrite app_nil_r. }
  apply runes_nil in Hs' as ->. by rewrite string_app_nil_r in Hs.
Qed.

Lemma inClass_spec chars r : Regexp.inClass chars r = true <-> r ∈ chars.
Proof. unfold Regexp.inClass. by rewrite bool_decide_eq_true. Qed.

Lemma delimitedAt_spec chars term rs :
  Regexp.delimitedAt chars term rs = true <->
  exists d1 d2 post,
    rs = d1 :: term ++ d2 :: post /\ d1 ∈ chars /\ d2 ∈ chars.
Proof.
  destruct rs as [| d1 rest]; cbn [Regexp.delimitedAt].
  { split; [done | intros (? & ? & ? & [=] & _)]. }
  rewrite !andb_true_iff, inClass_spec, bool_decide_eq_true. split.
  - intros [[H1 Ht] H2].
    destruct (drop (length term) rest) as [| d2 post] eqn:Hd; [done |].
    apply inClass_spec in H2. exists d1, d2, post. split; [| done].
    by rewrite <- (take_drop (length term) rest), Ht, Hd.
  - intros (d1' & d2 & post & [= <- ->] & H1 & H2).
    rewrite take_app_length, drop_app_length.
    split; [done |]. by apply inClass_spec.
Qed.

Lemma matchDelimited_runes chars term rs :
  Regexp.matchDelimited chars term rs = true <->
  exists pre d1 d2 post,
    rs = pre ++ d1 :: term ++ d2 :: post /\ d1 ∈ chars /\ d2 ∈ chars.
Proof.
  induction rs as [| r rs IH].
  - cbn. split; [done |]. intros ([| ? ?] & ? & ? & ? & [=] & _).
  - cbn [Regexp.matchDelimited]. rewrite orb_true_iff, delimitedAt_spec, IH.
    split.
    + intros [(d1 & d2 & post & H & H1 & H2)
             | (pre & d1 & d2 & post & H & H1 & H2)].
      * by exists [], d1, d2, post.
      * exists (r :: pre), d1, d2, post. cbn. by rewrite H.
    + intros ([| r' pre] & d1 & d2 & post & H & H1 & H2).
      * left. by exists d1, d2, post.
      * right. injection H as -> H. exists pre, d1, d2, post. done.
Qed.

Lemma matchDelimited_spec delims term ref :
  Regexp.matchDelimited (Utf8.runes delims) (Utf8.runes term) (Utf8.runes ref)
  = true <-> wrappedIn delims term ref.
Proof. apply matchDelimited_runes. Qed.

(** An occurrence between delimiters is an occurrence. *)
Lemma wrappedIn_occursIn delims term ref :
  Regexp.plainTerm term = true ->
  wrappedIn delims term ref -> occursIn term ref.
Proof.
  intros Hp (pre & d1 & d2 & post & Href & _).
  apply runes_skip in Href as (p & s1 & -> & Hs1).
  apply runes_uncons in Hs1 as (chunk & s2 & -> & Hs2 & _).
  apply runes_prefix in Hs2 as (s3 & -> & _); [| by apply plainTerm_spec].
  rewrite plainTerm_valid by done.
  exists (p ++ chunk)%string, s3. by rewrite string_app_assoc.
Qed.

(** Every plain term is searched literally, whatever the other patterns
    do. *)
Lemma plainTerm_searchedLiterally MustCompile term :
  Regexp.plainTerm term = true -> searchedLiterally MustCompile term.
Proof.
  intros Hp. exists (Regexp.matchLiteral term). unfold literalMatcher.
  rewrite Hp. split; [done |]. intros ref. apply matchLiteral_spec.
Qed.

(** Plain delimiters that make a literal set stand for themselves. *)
Lemma literalSet_delimitersStandFor MustCompile delims key :
  Regexp.plainTerm delims = true -> Regexp.plainTerm key = true ->
  Regexp.literalSet (Utf8.runes delims) = true ->
  delimitersStandFor MustCompile delims key.
Proof.
  intros Hd Hk Hs. eexists. unfold delimitedMatcher. rewrite Hd, Hk, Hs.
  split; [reflexivity |]. intros ref. apply matchDelimited_spec.
Qed.


Lemma matchedAliases_spec MustCompile ref flagAliases :
  (forall a, a ∈ flagAliases -> searchedLiterally MustCompile a) ->
  exists matched,
    matchedAliases MustCompile ref flagAliases = Some matched /\
    matched `sublist_of` flagAliases /\
    forall a, a ∈ matched <-> a ∈ flagAliases /\ occursIn a ref.
Proof.
  induction flagAliases as [| alias rest IH]; intros Hall.
  - exists []. split; [done |]. split; [done |]. intros a. split.
    + by intros ?%elem_of_nil.
    + by intros [?%elem_of_nil _].
  - destruct IH as (found & Hfound & Hsub & Hin).
    { intros a Ha. apply Hall. by right. }
    destruct (Hall alias) as (m & Hm & Hocc); [by left |].
    cbn [matchedAliases]. rewrite Hm, Hfound.
    eexists. split; [reflexivity |].
    destruct (m ref) eqn:Hmr.
    + apply Hocc in Hmr. split; [by constructor |]. intros a.
      rewrite !elem_of_cons, Hin. split.
      * intros [-> | [? ?]]; [by split; [left |] | by split; [right |]].
      * intros [[-> | ?] ?]; [by left | by right].
    + assert (~ occursIn alias ref) as Hn by (rewrite <- Hocc; congruence).
      split; [by constructor |]. intros a. rewrite elem_of_cons, Hin. split.
      * intros [? ?]. by split; [right |].
      * intros [[-> | ?] ?]; [done | done].
Qed.

(** The aliases of an entry are the matched aliases, whatever the key
    does. *)
Lemma referencedEntry_matched MustCompile ref delims key flagAliases e :
  referencedEntry MustCompile ref delims key flagAliases = Some e ->
  exists matcher matched,
    keyMatcher MustCompile delims key = Some matcher /\
    matchedAliases MustCompile ref flagAliases = Some matched /\
    e = (if matcher ref then Some matched
         else match matched with [] => None | _ :: _ => Some matched end).
Proof.
  unfold referencedEntry.
  destruct (keyMatcher _ delims key) as [matcher |]; [| done].
  destruct (matchedAliases _ ref flagAliases) as [matched |]; [| done].
  intros [= <-]. by exists matcher, matched.
Qed.

Lemma referencedEntry_spec MustCompile ref delims key flagAliases
  (matcher : string -> bool) (found : string -> Prop) :
  keyMatcher MustCompile delims key = Some matcher ->
  (matcher ref = true <-> found ref) ->
  (forall a, a ∈ flagAliases -> searchedLiterally MustCompile a) ->
  exists e,
    referencedEntry MustCompile ref delims key flagAliases = Some e /\
    (is_Some e <->
     found ref \/ exists a, a ∈ flagAliases /\ occursIn a ref) /\
    (forall l, e = Some l ->
       l `sublist_of` flagAliases /\
       forall a, a ∈ l <-> a ∈ flagAliases /\ occursIn a ref).
Proof.
  intros Hkey Hfound Hall.
  destruct (matchedAliases_spec MustCompile ref flagAliases Hall)
    as (matched & Hmatched & Hsub & Hin).
  unfold referencedEntry. rewrite Hkey, Hmatched.
  eexists. split; [reflexivity |].
  destruct (matcher ref) eqn:Hm.
  - split; [| by intros l [= <-]].
    split; [intros _; left; by apply Hfound | by eexists].
  - assert (~ found ref) as Hn by (rewrite <- Hfound; congruence).
    destruct matched as [| a0 matched'].
    + split; [| done]. split; [by intros [? [=]] |].
      intros [? | (a & Ha)]; [done |].
      apply Hin in Ha. by apply elem_of_nil in Ha.
    + split; [| by intros l [= <-]].
      split; [| by eexists]. intros _. right. exists a0. apply Hin. by left.
Qed.

(** The call returns when every iteration does, and what it returns. *)
Lemma findReferencedFlags_Some MustCompile ref aliases delims :
  (forall key flagAliases, aliases !! key = Some flagAliases ->
     is_Some (referencedEntry MustCompile ref delims key flagAliases)) ->
  findReferencedFlags MustCompile ref aliases delims
  = Some (map_imap (fun key flagAliases =>
            default None (referencedEntry MustCompile ref delims key
                            flagAliases)) aliases).
Proof.
  intros Hall. unfold findReferencedFlags.
  destruct (forallb _ (map_to_list aliases)) eqn:Hf; [done |].
  apply not_true_iff_false in Hf. exfalso. apply Hf.
  apply forallb_forall. intros [key flagAliases] Hin.
  apply list_elem_of_In, elem_of_map_to_list in Hin.
  apply bool_decide_eq_true. by apply Hall.
Qed.

Lemma findReferencedFlags_inv MustCompile ref aliases delims ret :
  findReferencedFlags MustCompile ref aliases delims = Some ret ->
  forall key,
    match aliases !! key with
    | Some flagAliases =>
      referencedEntry MustCompile ref delims key flagAliases
      = Some (ret !! key)
    | None => ret !! key = None
    end.
Proof.
  unfold findReferencedFlags.
  destruct (forallb _ (map_to_list aliases)) eqn:Hf; [| done].
  intros [= <-] key. rewrite map_lookup_imap.
  destruct (aliases !! key) as [flagAliases |] eqn:Hk; [| done]. cbn.
  rewrite forallb_forall in Hf.
  specialize (Hf (key, flagAliases)). cbn in Hf.
  destruct (referencedEntry _ ref delims key flagAliases) as [e |] eqn:He;
    [done |].
  exfalso. rewrite bool_decide_eq_true in Hf.
  destruct Hf as [? [=]]. by apply list_elem_of_In, elem_of_map_to_list.
Qed.

Lemma keyMatcher_delimited MustCompile delims key matcher :
  0 < len delims ->
  is_Some (literalMatcher MustCompile key) ->
  delimitedMatcher MustCompile delims key = Some matcher ->
  keyMatcher MustCompile delims key = Some matcher.
Proof.
  intros Hd [plain Hplain] Hm. unfold keyMatcher. rewrite Hplain.
  by destruct (Z.ltb_spec 0 (len delims)); [| lia].
Qed.

(** C3, as the code has it: with a non-empty delimiter string that stands
    for the set of its characters, a flag key is matched by an occurrence
    between two delimiters, while an alias is matched by any occurrence,
    delimited or not.  The flag is attributed to the line when its key or
    one of its aliases is matched, and the aliases listed for it are the
    matched ones.  The delimiter string is put into the pattern unquoted:
    it has to be one that the compiled pattern reads as a set, which
    [literalSet_delimitersStandFor] shows of every plain delimiter string
    without a special character, and the keys and aliases have to be terms
    that are searched literally, which [plainTerm_searchedLiterally] shows
    of every well-formed term. *)
Theorem findReferencedFlags_key_delimited_alias_plain
  (MustCompile : string -> option (string -> bool))
  (ref : string) (aliases : gmap string (list string)) (delims : string)
  (Hnonempty : 0 < len delims)
  (Hdelims : forall key flagAliases, aliases !! key = Some flagAliases ->
               delimitersStandFor MustCompile delims key)
  (Hterms : termsSearchedLiterally MustCompile aliases) :
  exists ret,
    findReferencedFlags MustCompile ref aliases delims = Some ret /\
    (forall key, aliases !! key = None -> ret !! key = None) /\
    (forall key flagAliases, aliases !! key = Some flagAliases ->
       (is_Some (ret !! key) <->
        wrappedIn delims key ref \/
        exists a, a ∈ flagAliases /\ occursIn a ref) /\
       (forall a, a ∈ default [] (ret !! key) <->
                  a ∈ flagAliases /\ occursIn a ref)).
Proof.
  assert (Hentry : forall key flagAliases,
    aliases !! key = Some flagAliases ->
    exists e,
      referencedEntry MustCompile ref delims key flagAliases = Some e /\
      (is_Some e <->
       wrappedIn delims key ref \/
       exists a, a ∈ flagAliases /\ occursIn a ref) /\
      (forall l, e = Some l ->
         l `sublist_of` flagAliases /\
         forall a, a ∈ l <-> a ∈ flagAliases /\ occursIn a ref)).
  { intros key flagAliases Hk.
    destruct (Hdelims key flagAliases Hk) as (m & Hm & Hwrapped).
    destruct (Hterms key flagAliases Hk) as [(plain & Hplain & _) Hall].
    apply (referencedEntry_spec _ _ _ _ _ m); [| done | done].
    apply keyMatcher_delimited; [done | by eexists | done]. }
  eexists. split.
  { apply findReferencedFlags_Some. intros key flagAliases Hk.
    destruct (Hentry key flagAliases Hk) as (e & -> & _). by eexists. }
  split.
  - intros key Hk. by rewrite map_lookup_imap, Hk.
  - intros key flagAliases Hk. rewrite map_lookup_imap, Hk. cbn.
    destruct (Hentry key flagAliases Hk) as (e & -> & Hsome & Hl). cbn.
    split; [exact Hsome |]. intros a. destruct e as [l |]; cbn.
    + by apply Hl.
    + split; [by intros ?%elem_of_nil |]. intros Ha. exfalso.
      assert (is_Some (@None (list string))) as [? [=]].
      apply Hsome. right. by exists a.
Qed.

Lemma findReferencedFlags_key_delimited_alias_plain_witness :
  0 < len defaultDelims /\
  forall MustCompile, exists ret,
    findReferencedFlags MustCompile aliasLine demoAliases defaultDelims
    = Some ret /\
    ret !! "my-flag" = Some ["myFlag"].
Proof.
  split; [vm_compute; reflexivity |]. intros MustCompile.
  destruct (findReferencedFlags_key_delimited_alias_plain MustCompile
              aliasLine demoAliases defaultDelims) as (ret & Hret & _ & _).
  - vm_compute. reflexivity.
  - intros key flagAliases Hk. unfold demoAliases in Hk.
    apply lookup_singleton_Some in Hk as [<- <-].
    apply literalSet_delimitersStandFor; vm_compute; reflexivity.
  - intros key flagAliases Hk. unfold demoAliases in Hk.
    apply lookup_singleton_Some in Hk as [<- <-]. split.
    + apply plainTerm_searchedLiterally. vm_compute. reflexivity.
    + intros a ->%list_elem_of_singleton.
      apply plainTerm_searchedLiterally. vm_compute. reflexivity.
  - exists ret. split; [exact Hret |].
    vm_compute in Hret. injection Hret as <-. vm_compute. reflexivity.
Defined.

(** C3 as stated fails for aliases: the alias [myFlag] is attributed to its
    flag on a line where it stands between no delimiters, whatever
    [regexp] does with other patterns. *)
Lemma findReferencedFlags_alias_not_delimited :
  0 < len defaultDelims /\
  (forall MustCompile,
     findReferencedFlags MustCompile aliasLine demoAliases defaultDelims
     = Some {[ "my-flag" := ["myFlag"] ]}) /\
  ~ wrappedIn defaultDelims "myFlag" aliasLine /\
  ~ wrappedIn defaultDelims "my-flag" aliasLine.
Proof.
  split; [vm_compute; reflexivity |].
  split; [intros MustCompile; vm_compute; reflexivity |].
  split; intros H%matchDelimited_spec; vm_compute in H; discriminate.
Qed.

(** ** The aliases of a hunk *)

(** C9 fails on the code.  The third line belongs to the only hunk and has
    the alias [myFlag] recorded for the flag, but the hunk's aliases are
    empty: the aliases collected while a hunk is extended stay in
    [currentHunk] and only [Lines] is written to the previous hunk. *)
Theorem buildHunksForFlag_extension_drops_aliases :
  buildHunksForFlag "default" "my-flag" "a.go" aliasHunkLines 1 [0; 2]%nat
  = Some ([{| ProjKey := "default"; FlagKey := "my-flag";
              StartingLineNumber := 1;
              Lines := "flag('my-flag')
// context
flags.myFlag
// end
";
              Aliases := [] |}], []) /\
  (exists l, aliasHunkLines !! 2%nat = Some l /\ LineNum l = 3 /\
             FlagKeys l !! "my-flag" = Some ["myFlag"]).
Proof.
  split; [vm_compute; reflexivity |].
  eexists. split; [reflexivity |]. split; vm_compute; reflexivity.
Qed.

(** ** Newlines *)

Lemma countNewlines_app a b :
  countNewlines (a ++ b) = countNewlines a + countNewlines b.
Proof.
  induction a as [| c a IH]; [reflexivity |].
  change (countNewlines (String c (a ++ b))%string
          = countNewlines (String c a) + countNewlines b).
  cbn [countNewlines]. rewrite IH. lia.
Qed.

Lemma countNewlines_nonneg a : 0 <= countNewlines a.
Proof.
  induction a as [| c a IH]; cbn [countNewlines]; [lia |].
  destruct (Ascii.eqb _ _); lia.
Qed.

Lemma countNewlines_newline : countNewlines newline = 1.
Proof. reflexivity. Qed.

Lemma countNewlines_cons c s :
  countNewlines (String c s) = 0 <->
  Utf8.byteZ c <> 10 /\ countNewlines s = 0.
Proof.
  cbn [countNewlines]. pose proof (countNewlines_nonneg s).
  destruct (Ascii.eqb_spec c (ascii_of_nat 10)) as [-> | Hne].
  - split; [lia |]. intros [H1 _]. by vm_compute in H1.
  - split; [| lia]. intros H0. split; [| lia]. intros Hb. apply Hne.
    rewrite <- (byteOf_byteZ c), Hb. reflexivity.
Qed.

Lemma countNewlines_str1 z :
  0 <= z < 256 -> z <> 10 -> countNewlines (Utf8.str1 z) = 0.
Proof.
  intros Hz Hne. unfold Utf8.str1. apply countNewlines_cons.
  by rewrite byteZ_byteOf.
Qed.

Ltac divlia := intros; Z.div_mod_to_equations; lia.

Lemma countNewlines_encodeRune r :
  r <> 10 -> countNewlines (Utf8.encodeRune r) = 0.
Proof.
  intros Hr.
  unfold Utf8.encodeRune, Utf8.MaxRune, Utf8.str4, Utf8.str3, Utf8.str2,
    Utf8.str1.
  destruct (Z.leb_spec 0 r), (Z.leb_spec r 127), (Z.leb_spec r 2047),
    (Z.ltb_spec r 0), (Z.ltb_spec 1114111 r), (Z.leb_spec 55296 r),
    (Z.leb_spec r 57343), (Z.leb_spec r 65535);
    cbn [andb orb]; try lia;
    repeat (apply countNewlines_cons; split;
            [rewrite byteZ_byteOf by divlia; divlia |]);
    reflexivity.
Qed.

Lemma countNewlines_encodeRunes rs :
  Forall (fun r => r <> 10) rs -> countNewlines (Utf8.encodeRunes rs) = 0.
Proof.
  induction 1 as [| r rs Hr _ IH]; [reflexivity |].
  cbn [Utf8.encodeRunes]. rewrite countNewlines_app, IH.
  rewrite countNewlines_encodeRune by done. reflexivity.
Qed.

(** The second byte of a sequence lies in the range its first byte accepts. *)
Ltac accept_cases Hacc c0 :=
  unfold Utf8.inAccept, Utf8.acceptLo, Utf8.acceptHi in Hacc;
  destruct (Z.eqb_spec (Utf8.byteZ c0) 224), (Z.eqb_spec (Utf8.byteZ c0) 240),
    (Z.eqb_spec (Utf8.byteZ c0) 237), (Z.eqb_spec (Utf8.byteZ c0) 244);
  try lia;
  apply andb_true_iff in Hacc as [?%Z.leb_le ?%Z.leb_le]; divlia.

Lemma runes_no_newline n : forall s,
  (String.length s <= n)%nat -> countNewlines s = 0 ->
  Forall (fun r => r <> 10) (Utf8.runes s).
Proof.
  induction n as [| n IH]; intros s Hn Hs.
  { destruct s; [constructor | cbn in Hn; lia]. }
  destruct s as [| c0 s1]; [constructor |].
  apply countNewlines_cons in Hs as [Hc0 Hs1]. cbn [String.length] in Hn.
  pose proof (byteZ_range c0) as Hr0.
  assert (Htail : Forall (fun r => r <> 10) (Utf8.runes s1))
    by (apply IH; [lia | done]).
  assert (Herr : Forall (fun r => r <> 10) (Utf8.RuneError :: Utf8.runes s1))
    by (constructor; [done | exact Htail]).
  cbn [Utf8.runes]. cbv zeta.
  destruct (Z.ltb_spec (Utf8.byteZ c0) 128); [by constructor |].
  unfold Utf8.seqLen.
  destruct (Z.leb_spec 194 (Utf8.byteZ c0)), (Z.leb_spec (Utf8.byteZ c0) 223),
    (Z.leb_spec 224 (Utf8.byteZ c0)), (Z.leb_spec (Utf8.byteZ c0) 239),
    (Z.leb_spec 240 (Utf8.byteZ c0)), (Z.leb_spec (Utf8.byteZ c0) 244);
    cbn [andb]; try lia; try exact Herr.
  - (* two bytes *)
    destruct s1 as [| c1 s2]; [exact Herr |].
    destruct (Utf8.inAccept _ c1); [| exact Herr].
    apply countNewlines_cons in Hs1 as [_ Hs2]. cbn [String.length] in Hn.
    constructor; [unfold Utf8.rune2; intros Heq; divlia | apply IH; [lia | done]].
  - (* three bytes *)
    destruct s1 as [| c1 [| c2 s3]]; [exact Herr | exact Herr |].
    destruct (Utf8.inAccept _ c1) eqn:Hacc; [| exact Herr].
    destruct (Utf8.isCont c2); [| exact Herr]. cbn [andb].
    apply countNewlines_cons in Hs1 as [_ Hs2].
    apply countNewlines_cons in Hs2 as [_ Hs3]. cbn [String.length] in Hn.
    constructor; [| apply IH; [lia | done]].
    unfold Utf8.rune3. intros Heq. accept_cases Hacc c0.
  - (* four bytes *)
    destruct s1 as [| c1 [| c2 [| c3 s4]]];
      [exact Herr | exact Herr | exact Herr |].
    destruct (Utf8.inAccept _ c1) eqn:Hacc; [| exact Herr].
    destruct (Utf8.isCont c2); [| exact Herr].
    destruct (Utf8.isCont c3); [| exact Herr]. cbn [andb].
    apply countNewlines_cons in Hs1 as [_ Hs2].
    apply countNewlines_cons in Hs2 as [_ Hs3].
    apply countNewlines_cons in Hs3 as [_ Hs4]. cbn [String.length] in Hn.
    constructor; [| apply IH; [lia | done]].
    unfold Utf8.rune4. intros Heq. accept_cases Hacc c0.
Qed.

Lemma truncateLine_no_newline t t' :
  countNewlines t = 0 -> truncateLine t = Some t' -> countNewlines t' = 0.
Proof.
  intros Ht. unfold truncateLine, sliceTo.
  pose proof (runes_no_newline (String.length t) t ltac:(lia) Ht) as Hrunes.
  destruct (_ <? _); [| by intros [= <-]].
  destruct (_ <=? _).
  - cbn. intros [= <-].
    rewrite countNewlines_app, countNewlines_encodeRunes; [reflexivity |].
    by apply Forall_take.
  - destruct (_ <=? _); [| done]. cbn. intros [= <-].
    rewrite countNewlines_app, countNewlines_encodeRunes; [reflexivity |].
    apply Forall_app. split; [done |]. by apply Forall_replicate.
Qed.

(** ** The hunk builder: facts that hold for every input *)

Section HunkerFacts.
Context (projKey flag file : string) (lines : list searchResultLine)
        (ctxLines : Z).

Lemma setPreviousLines_snoc hs h s :
  setPreviousLines (hs ++ [h]) s = Some (hs ++ [setLines h s]).
Proof.
  unfold setPreviousLines. rewrite last_snoc, length_app. cbn [length].
  replace (pred (length hs + 1)) with (length hs + 0)%nat by lia.
  by rewrite insert_app_r.
Qed.

Lemma setPreviousLines_Some hs s hs' :
  setPreviousLines hs s = Some hs' ->
  exists hs0 h, hs = hs0 ++ [h] /\ hs' = hs0 ++ [setLines h s].
Proof.
  destruct hs as [| h0 hs0] using rev_ind; [done |].
  rewrite setPreviousLines_snoc. intros [= <-]. eauto.
Qed.

Lemma writeLine_cases l st st' :
  writeLine flag l st = Some st' ->
  hunks st' = hunks st /\
  StartingLineNumber (currentHunk st') = StartingLineNumber (currentHunk st) /\
  ((LineNum l <= lastSeenLineNum st /\ st' = st) \/
   (lastSeenLineNum st < LineNum l /\
    lastSeenLineNum st' = LineNum l /\
    numHunkedLines st' = numHunkedLines st + 1 /\
    Aliases (currentHunk st')
    = Aliases (currentHunk st) ++ default [] (FlagKeys l !! flag) /\
    exists t, truncateLine (LineText l) = Some t /\
      hunkStringBuilder st'
      = (hunkStringBuilder st ++ (t ++ newline))%string)).
Proof.
  unfold writeLine. destruct (Z.ltb_spec (lastSeenLineNum st) (LineNum l)).
  - destruct (truncateLine (LineText l)) as [t |]; [| done].
    cbn. intros [= <-]. cbn. split; [done |]. split; [done |]. right.
    repeat split; try done. by exists t.
  - intros [= <-]. split; [done |]. split; [done |]. by left.
Qed.

(** A written line adds one newline to the builder when its text has none. *)
Lemma writeLine_count l st st' :
  countNewlines (LineText l) = 0 ->
  writeLine flag l st = Some st' ->
  let d := countNewlines (hunkStringBuilder st')
           - countNewlines (hunkStringBuilder st) in
  numHunkedLines st' = numHunkedLines st + d /\
  ((d = 0 /\ st' = st /\ LineNum l <= lastSeenLineNum st) \/
   (d = 1 /\ lastSeenLineNum st < LineNum l /\
    lastSeenLineNum st' = LineNum l)).
Proof.
  intros Hl Hw d. apply writeLine_cases in Hw
    as (_ & _ & [[Hle ->] | (Hlt & Hls & Hnum & _ & t & Ht & Hb)]).
  - subst d. split; [lia |]. left. split; [lia | done].
  - assert (d = 1) as ->.
    { subst d. rewrite Hb, !countNewlines_app, countNewlines_newline.
      rewrite (truncateLine_no_newline _ _ Hl Ht). lia. }
    split; [lia |]. right. done.
Qed.

Lemma seekForward_general n : forall ptr st st',
  oneLineTexts lines ->
  seekForward flag lines n ptr st = Some st' ->
  let d := countNewlines (hunkStringBuilder st')
           - countNewlines (hunkStringBuilder st) in
  hunks st' = hunks st /\
  StartingLineNumber (currentHunk st') = StartingLineNumber (currentHunk st) /\
  numHunkedLines st' = numHunkedLines st + d /\
  0 <= d <= lastSeenLineNum st' - lastSeenLineNum st.
Proof.
  induction n as [| n IH]; intros ptr st st' Htexts Hf d.
  { cbn in Hf. injection Hf as <-. subst d. repeat split; lia. }
  cbn [seekForward] in Hf.
  destruct (lines !! ptr) as [l |] eqn:Hl; [| done]. cbn in Hf.
  destruct (writeLine flag l st) as [st1 |] eqn:Hw; [| done]. cbn in Hf.
  assert (Hone : countNewlines (LineText l) = 0).
  { eapply (proj1 (Forall_forall _ _) Htexts), list_elem_of_lookup_2, Hl. }
  pose proof (writeLine_cases _ _ _ Hw) as (Hh & Hs & _).
  pose proof (writeLine_count _ _ _ Hone Hw) as Hc. cbv zeta in Hc.
  specialize (IH _ _ _ Htexts Hf). cbv zeta in IH.
  destruct IH as (IH1 & IH2 & IH3 & IH4). subst d.
  split; [congruence |]. split; [congruence |].
  destruct Hc as [Hn [(Hd & -> & _) | (Hd & Hlt & Hls)]]; split; lia.
Qed.

(** When the backward seek does not ask to extend the previous hunk, the
    line it stops at (after at least one step) is beyond the last seen. *)
Lemma seekBack_no_append lastSeen n : forall ptr num app ptr' num' app',
  seekBack lines lastSeen n ptr num app = Some (ptr', num', app') ->
  app' = false ->
  app = false /\
  ((0 < n)%nat -> exists l, lines !! ptr' = Some l /\ lastSeen < LineNum l).
Proof.
  induction n as [| n IH]; intros ptr num app ptr' num' app' Hs Happ.
  { cbn in Hs. injection Hs as <- <- <-. split; [done | lia]. }
  cbn [seekBack] in Hs.
  destruct (match ptr with O => _ | S p => _ end) as [ptr1 num1].
  destruct (lines !! ptr1) as [l |] eqn:Hl; [| done]. cbn in Hs.
  destruct (IH _ _ _ _ _ _ Hs Happ) as [Happ1 Hn].
  destruct (Z.leb_spec (LineNum l) lastSeen); [done |].
  split; [done |]. intros _. destruct n as [| n].
  - cbn in Hs. injection Hs as <- <- <-. eauto.
  - apply Hn. lia.
Qed.

Lemma seekBack_zero lastSeen ptr num app :
  seekBack lines lastSeen 0 ptr num app = Some (ptr, num, app).
Proof. reflexivity. Qed.

Lemma seekBack_num lastSeen n : forall ptr num app ptr' num' app',
  seekBack lines lastSeen n ptr num app = Some (ptr', num', app') ->
  num <= num'.
Proof.
  induction n as [| n IH]; intros ptr num app ptr' num' app' Hs.
  { cbn in Hs. injection Hs as <- <- <-. lia. }
  cbn [seekBack] in Hs. destruct ptr as [| p].
  - destruct (lines !! 0%nat); [| done]. cbn in Hs. by apply IH in Hs.
  - destruct (lines !! p); [| done]. cbn in Hs. apply IH in Hs. lia.
Qed.

Lemma hunksApart_snoc hs h hi :
  hunksApart hs ->
  (forall h0, h0 ∈ hs -> hunkStart h0 <= hi /\ hunkEnd h0 <= hi) ->
  hi < hunkStart h ->
  hunksApart (hs ++ [h]).
Proof.
  intros Hap Hb Hh i j h1 h2 Hij H1 H2.
  destruct (decide (j < length hs)%nat) as [Hj | Hj].
  - rewrite lookup_app_l in H1, H2 by lia. exact (Hap i j h1 h2 Hij H1 H2).
  - assert (i < length hs)%nat as Hi.
    { apply lookup_lt_Some in H2. rewrite length_app in H2. cbn in H2. lia. }
    rewrite lookup_app_l in H1 by lia.
    rewrite lookup_app_r in H2 by lia.
    destruct (j - length hs)%nat; [| done]. injection H2 as <-.
    apply list_elem_of_lookup_2, Hb in H1. lia.
Qed.

Lemma hunksApart_last hs h h' :
  hunksApart (hs ++ [h]) -> hunkStart h' = hunkStart h ->
  hunksApart (hs ++ [h']).
Proof.
  intros Hap Hs i j h1 h2 Hij H1 H2.
  assert (j < length (hs ++ [h']))%nat as Hj by by eapply lookup_lt_Some.
  rewrite length_app in Hj. cbn in Hj.
  assert (hs !! i = Some h1) as H1'
    by (rewrite lookup_app_l in H1 by lia; done).
  destruct (decide (j < length hs)%nat) as [Hj' | Hj'].
  - rewrite lookup_app_l in H2 by lia.
    apply (Hap i j); [done | | ]; by rewrite lookup_app_l by lia.
  - rewrite lookup_app_r in H2 by lia.
    destruct (j - length hs)%nat eqn:E; [| done]. injection H2 as <-.
    rewrite Hs. apply (Hap i j); [done | by rewrite lookup_app_l by lia |].
    rewrite lookup_app_r by lia. by rewrite E.
Qed.

Lemma lineNumAt_lookup i l : lines !! i = Some l -> lineNumAt lines i = LineNum l.
Proof. unfold lineNumAt. by intros ->. Qed.

Lemma processRef_inv2 st hi ref st' :
  oneLineTexts lines ->
  inv2 st hi ->
  processRef projKey flag lines ctxLines st ref = Some st' ->
  (1 <= ctxLines /\ hi = lastSeenLineNum st) \/
  (ctxLines <= 0 /\ hi < lineNumAt lines ref) ->
  exists hi',
    inv2 st' hi' /\
    (1 <= ctxLines -> hi' = lastSeenLineNum st') /\
    (ctxLines <= 0 -> hi' = lineNumAt lines ref) /\
    numHunkedLines st <= numHunkedLines st'.
Proof.
  intros Htexts (Hap & Hb & Hls & Hlast) Hp Hmode. unfold processRef in Hp.
  destruct (seekBack _ _ _ _ _ _) as [[[ptr nb] app] |] eqn:Hback; [| done].
  cbn in Hp. pose proof (seekBack_num _ _ _ _ _ _ _ _ Hback) as Hnb.
  destruct app.
  - (* the previous hunk is extended *)
    cbn in Hp.
    destruct (seekForward _ _ _ _ _) as [st2 |] eqn:Hfw; [| done]. cbn in Hp.
    pose proof (seekForward_general _ _ _ _ Htexts Hfw) as Hg.
    cbv zeta in Hg. destruct Hg as (Hh & _ & Hnum & Hd).
    unfold finishHunk in Hp.
    destruct (setPreviousLines _ _) as [hs' |] eqn:Hset; [| done].
    cbn in Hp. injection Hp as <-.
    apply setPreviousLines_Some in Hset as (hs0 & h & Hhs & ->).
    rewrite Hh in Hhs.
    assert (ctxLines <= 0 -> False) as Hpos.
    { intros Hc. replace (Z.to_nat ctxLines) with 0%nat in Hback by lia.
      by rewrite seekBack_zero in Hback. }
    destruct Hmode as [[Hc ->] | [Hc _]]; [| by destruct Hpos].
    assert (Lines h = hunkStringBuilder st) as Hlines
      by (apply Hlast; rewrite Hhs; apply last_snoc).
    exists (lastSeenLineNum st2). unfold inv2. cbn.
    split; [| split; [done | split; [lia | lia]]].
    split; [| split; [| split; [lia |]]].
    + rewrite Hhs in Hap. by eapply hunksApart_last.
    + intros h0 [Hin | ->%list_elem_of_singleton]%elem_of_app.
      * destruct (Hb h0); [rewrite Hhs; apply elem_of_app; by left |]. lia.
      * destruct (Hb h); [rewrite Hhs; apply elem_of_app; right; by left |].
        unfold hunkStart, hunkEnd in *. cbn. rewrite Hlines in *. lia.
    + intros h0. rewrite last_snoc. by intros [= <-].
  - (* a new hunk *)
    cbn in Hp. destruct (lines !! ptr) as [l |] eqn:Hl; [| done]. cbn in Hp.
    destruct (seekForward _ _ _ _ _) as [st2 |] eqn:Hfw; [| done]. cbn in Hp.
    injection Hp as <-.
    pose proof (seekForward_general _ _ _ _ Htexts Hfw) as Hg.
    cbv zeta in Hg. cbn in Hg. destruct Hg as (Hh & Hstart & Hnum & Hd).
    set (d := countNewlines (hunkStringBuilder st2)) in *.
    assert (Hhi : hi < LineNum l /\
                  exists hi', Z.max (LineNum l) (LineNum l + d - 1) <= hi' /\
                    lastSeenLineNum st2 <= hi' /\
                    (1 <= ctxLines -> hi' = lastSeenLineNum st2) /\
                    (ctxLines <= 0 -> hi' = lineNumAt lines ref)).
    { destruct Hmode as [[Hc ->] | [Hc Hlt]].
      - pose proof (seekBack_no_append _ _ _ _ _ _ _ _ Hback eq_refl)
          as [_ Hfirst].
        destruct Hfirst as (l' & Hl' & Hlt); [lia |].
        rewrite Hl in Hl'. injection Hl' as <-. split; [done |].
        exists (lastSeenLineNum st2).
        split; [| split; [lia | split; [done | lia]]].
        destruct (Z.to_nat (nb + 1 + ctxLines)) as [| n] eqn:En; [lia |].
        cbn [seekForward] in Hfw. rewrite Hl in Hfw. cbn in Hfw.
        destruct (writeLine _ _ _) as [st1 |] eqn:Hw; [| done]. cbn in Hfw.
        assert (Hone : countNewlines (LineText l) = 0).
        { eapply (proj1 (Forall_forall _ _) Htexts), list_elem_of_lookup_2, Hl. }
        pose proof (writeLine_count _ _ _ Hone Hw) as Hc1. cbv zeta in Hc1.
        cbn in Hc1.
        pose proof (seekForward_general _ _ _ _ Htexts Hfw) as Hg.
        cbv zeta in Hg. destruct Hg as (_ & _ & _ & Hd2).
        destruct Hc1 as [_ [(_ & _ & Hle) | (Hd1 & _ & Hls1)]]; [lia |].
        fold d in Hd2. lia.
      - replace (Z.to_nat ctxLines) with 0%nat in Hback by lia.
        rewrite seekBack_zero in Hback. injection Hback as <- <-.
        rewrite (lineNumAt_lookup _ _ Hl) in *. split; [done |].
        exists (LineNum l). split; [| split; [| split; [lia | done]]].
        + destruct (Z.to_nat (0 + 1 + ctxLines)) as [| [| n]] eqn:En; [| | lia].
          * cbn in Hfw. injection Hfw as <-. subst d. cbn. lia.
          * cbn in Hfw. rewrite Hl in Hfw. cbn in Hfw.
            destruct (writeLine _ _ _) as [st1 |] eqn:Hw; [| done].
            cbn in Hfw. injection Hfw as ->.
            assert (Hone : countNewlines (LineText l) = 0).
            { eapply (proj1 (Forall_forall _ _) Htexts),
                list_elem_of_lookup_2, Hl. }
            pose proof (writeLine_count _ _ _ Hone Hw) as Hc1.
            cbv zeta in Hc1. cbn in Hc1. fold d in Hc1. lia.
        + destruct (Z.to_nat (0 + 1 + ctxLines)) as [| [| n]] eqn:En; [| | lia].
          * cbn in Hfw. injection Hfw as <-. cbn. lia.
          * cbn in Hfw. rewrite Hl in Hfw. cbn in Hfw.
            destruct (writeLine _ _ _) as [st1 |] eqn:Hw; [| done].
            cbn in Hfw. injection Hfw as ->.
            assert (Hone : countNewlines (LineText l) = 0).
            { eapply (proj1 (Forall_forall _ _) Htexts),
                list_elem_of_lookup_2, Hl. }
            pose proof (writeLine_count _ _ _ Hone Hw) as Hc1.
            cbv zeta in Hc1. cbn in Hc1.
            destruct Hc1 as [_ [(_ & -> & _) | (_ & _ & ->)]]; cbn; lia. }
    destruct Hhi as (Hlt & hi' & Hmax & Hls' & Hm1 & Hm0).
    exists hi'. unfold inv2. cbn.
    split; [| split; [done | split; [done | lia]]].
    rewrite Hh. cbn.
    split; [| split; [| split; [done |]]].
    + eapply hunksApart_snoc; [done | done |]. unfold hunkStart. cbn.
      by rewrite Hstart.
    + intros h0 [Hin | ->%list_elem_of_singleton]%elem_of_app.
      * destruct (Hb h0 Hin). lia.
      * unfold hunkStart, hunkEnd. cbn. rewrite Hstart. fold d. lia.
    + intros h0. rewrite last_snoc. by intros [= <-].
Qed.

Lemma inv2_init : inv2 initState (-1).
Proof.
  split; [by intros i j h1 h2 _ [=] |].
  split; [by intros h ?%elem_of_nil |]. split; [reflexivity | done].
Qed.

Lemma buildLoop_inv2 refs : forall st hi hs log,
  oneLineTexts lines ->
  inv2 st hi ->
  (1 <= ctxLines /\ hi = lastSeenLineNum st) \/
  (ctxLines <= 0 /\ StronglySorted Z.lt (map (lineNumAt lines) refs) /\
   Forall (fun r => hi < lineNumAt lines r) refs) ->
  buildLoop projKey flag file lines ctxLines refs st = Some (hs, log) ->
  hunksApart hs.
Proof.
  induction refs as [| ref refs IH]; intros st hi hs log Htexts Hinv Hmode Hb.
  { cbn in Hb. injection Hb as <- _. apply Hinv. }
  cbn [buildLoop] in Hb.
  destruct (processRef _ _ _ _ _ _) as [st' |] eqn:Hp; [| done]. cbn in Hb.
  destruct (processRef_inv2 _ _ _ _ Htexts Hinv Hp)
    as (hi' & Hinv' & Hm1 & Hm0 & _).
  { destruct Hmode as [? | (Hc & _ & Hall)]; [by left | right].
    split; [done |]. by apply Forall_cons in Hall as [? _]. }
  destruct (_ <? _).
  { injection Hb as <- _. apply Hinv'. }
  apply (IH st' hi' hs log Htexts Hinv'); [| done].
  destruct Hmode as [[Hc _] | (Hc & Hsorted & Hall)]; [left; auto |].
  right. split; [done |]. cbn [map] in Hsorted.
  apply StronglySorted_inv in Hsorted as [Hsorted Hfirst].
  split; [done |]. rewrite (Hm0 Hc).
  by rewrite Forall_map in Hfirst.
Qed.

End HunkerFacts.

(** The hunks of one flag in one file are apart and in strictly increasing
    order of their first line whenever at least one line of context is
    asked for, and for any number of context lines when the line numbers of
    the flag's matches are strictly increasing. *)
Theorem buildHunksForFlag_hunks_apart
  (projKey flag file : string) (lines : list searchResultLine)
  (ctxLines : Z) (refs : list nat) (hs : list HunkRep) (log : list logEvent)
  (Htexts : oneLineTexts lines)
  (Hmode : 1 <= ctxLines \/ matchesAscend lines refs)
  (Hbuild : buildHunksForFlag projKey flag file lines ctxLines refs
            = Some (hs, log)) :
  hunksApart hs.
Proof.
  destruct (Z.le_gt_cases 1 ctxLines) as [Hc | Hc].
  - eapply (buildLoop_inv2 _ _ _ _ _ _ _ (-1));
      [done | apply inv2_init | | done].
    left. done.
  - destruct Hmode as [? | [Hpos Hsorted]]; [lia |].
    eapply (buildLoop_inv2 _ _ _ _ _ _ _ (-1));
      [done | apply inv2_init | | done].
    right. split; [lia |]. split; [done |].
    eapply Forall_impl; [exact Hpos |]. cbn. lia.
Qed.

Lemma buildHunksForFlag_hunks_apart_witness :
  exists hs,
    buildHunksForFlag "default" "foo-flag" "a.go" twoMatches 1 [1; 4]%nat
    = Some (hs, []) /\
    length hs = 2%nat /\ hunksApart hs.
Proof.
  eexists. split; [vm_compute; reflexivity |]. split; [reflexivity |].
  eapply (buildHunksForFlag_hunks_apart "default" "foo-flag" "a.go"
            twoMatches 1 [1; 4]%nat).
  - repeat constructor.
  - left. lia.
  - vm_compute. reflexivity.
Defined.

(** C2 fails on the code.  Two results with the same line number are
    accepted as sorted.  Without context lines the seek backwards, which is
    where a reference inside the previous hunk is noticed, runs no step:
    the second reference starts a hunk of its own, at the line where the
    first hunk starts, and with no text.  With one line of context the
    same input extends the first hunk, as the notes in the code have it. *)
Lemma buildHunksForFlag_same_line_twice :
  makeReferenceHunksReps sameLineTwice "default" 0
  = Ok ([{| RepPath := "a.go";
            Hunks := [{| ProjKey := "default"; FlagKey := "foo-flag";
                         StartingLineNumber := 3; Lines := "L3
";
                         Aliases := [] |};
                      {| ProjKey := "default"; FlagKey := "foo-flag";
                         StartingLineNumber := 3; Lines := EmptyString;
                         Aliases := [] |}] |}], []) /\
  ~ hunksApart
      [{| ProjKey := "default"; FlagKey := "foo-flag";
          StartingLineNumber := 3; Lines := "L3
";
          Aliases := [] |};
       {| ProjKey := "default"; FlagKey := "foo-flag";
          StartingLineNumber := 3; Lines := EmptyString;
          Aliases := [] |}] /\
  makeReferenceHunksReps sameLineTwice "default" 1
  = Ok ([{| RepPath := "a.go";
            Hunks := [{| ProjKey := "default"; FlagKey := "foo-flag";
                         StartingLineNumber := 3; Lines := "L3
";
                         Aliases := [] |}] |}], []).
Proof.
  split; [vm_compute; reflexivity |]. split; [| vm_compute; reflexivity].
  intros H. destruct (H 0%nat 1%nat _ _ ltac:(lia) eq_refl eq_refl) as [H1 _].
  vm_compute in H1. discriminate.
Qed.

(** ** The limit of hunked lines per file and flag *)

Section Limit.
Context (projKey flag file : string) (lines : list searchResultLine)
        (ctxLines : Z).

Lemma seekForward_num n : forall ptr st st',
  seekForward flag lines n ptr st = Some st' ->
  numHunkedLines st <= numHunkedLines st'.
Proof.
  induction n as [| n IH]; intros ptr st st' Hf.
  { cbn in Hf. injection Hf as <-. lia. }
  cbn [seekForward] in Hf.
  destruct (lines !! ptr) as [l |]; [| done]. cbn in Hf.
  destruct (writeLine flag l st) as [st1 |] eqn:Hw; [| done]. cbn in Hf.
  apply IH in Hf.
  apply writeLine_cases in Hw as (_ & _ & [[_ ->] | (_ & _ & Hn & _)]); lia.
Qed.

Lemma processRef_num st ref st' :
  processRef projKey flag lines ctxLines st ref = Some st' ->
  numHunkedLines st <= numHunkedLines st'.
Proof.
  unfold processRef.
  destruct (seekBack _ _ _ _ _ _) as [[[ptr nb] app] |]; [| done]. cbn.
  destruct app; cbn.
  - destruct (seekForward _ _ _ _ _) as [st2 |] eqn:Hfw; [| done]. cbn.
    apply seekForward_num in Hfw. unfold finishHunk.
    destruct (setPreviousLines _ _); [| done]. cbn. intros [= <-]. done.
  - destruct (lines !! ptr) as [l |]; [| done]. cbn.
    destruct (seekForward _ _ _ _ _) as [st2 |] eqn:Hfw; [| done]. cbn.
    apply seekForward_num in Hfw. intros [= <-]. done.
Qed.

Lemma runRefs_num refs : forall st st',
  runRefs projKey flag lines ctxLines refs st = Some st' ->
  numHunkedLines st <= numHunkedLines st'.
Proof.
  induction refs as [| r refs IH]; intros st st' Hr.
  { cbn in Hr. injection Hr as <-. lia. }
  cbn [runRefs] in Hr.
  destruct (processRef _ _ _ _ _ _) as [st1 |] eqn:Hp; [| done]. cbn in Hr.
  apply processRef_num in Hp. apply IH in Hr. lia.
Qed.

(** While the limit is not exceeded the loop goes through the references. *)
Lemma buildLoop_app pre : forall rest st st0,
  runRefs projKey flag lines ctxLines pre st = Some st0 ->
  numHunkedLines st0 <= maxHunkedLinesPerFileAndFlagCount ->
  buildLoop projKey flag file lines ctxLines (pre ++ rest) st
  = buildLoop projKey flag file lines ctxLines rest st0.
Proof.
  induction pre as [| r pre IH]; intros rest st st0 Hr Hle.
  { cbn in Hr. by injection Hr as <-. }
  cbn [runRefs] in Hr. cbn [app buildLoop].
  destruct (processRef _ _ _ _ _ _) as [st1 |] eqn:Hp; [| done]. cbn in *.
  pose proof (runRefs_num _ _ _ Hr).
  destruct (Z.ltb_spec maxHunkedLinesPerFileAndFlagCount (numHunkedLines st1));
    [lia |].
  by apply IH.
Qed.

Lemma buildLoop_stops pre ref post st0 st1 :
  runRefs projKey flag lines ctxLines pre initState = Some st0 ->
  numHunkedLines st0 <= maxHunkedLinesPerFileAndFlagCount ->
  processRef projKey flag lines ctxLines st0 ref = Some st1 ->
  maxHunkedLinesPerFileAndFlagCount < numHunkedLines st1 ->
  buildHunksForFlag projKey flag file lines ctxLines (pre ++ ref :: post)
  = Some (hunks st1, [limitWarning st1 file flag]).
Proof.
  intros Hpre Hle Hp Hgt. unfold buildHunksForFlag.
  rewrite (buildLoop_app _ _ _ _ Hpre Hle). cbn [buildLoop]. rewrite Hp. cbn.
  destruct (Z.ltb_spec maxHunkedLinesPerFileAndFlagCount (numHunkedLines st1));
    [done | lia].
Qed.

End Limit.

Lemma hunkRepsLoop_spec projKey fsr ctxLines entries :
  forall hunks0 log0 hs log,
  hunkRepsLoop projKey fsr ctxLines entries hunks0 log0 = Some (hs, log) ->
  (forall h, h ∈ hunks0 -> h ∈ hs) /\
  (forall e, e ∈ log0 -> e ∈ log) /\
  forall flagKey refs, (flagKey, refs) ∈ entries ->
    exists fh l,
      buildHunksForFlag projKey flagKey (path fsr)
        (fileSearchResultLines fsr) ctxLines refs = Some (fh, l) /\
      (forall h, h ∈ fh -> h ∈ hs) /\ (forall e, e ∈ l -> e ∈ log).
Proof.
  induction entries as [| [k refs] entries IH]; intros hunks0 log0 hs log Hl.
  { cbn in Hl. injection Hl as <- <-. split; [done |]. split; [done |].
    by intros ? ? ?%elem_of_nil. }
  cbn [hunkRepsLoop] in Hl.
  destruct (buildHunksForFlag _ _ _ _ _ _) as [[fh l] |] eqn:Hb; [| done].
  cbn in Hl. apply IH in Hl as (Hh & Hlog & Hrest).
  split; [intros h Hin; apply Hh, elem_of_app; by left |].
  split; [intros e Hin; apply Hlog, elem_of_app; by left |].
  intros flagKey refs' [[= -> ->] | Hin]%elem_of_cons.
  - exists fh, l. split; [done |].
    split; [intros h Hin; apply Hh, elem_of_app; by right
           | intros e Hin; apply Hlog, elem_of_app; by right].
  - by apply Hrest.
Qed.

(** C6: when the count of lines written for a file and a flag exceeds 500
    after a reference, the hunks built up to and with that reference are the
    flag's hunks and the warning is logged; the later references of the flag
    are not looked at; and every flag of the file, this one and the others,
    has its hunks in the hunks of the file. *)
Theorem buildHunksForFlag_limit_stops_flag_only
  (fsr : fileSearchResults) (projKey flag : string) (ctxLines : Z)
  (pre post : list nat) (ref : nat) (st0 st1 : bhState)
  (hs : list HunkRep) (log : list logEvent)
  (Hflag : flagReferenceMap fsr !! flag = Some (pre ++ ref :: post))
  (Hpre : runRefs projKey flag (fileSearchResultLines fsr) ctxLines pre
            initState = Some st0)
  (Hbelow : numHunkedLines st0 <= maxHunkedLinesPerFileAndFlagCount)
  (Href : processRef projKey flag (fileSearchResultLines fsr) ctxLines st0 ref
          = Some st1)
  (Hover : maxHunkedLinesPerFileAndFlagCount < numHunkedLines st1)
  (Hfile : makeHunkReps fsr projKey ctxLines = Some (hs, log)) :
  buildHunksForFlag projKey flag (path fsr) (fileSearchResultLines fsr)
    ctxLines (pre ++ ref :: post)
  = Some (hunks st1, [limitWarning st1 (path fsr) flag]) /\
  (forall h, h ∈ hunks st1 -> h ∈ hs) /\
  limitWarning st1 (path fsr) flag ∈ log /\
  (forall flag' refs', flagReferenceMap fsr !! flag' = Some refs' ->
     exists fh l,
       buildHunksForFlag projKey flag' (path fsr) (fileSearchResultLines fsr)
         ctxLines refs' = Some (fh, l) /\
       (forall h, h ∈ fh -> h ∈ hs) /\ (forall e, e ∈ l -> e ∈ log)).
Proof.
  pose proof (buildLoop_stops projKey flag (path fsr) _ ctxLines
                pre ref post st0 st1 Hpre Hbelow Href Hover) as Hstop.
  apply hunkRepsLoop_spec in Hfile as (_ & _ & Hall).
  assert (Hflags : forall flag' refs',
    flagReferenceMap fsr !! flag' = Some refs' ->
    exists fh l,
      buildHunksForFlag projKey flag' (path fsr) (fileSearchResultLines fsr)
        ctxLines refs' = Some (fh, l) /\
      (forall h, h ∈ fh -> h ∈ hs) /\ (forall e, e ∈ l -> e ∈ log)).
  { intros flag' refs' Hl. apply Hall. by apply elem_of_map_to_list. }
  split; [done |].
  destruct (Hflags _ _ Hflag) as (fh & l & Hb & Hh & Hl).
  rewrite Hstop in Hb. injection Hb as <- <-.
  split; [done |]. split; [apply Hl; by left | done].
Qed.

Lemma buildHunksForFlag_limit_stops_flag_only_witness :
  buildHunksForFlag "default" "f" "big.go" longFileLines 0
    (seq 0 500 ++ 500%nat :: [501%nat])
  = Some (hunks longFileOver, [WarnHunkedLines 501 "big.go" "f"]) /\
  length (hunks longFileOver) = 501%nat /\
  length (fst longFileHunks) = 502%nat.
Proof.
  split; [| split; vm_compute; reflexivity].
  refine (proj1 (buildHunksForFlag_limit_stops_flag_only longFile "default"
                   "f" 0 (seq 0 500) [501%nat] 500%nat
                   longFileBelow longFileOver
                   (fst longFileHunks) (snd longFileHunks) _ _ _ _ _ _)).
  - vm_compute. reflexivity.
  - vm_compute. reflexivity.
  - vm_compute. discriminate.
  - vm_compute. reflexivity.
  - vm_compute. reflexivity.
  - vm_compute. reflexivity.
Defined.

(** ** The limit of hunks over all files *)

Lemma totalHunks_app reps1 reps2 :
  totalHunks (reps1 ++ reps2) = totalHunks reps1 + totalHunks reps2.
Proof.
  unfold totalHunks. induction reps1 as [| r reps1 IH]; [reflexivity |].
  cbn [app foldr]. rewrite IH. lia.
Qed.

Lemma totalHunks_snoc reps file hunks :
  totalHunks (reps ++ [{| RepPath := file; Hunks := hunks |}])
  = totalHunks reps + Z.of_nat (length hunks).
Proof. rewrite totalHunks_app. unfold totalHunks. cbn. lia. Qed.

(** Once the total is over the limit, the files that follow add nothing. *)
Lemma repsLoop_stop projKey ctxLines pre : forall post n s reps0 log0 reps log,
  n = totalHunks reps0 ->
  repsLoop projKey ctxLines pre n s reps0 log0 = Some (reps, log) ->
  maxHunkCount < totalHunks reps ->
  exists log',
    repsLoop projKey ctxLines (pre ++ post) n s reps0 log0 = Some (reps, log')
    /\ (post <> [] -> WarnHunkCount (totalHunks reps) ∈ log').
Proof.
  induction pre as [| fsr pre IH]; intros post n s reps0 log0 reps log Hn Hr Hov.
  { cbn in Hr. injection Hr as <- <-. destruct post as [| fsr post].
    - exists log0. split; [reflexivity | done].
    - cbn [app repsLoop].
      destruct (Z.ltb_spec maxHunkCount n); [| lia].
      eexists. split; [reflexivity |]. intros _. rewrite <- Hn.
      apply elem_of_app. right. by left. }
  cbn [app repsLoop] in *.
  destruct (Z.ltb_spec maxHunkCount n).
  { injection Hr as <- <-. eexists. split; [reflexivity |]. intros _.
    rewrite <- Hn. apply elem_of_app. right. by left. }
  destruct (makeHunkReps fsr projKey ctxLines) as [[hunks l] |]; [| done].
  cbn in *. destruct (_ && _).
  - by eapply IH.
  - eapply IH; [| done | done]. by rewrite totalHunks_snoc, Hn.
Qed.

(** Every file of the output was begun with the total at most at the limit. *)
Lemma repsLoop_begun projKey ctxLines files : forall n s reps0 log0 reps log,
  n = totalHunks reps0 ->
  (forall k rep, reps0 !! k = Some rep ->
                 totalHunks (take k reps0) <= maxHunkCount) ->
  repsLoop projKey ctxLines files n s reps0 log0 = Some (reps, log) ->
  forall k rep, reps !! k = Some rep ->
                totalHunks (take k reps) <= maxHunkCount.
Proof.
  induction files as [| fsr files IH]; intros n s reps0 log0 reps log Hn H0 Hr.
  { cbn in Hr. by injection Hr as <- <-. }
  cbn [repsLoop] in Hr.
  destruct (Z.ltb_spec maxHunkCount n); [by injection Hr as <- <- |].
  destruct (makeHunkReps fsr projKey ctxLines) as [[hunks l] |]; [| done].
  cbn in Hr. destruct (_ && _).
  - by eapply IH.
  - eapply IH; [| | done].
    + by rewrite totalHunks_snoc, Hn.
    + intros k rep Hk.
      destruct (decide (k < length reps0)%nat) as [Hlt | Hge].
      * rewrite lookup_app_l in Hk by done.
        rewrite take_app_le by lia. by eapply H0.
      * apply lookup_lt_Some in Hk as Hlen. rewrite length_app in Hlen.
        cbn in Hlen. replace k with (length reps0) by lia.
        rewrite take_app_length. lia.
Qed.

(** C7: when the hunks of the files looked at so far are more than 25000,
    the files that follow contribute nothing, whatever they are, and the
    warning is logged if there is one; and every file of the output was begun
    while the total was at most 25000. *)
Theorem repsLoop_stops_over_maxHunkCount
  (projKey : string) (ctxLines : Z) (pre post : list fileSearchResults)
  (log0 : list logEvent) (reps : list ReferenceHunksRep)
  (log : list logEvent)
  (Hrun : repsLoop projKey ctxLines pre 0 false [] log0 = Some (reps, log))
  (Hover : maxHunkCount < totalHunks reps) :
  (exists log',
     repsLoop projKey ctxLines (pre ++ post) 0 false [] log0
     = Some (reps, log') /\
     (post <> [] -> WarnHunkCount (totalHunks reps) ∈ log')) /\
  (forall k rep, reps !! k = Some rep ->
                 totalHunks (take k reps) <= maxHunkCount).
Proof.
  split.
  - by eapply repsLoop_stop.
  - eapply repsLoop_begun; [| | exact Hrun]; [reflexivity | done].
Qed.

Lemma repsLoop_stops_over_maxHunkCount_witness :
  totalHunks (fst manyFilesReps) = 26000 /\
  exists log',
    repsLoop "default" (-1) (manyFiles ++ [thousandMatches 26]) 0 false [] []
    = Some (fst manyFilesReps, log') /\
    WarnHunkCount 26000 ∈ log'.
Proof.
  assert (Htotal : totalHunks (fst manyFilesReps) = 26000)
    by (vm_compute; reflexivity).
  split; [exact Htotal |].
  destruct (proj1 (repsLoop_stops_over_maxHunkCount "default" (-1) manyFiles
                     [thousandMatches 26] [] (fst manyFilesReps)
                     (snd manyFilesReps)
                     ltac:(vm_compute; reflexivity)
                     ltac:(vm_compute; reflexivity)))
    as (log' & Hrun & Hwarn).
  exists log'. split; [exact Hrun |]. rewrite <- Htotal. by apply Hwarn.
Defined.

(** ** The hunk builder on consecutive context *)

Section Contiguous.
Context (projKey flag file : string) (lines : list searchResultLine)
        (ctxLines : Z).
Context (Hasc : oneResultPerLine lines = true)
        (Htexts : oneLineTexts lines)
        (HC : 0 <= ctxLines).

Local Abbreviation ln := (lineNumAt lines).
Local Abbreviation Cn := (Z.to_nat ctxLines).

Lemma ascendingFrom_above prev ls i l :
  ascendingFrom prev ls = true -> ls !! i = Some l -> prev < LineNum l.
Proof.
  revert prev i. induction ls as [| l0 ls IH]; intros prev i Ha Hl; [done |].
  cbn in Ha. apply andb_true_iff in Ha as [Hp%Z.ltb_lt Ha].
  destruct i as [| i]; [by injection Hl as <- |].
  cbn in Hl. specialize (IH _ _ Ha Hl). lia.
Qed.

Lemma ascendingFrom_lt prev ls i j li lj :
  ascendingFrom prev ls = true -> (i < j)%nat ->
  ls !! i = Some li -> ls !! j = Some lj -> LineNum li < LineNum lj.
Proof.
  revert prev i j. induction ls as [| l0 ls IH]; intros prev i j Ha Hij Hi Hj;
    [done |].
  cbn in Ha. apply andb_true_iff in Ha as [_ Ha].
  destruct j as [| j]; [lia |]. cbn in Hj. destruct i as [| i].
  - injection Hi as <-. by eapply ascendingFrom_above.
  - cbn in Hi. eapply (IH _ i j); [done | lia | done | done].
Qed.

Lemma lookup_ln i :
  (i < length lines)%nat -> exists l, lines !! i = Some l /\ LineNum l = ln i.
Proof.
  intros Hi. destruct (lookup_lt_is_Some_2 lines i Hi) as [l Hl].
  exists l. split; [done |]. unfold lineNumAt. by rewrite Hl.
Qed.

Lemma ln_strict i j :
  (i < j)%nat -> (j < length lines)%nat -> ln i < ln j.
Proof.
  intros Hij Hj.
  destruct (lookup_ln i) as (li & Hi & <-); [lia |].
  destruct (lookup_ln j) as (lj & Hj' & <-); [lia |].
  exact (ascendingFrom_lt _ _ _ _ _ _ Hasc Hij Hi Hj').
Qed.

Lemma ln_mono i j :
  (i <= j)%nat -> (j < length lines)%nat -> ln i <= ln j.
Proof.
  intros Hij Hj. destruct (decide (i = j)) as [-> | Hne]; [lia |].
  pose proof (ln_strict i j). lia.
Qed.

Lemma ln_nonneg i : (i < length lines)%nat -> 0 <= ln i.
Proof.
  intros Hi. destruct (lookup_ln i Hi) as (l & Hl & <-).
  pose proof (ascendingFrom_above _ _ _ _ Hasc Hl). lia.
Qed.

Lemma contextAround_spec c r i :
  contextAround c lines r = true ->
  (r - c <= i)%nat -> (S i <= r + c)%nat -> (S i < length lines)%nat ->
  ln (S i) = ln i + 1.
Proof.
  intros Hc Hlo Hhi Hlen. unfold contextAround in Hc.
  rewrite forallb_forall in Hc. specialize (Hc i).
  destruct (lookup_ln i) as (a & Ha & <-); [lia |].
  destruct (lookup_ln (S i)) as (b & Hb & <-); [lia |].
  rewrite Ha, Hb in Hc. apply Z.eqb_eq, Hc, in_seq. lia.
Qed.

(** The backward seek goes back by [n] positions, down to the first one,
    and asks to extend the previous hunk exactly when the line it reaches is
    not beyond the last seen. *)
Lemma seekBack_spec lastSeen n : forall ptr num app,
  (ptr < length lines)%nat ->
  exists app',
    seekBack lines lastSeen n ptr num app
    = Some ((ptr - n)%nat, num + Z.of_nat (min n ptr), app') /\
    (app' = true <->
     app = true \/ ((0 < n)%nat /\ ln (ptr - n) <= lastSeen)).
Proof.
  induction n as [| n IH]; intros ptr num app Hptr.
  { exists app. cbn. rewrite Nat.sub_0_r, Z.add_0_r. split; [done |].
    split; [by left | intros [? | [? _]]; [done | lia]]. }
  cbn [seekBack]. destruct ptr as [| p].
  - destruct (lookup_ln 0 Hptr) as (l & Hl & Hln). rewrite Hl. cbn.
    destruct (IH 0%nat num (if LineNum l <=? lastSeen then true else app) Hptr)
      as (app' & -> & Happ).
    exists app'. rewrite Nat.min_0_r in *. split.
    { replace (0 - S n)%nat with (0 - n)%nat by lia. done. }
    rewrite Happ. replace (0 - S n)%nat with 0%nat by lia.
    replace (0 - n)%nat with 0%nat by lia. rewrite <- Hln.
    destruct (Z.leb_spec (LineNum l) lastSeen); split.
    + intros _. right. split; lia.
    + intros _. by left.
    + intros [? | [? ?]]; [by left | right; split; [lia | done]].
    + intros [? | [_ ?]]; [by left | lia].
  - assert (p < length lines)%nat as Hp by lia.
    destruct (lookup_ln p Hp) as (l & Hl & Hln). rewrite Hl. cbn.
    destruct (IH p (num + 1) (if LineNum l <=? lastSeen then true else app) Hp)
      as (app' & -> & Happ).
    exists app'. split.
    { do 3 f_equal. lia. }
    rewrite Happ. cbn [Nat.sub]. pose proof (ln_mono (p - n) p ltac:(lia) Hp).
    destruct (Z.leb_spec (LineNum l) lastSeen); split.
    + intros _. right. split; [lia | lia].
    + intros _. by left.
    + intros [? | [? ?]]; [by left | right; split; [lia | done]].
    + intros [? | [_ ?]]; [by left |].
      destruct n as [| n]; [rewrite Nat.sub_0_r in *; lia |].
      right. split; [lia | done].
Qed.

Lemma next_inside ptr : (S ptr < length lines)%nat -> next lines ptr = S ptr.
Proof. intros H. unfold next. by destruct (decide _). Qed.

Lemma next_last ptr : ~ (S ptr < length lines)%nat -> next lines ptr = ptr.
Proof. intros H. unfold next. by destruct (decide _). Qed.

Lemma writeLine_max l st st' :
  writeLine flag l st = Some st' ->
  countNewlines (LineText l) = 0 ->
  lastSeenLineNum st' = Z.max (lastSeenLineNum st) (LineNum l) /\
  countNewlines (hunkStringBuilder st')
  = countNewlines (hunkStringBuilder st)
    + (lastSeenLineNum st' - Z.max (lastSeenLineNum st) (LineNum l - 1)).
Proof.
  intros Hw Hone. pose proof (writeLine_count _ _ _ _ Hone Hw) as Hc.
  cbv zeta in Hc. destruct Hc as [_ [(Hd & -> & Hle) | (Hd & Hlt & Hls)]]; lia.
Qed.

(** At the last position, with its line seen, the walk changes nothing. *)
Lemma seekForward_stuck n : forall ptr st,
  S ptr = length lines -> ln ptr <= lastSeenLineNum st ->
  seekForward flag lines n ptr st = Some st.
Proof.
  induction n as [| n IH]; intros ptr st Hptr Hseen; [reflexivity |].
  cbn [seekForward].
  destruct (lookup_ln ptr) as (l & Hl & Hln); [lia |]. rewrite Hl. cbn.
  unfold writeLine.
  destruct (Z.ltb_spec (lastSeenLineNum st) (LineNum l)); [lia |]. cbn.
  rewrite next_last by lia. by apply IH.
Qed.

(** Over consecutive lines the forward walk writes the lines beyond the last
    seen one: the last seen line becomes the line of the last position
    reached, and the builder grows by the lines in between. *)
Lemma seekForward_contig n : forall ptr st st',
  (ptr < length lines)%nat ->
  (forall i, (ptr <= i)%nat -> (S i <= ptr + n)%nat ->
             (S i < length lines)%nat -> ln (S i) = ln i + 1) ->
  seekForward flag lines (S n) ptr st = Some st' ->
  lastSeenLineNum st'
  = Z.max (lastSeenLineNum st) (ln (min (ptr + n) (length lines - 1))) /\
  countNewlines (hunkStringBuilder st')
  = countNewlines (hunkStringBuilder st)
    + (lastSeenLineNum st' - Z.max (lastSeenLineNum st) (ln ptr - 1)).
Proof.
  induction n as [| n IH]; intros ptr st st' Hptr Hctx Hf.
  - cbn [seekForward] in Hf.
    destruct (lookup_ln ptr Hptr) as (l & Hl & Hln). rewrite Hl in Hf.
    cbn in Hf. destruct (writeLine flag l st) as [st1 |] eqn:Hw; [| done].
    cbn in Hf. injection Hf as <-.
    assert (Hone : countNewlines (LineText l) = 0).
    { eapply (proj1 (Forall_forall _ _) Htexts), list_elem_of_lookup_2, Hl. }
    replace (min (ptr + 0) (length lines - 1)) with ptr by lia.
    rewrite <- Hln. by apply writeLine_max.
  - remember (S n) as n1 eqn:En1. cbn [seekForward] in Hf.
    destruct (lookup_ln ptr Hptr) as (l & Hl & Hln). rewrite Hl in Hf.
    cbn in Hf. destruct (writeLine flag l st) as [st1 |] eqn:Hw; [| done].
    cbn in Hf.
    assert (Hone : countNewlines (LineText l) = 0).
    { eapply (proj1 (Forall_forall _ _) Htexts), list_elem_of_lookup_2, Hl. }
    destruct (writeLine_max _ _ _ Hw Hone) as [Hls1 Hcn1]. rewrite Hln in *.
    destruct (decide (S ptr < length lines)%nat) as [Hin | Hout].
    + rewrite next_inside in Hf by done. subst n1.
      destruct (IH (S ptr) st1 st' Hin) as [Hls' Hcn']; [| done |].
      { intros i Hi1 Hi2 Hi3. apply Hctx; lia. }
      pose proof (Hctx ptr ltac:(lia) ltac:(lia) Hin) as Hstep.
      replace (min (S ptr + n) (length lines - 1))
        with (min (ptr + S n) (length lines - 1)) in Hls' by lia.
      pose proof (ln_mono ptr (min (ptr + S n) (length lines - 1))
                    ltac:(lia) ltac:(lia)).
      split; lia.
    + rewrite next_last in Hf by done.
      rewrite seekForward_stuck in Hf by lia. injection Hf as <-.
      replace (min (ptr + n1) (length lines - 1)) with ptr by lia.
      split; lia.
Qed.

Lemma ln_contig c r a b :
  contextAround c lines r = true ->
  (r - c <= a)%nat -> (a <= b)%nat -> (b <= r + c)%nat ->
  (b < length lines)%nat ->
  ln b = ln a + Z.of_nat (b - a).
Proof.
  intros Hc Ha Hab Hb Hlen. induction b as [| b IH].
  - replace a with 0%nat by lia. cbn. lia.
  - destruct (decide (a = S b)) as [-> | Hne].
    + rewrite Nat.sub_diag. cbn. lia.
    + rewrite (contextAround_spec c r b Hc) by lia.
      rewrite IH by lia. lia.
Qed.

(** What a reference does to the state when its context is consecutive:
    it extends the previous hunk up to the last line of its context, or it
    adds the hunk of its context. *)
Lemma processRef_shape st ref st' :
  (ref < length lines)%nat ->
  contextAround Cn lines ref = true ->
  processRef projKey flag lines ctxLines st ref = Some st' ->
  lastSeenLineNum st'
  = Z.max (lastSeenLineNum st) (ln (min (ref + Cn) (length lines - 1))) /\
  (((0 < Cn)%nat /\ ln (ref - Cn) <= lastSeenLineNum st /\
    exists hs0 h,
      hunks st = hs0 ++ [h] /\
      hunks st' = hs0 ++ [setLines h (hunkStringBuilder st')] /\
      countNewlines (hunkStringBuilder st')
      = countNewlines (hunkStringBuilder st)
        + (lastSeenLineNum st' - lastSeenLineNum st)) \/
   (((0 < Cn)%nat -> lastSeenLineNum st < ln (ref - Cn)) /\
    exists cur,
      hunks st' = hunks st ++ [cur] /\
      hunkStart cur = ln (ref - Cn) /\
      Lines cur = hunkStringBuilder st' /\
      countNewlines (hunkStringBuilder st')
      = lastSeenLineNum st'
        - Z.max (lastSeenLineNum st) (ln (ref - Cn) - 1))).
Proof.
  intros Hvalid Hctx Hp. unfold processRef in Hp.
  destruct (seekBack_spec (lastSeenLineNum st) Cn ref 0 false Hvalid)
    as (app & Hback & Happ).
  rewrite Hback in Hp. cbn in Hp.
  replace (Z.to_nat (0 + Z.of_nat (min Cn ref) + 1 + ctxLines))
    with (S (min Cn ref + Cn)) in Hp by lia.
  remember (S (min Cn ref + Cn)) as steps eqn:Hsteps.
  assert (Hrange : forall i, (ref - Cn <= i)%nat ->
            (S i <= ref - Cn + (min Cn ref + Cn))%nat ->
            (S i < length lines)%nat -> ln (S i) = ln i + 1).
  { intros i H1 H2 H3. apply (contextAround_spec Cn ref i Hctx); lia. }
  assert (Hend : min (ref - Cn + (min Cn ref + Cn)) (length lines - 1)
                 = min (ref + Cn) (length lines - 1)) by lia.
  destruct app.
  - destruct (proj1 Happ eq_refl) as [? | [Hpos Hseen]]; [done |].
    cbn in Hp.
    destruct (seekForward _ _ _ _ _) as [st2 |] eqn:Hfw; [| done]. cbn in Hp.
    rewrite Hsteps in Hfw.
    destruct (seekForward_contig (min Cn ref + Cn) (ref - Cn) _ _
                ltac:(lia) Hrange Hfw) as [Hls Hcn].
    destruct (seekForward_general _ _ _ _ _ _ Htexts Hfw) as (Hh & _).
    rewrite Hend in Hls. unfold finishHunk in Hp.
    destruct (setPreviousLines _ _) as [hs' |] eqn:Hset; [| done].
    cbn in Hp. injection Hp as <-. cbn.
    apply setPreviousLines_Some in Hset as (hs0 & h & Hhs & ->).
    split; [done |]. left. split; [done |]. split; [done |].
    exists hs0, h. rewrite <- Hh. split; [done |]. split; [done |]. lia.
  - assert (Hnew : (0 < Cn)%nat -> lastSeenLineNum st < ln (ref - Cn)).
    { intros Hpos. destruct (Z.le_gt_cases (ln (ref - Cn)) (lastSeenLineNum st));
        [| lia].
      assert (false = true); [| done]. apply Happ. right. done. }
    destruct (lookup_ln (ref - Cn)) as (l & Hl & Hln); [lia |].
    rewrite Hl in Hp. cbn in Hp.
    destruct (seekForward _ _ _ _ _) as [st2 |] eqn:Hfw; [| done]. cbn in Hp.
    rewrite Hsteps in Hfw.
    destruct (seekForward_contig (min Cn ref + Cn) (ref - Cn) _ _
                ltac:(lia) Hrange Hfw) as [Hls Hcn].
    destruct (seekForward_general _ _ _ _ _ _ Htexts Hfw) as (Hh & Hs & _).
    rewrite Hend in Hls. cbn in Hls, Hcn, Hh, Hs.
    injection Hp as <-. cbn. split; [done |]. right. split; [done |].
    eexists. split; [by rewrite Hh |]. unfold hunkStart. cbn.
    split; [by rewrite Hs |]. split; [done |]. lia.
Qed.

Lemma inv1_init : inv1 lines ctxLines [] initState 0.
Proof.
  split; [constructor |]. split.
  { intros i _ Hi. pose proof (ln_nonneg i Hi). cbn. lia. }
  split; [done |]. split; [by intros r ?%elem_of_nil |].
  by intros h ?%elem_of_nil.
Qed.

Lemma processRef_inv1 done st m ref st' :
  inv1 lines ctxLines done st m ->
  (m <= ref)%nat -> (ref < length lines)%nat ->
  contextAround Cn lines ref = true ->
  processRef projKey flag lines ctxLines st ref = Some st' ->
  inv1 lines ctxLines (done ++ [ref]) st' (S ref).
Proof.
  intros (Hdone & Hunseen & Hlast & Hcov & Hext) Hm Hvalid Hctx Hp.
  destruct (processRef_shape _ _ _ Hvalid Hctx Hp) as [Hls Hshape].
  set (e := min (ref + Cn) (length lines - 1)) in *.
  assert (He : ln e = ln ref + Z.of_nat (e - ref))
    by (apply (ln_contig Cn ref); [done | lia | lia | lia | lia]).
  assert (Hptr : ln ref = ln (ref - Cn) + Z.of_nat (ref - (ref - Cn)))
    by (apply (ln_contig Cn ref); [done | lia | lia | lia | lia]).
  assert (Hdone' : Forall (fun r => (r < S ref)%nat /\ (r < length lines)%nat)
                          (done ++ [ref])).
  { apply Forall_app. split; [| by repeat constructor; lia].
    eapply Forall_impl; [exact Hdone |]. cbn. lia. }
  assert (Hunseen' : forall i, (S ref + Cn <= i)%nat ->
            (i < length lines)%nat -> lastSeenLineNum st' < ln i).
  { intros i Hi Hlen. rewrite Hls.
    pose proof (Hunseen i ltac:(lia) Hlen).
    pose proof (ln_strict e i ltac:(lia) Hlen). lia. }
  assert (Hbefore : forall r, r ∈ done -> ln r <= ln ref).
  { intros r Hr. apply (proj1 (Forall_forall _ _) Hdone) in Hr as [? ?].
    apply ln_mono; lia. }
  split; [done |]. split; [done |].
  destruct Hshape as [(Hpos & Hseen & hs0 & h & Hhs & Hhs' & Hcn)
                     | (Hnew & cur & Hhs' & Hstart & Hlines & Hcn)].
  - (* the previous hunk is extended *)
    destruct (Hlast h) as [Hl Hend]; [rewrite Hhs; apply last_snoc |].
    set (h' := setLines h (hunkStringBuilder st')) in *.
    assert (Hstart' : hunkStart h' = hunkStart h) by reflexivity.
    assert (Hend' : hunkEnd h' = lastSeenLineNum st').
    { unfold hunkEnd in *. cbn. rewrite Hl in Hend. lia. }
    destruct (Hext h) as (r1 & r2 & Hr1 & Hr2 & Hb1 & Hb2);
      [rewrite Hhs; apply elem_of_app; right; by left |].
    rewrite Hhs'. split; [| split].
    + intros h0. rewrite last_snoc. by intros [= <-].
    + intros r [Hr | ->%list_elem_of_singleton]%elem_of_app.
      * destruct (Hcov r Hr) as (h0 & Hin & Hc). rewrite Hhs in Hin.
        apply elem_of_app in Hin as [Hin | ->%list_elem_of_singleton].
        -- exists h0. split; [apply elem_of_app; by left | done].
        -- exists h'. split; [apply elem_of_app; right; by left |].
           unfold covers in *. lia.
      * exists h'. split; [apply elem_of_app; right; by left |].
        unfold covers. pose proof (Hbefore r1 Hr1). lia.
    + intros h0 [Hin | ->%list_elem_of_singleton]%elem_of_app.
      * destruct (Hext h0) as (a & b & Ha & Hb & ? & ?);
          [rewrite Hhs; apply elem_of_app; by left |].
        exists a, b. split; [apply elem_of_app; by left |].
        split; [apply elem_of_app; by left | done].
      * destruct (Z.le_gt_cases (ln e) (lastSeenLineNum st)).
        -- exists r1, r2. split; [apply elem_of_app; by left |].
           split; [apply elem_of_app; by left |]. lia.
        -- exists r1, ref. split; [apply elem_of_app; by left |].
           split; [apply elem_of_app; right; by left |]. lia.
  - (* a new hunk *)
    assert (Hlt : lastSeenLineNum st < ln (ref - Cn)).
    { destruct (decide (0 < Cn)%nat) as [Hpos | Hzero]; [by apply Hnew |].
      replace (ref - Cn)%nat with ref by lia. apply Hunseen; lia. }
    pose proof (ln_mono (ref - Cn) e ltac:(lia) ltac:(lia)) as Hpe.
    assert (Hend' : hunkEnd cur = lastSeenLineNum st').
    { unfold hunkEnd, hunkStart in *. rewrite Hlines, Hstart. lia. }
    rewrite Hhs'. split; [| split].
    + intros h0. rewrite last_snoc. by intros [= <-].
    + intros r [Hr | ->%list_elem_of_singleton]%elem_of_app.
      * destruct (Hcov r Hr) as (h0 & Hin & Hc).
        exists h0. split; [apply elem_of_app; by left | done].
      * exists cur. split; [apply elem_of_app; right; by left |].
        unfold covers. lia.
    + intros h0 [Hin | ->%list_elem_of_singleton]%elem_of_app.
      * destruct (Hext h0 Hin) as (a & b & Ha & Hb & ? & ?).
        exists a, b. split; [apply elem_of_app; by left |].
        split; [apply elem_of_app; by left | done].
      * exists ref, ref. split; [apply elem_of_app; right; by left |].
        split; [apply elem_of_app; right; by left |]. lia.
Qed.

Lemma runRefs_inv1 refs : forall done st m st',
  inv1 lines ctxLines done st m ->
  refsFrom m (length lines) refs = true ->
  forallb (contextAround Cn lines) refs = true ->
  runRefs projKey flag lines ctxLines refs st = Some st' ->
  exists m', inv1 lines ctxLines (done ++ refs) st' m'.
Proof.
  induction refs as [| ref refs IH]; intros done st m st' Hinv Hrefs Hctx Hr.
  { cbn in Hr. injection Hr as <-. exists m. by rewrite app_nil_r. }
  cbn [runRefs] in Hr.
  destruct (processRef _ _ _ _ _ _) as [st1 |] eqn:Hp; [| done]. cbn in Hr.
  cbn in Hrefs, Hctx.
  apply andb_true_iff in Hrefs as [[Hlo%Nat.leb_le Hhi%Nat.ltb_lt]%andb_true_iff
                                     Hrefs].
  apply andb_true_iff in Hctx as [Hc Hctx].
  pose proof (processRef_inv1 _ _ _ _ _ Hinv Hlo Hhi Hc Hp) as Hinv1.
  destruct (IH _ _ _ _ Hinv1 Hrefs Hctx Hr) as [m' Hinv'].
  exists m'. by rewrite <- app_assoc in Hinv'.
Qed.

(** The builder does not panic when every text can be truncated. *)
Lemma seekForward_returns n : forall ptr st,
  (ptr < length lines)%nat ->
  Forall (fun l => is_Some (truncateLine (LineText l))) lines ->
  exists st', seekForward flag lines n ptr st = Some st'.
Proof.
  induction n as [| n IH]; intros ptr st Hptr Htrunc; [by eexists |].
  cbn [seekForward].
  destruct (lookup_ln ptr Hptr) as (l & Hl & _). rewrite Hl. cbn.
  assert (exists st1, writeLine flag l st = Some st1) as [st1 ->].
  { unfold writeLine. destruct (_ <? _); [| by eexists].
    destruct (proj1 (Forall_forall _ _) Htrunc l) as [t ->];
      [by eapply list_elem_of_lookup_2 | by eexists]. }
  cbn. apply IH; [| done]. unfold next. destruct (decide _); lia.
Qed.

Lemma processRef_returns st ref :
  (ref < length lines)%nat ->
  Forall (fun l => is_Some (truncateLine (LineText l))) lines ->
  lastSeenLineNum st < 0 \/ hunks st <> [] ->
  exists st',
    processRef projKey flag lines ctxLines st ref = Some st' /\
    hunks st' <> [].
Proof.
  intros Hvalid Htrunc Hprev. unfold processRef.
  destruct (seekBack_spec (lastSeenLineNum st) Cn ref 0 false Hvalid)
    as (app & -> & Happ).
  cbn.
  match goal with
  | |- context [seekForward _ _ ?n _ _] => remember n as steps
  end.
  destruct app; cbn.
  - destruct (proj1 Happ eq_refl) as [? | [_ Hseen]]; [done |].
    pose proof (ln_nonneg (ref - Cn) ltac:(lia)).
    destruct (seekForward_returns steps (ref - Cn) st ltac:(lia) Htrunc)
      as [st2 Hfw].
    rewrite Hfw. cbn [mbind option_bind].
    destruct (seekForward_general _ _ _ _ _ _ Htexts Hfw) as (Hh & _).
    destruct Hprev as [? | Hne]; [lia |].
    destruct (hunks st) as [| h0 hs0] eqn:Hhs using rev_ind; [done |].
    unfold finishHunk. rewrite Hh, setPreviousLines_snoc. cbn.
    eexists. split; [reflexivity |]. cbn. by destruct hs0.
  - destruct (lookup_ln (ref - Cn)) as (l & Hl & _); [lia |].
    rewrite Hl. cbn [mbind option_bind].
    destruct (seekForward_returns steps (ref - Cn)
                (startHunk projKey flag st (LineNum l)) ltac:(lia) Htrunc)
      as [st2 Hfw].
    rewrite Hfw. cbn. eexists. split; [reflexivity |]. cbn.
    by destruct (hunks st2).
Qed.

Lemma buildLoop_returns refs : forall lo st,
  refsFrom lo (length lines) refs = true ->
  Forall (fun l => is_Some (truncateLine (LineText l))) lines ->
  lastSeenLineNum st < 0 \/ hunks st <> [] ->
  exists r, buildLoop projKey flag file lines ctxLines refs st = Some r.
Proof.
  induction refs as [| ref refs IH]; intros lo st Hrefs Htrunc Hprev;
    [by eexists |].
  cbn in Hrefs.
  apply andb_true_iff in Hrefs as [[_ Hhi%Nat.ltb_lt]%andb_true_iff Hrefs].
  cbn [buildLoop].
  destruct (processRef_returns st ref Hhi Htrunc Hprev) as (st1 & -> & Hne).
  cbn. destruct (_ <? _); [by eexists |].
  apply (IH (S ref)); [done | done | by right].
Qed.

End Contiguous.

(** The hunks that the loop returns are the hunks after a prefix of the
    references: all of them when nothing is logged. *)
Lemma buildLoop_prefix projKey flag file lines ctxLines refs :
  forall st hs log,
  buildLoop projKey flag file lines ctxLines refs st = Some (hs, log) ->
  exists pre post st',
    refs = pre ++ post /\
    runRefs projKey flag lines ctxLines pre st = Some st' /\
    hs = hunks st' /\
    (log = [] -> post = []).
Proof.
  induction refs as [| ref refs IH]; intros st hs log Hb.
  { cbn in Hb. injection Hb as <- <-. by exists [], [], st. }
  cbn [buildLoop] in Hb.
  destruct (processRef _ _ _ _ _ _) as [st1 |] eqn:Hp; [| done]. cbn in Hb.
  destruct (_ <? _).
  - injection Hb as <- <-. exists [ref], refs, st1.
    split; [done |]. split; [cbn; by rewrite Hp |]. done.
  - destruct (IH _ _ _ Hb) as (pre & post & st' & -> & Hr & -> & Hlog).
    exists (ref :: pre), post, st'.
    split; [done |]. split; [cbn; by rewrite Hp |]. done.
Qed.

Lemma refsFrom_app lo len pre post :
  refsFrom lo len (pre ++ post) = true -> refsFrom lo len pre = true.
Proof.
  revert lo. induction pre as [| r pre IH]; intros lo; [done |].
  cbn. intros [H1 H2]%andb_true_iff. rewrite H1. cbn. by eapply IH.
Qed.

(** C1, as the code has it.  For a file with one result per line, in which
    the results within [ctxLines] positions of every match of the flag are
    consecutive lines, and [ctxLines >= 0]: the builder returns hunks when
    every text can be truncated; the matches that it went through (all of
    them when the limit of hunked lines was not reached, that is when nothing
    is logged) lie each in the range of a hunk; and every hunk begins at most
    [ctxLines] lines before a match and ends at most [ctxLines] lines after a
    match. *)
Theorem buildHunksForFlag_covers_matches
  (projKey flag file : string) (lines : list searchResultLine)
  (ctxLines : Z) (refs : list nat)
  (HC : 0 <= ctxLines)
  (Hasc : oneResultPerLine lines = true)
  (Htexts : oneLineTexts lines)
  (Hrefs : validRefs lines refs = true)
  (Hctx : forallb (contextAround (Z.to_nat ctxLines) lines) refs = true) :
  (Forall (fun l => is_Some (truncateLine (LineText l))) lines ->
   exists r,
     buildHunksForFlag projKey flag file lines ctxLines refs = Some r) /\
  (forall hs log,
     buildHunksForFlag projKey flag file lines ctxLines refs = Some (hs, log) ->
     exists pre post,
       refs = pre ++ post /\ (log = [] -> post = []) /\
       (forall r, r ∈ pre ->
          exists h, h ∈ hs /\ covers h (lineNumAt lines r)) /\
       (forall h, h ∈ hs ->
          exists r1 r2, r1 ∈ pre /\ r2 ∈ pre /\
            hunkStart h <= lineNumAt lines r1 <= hunkStart h + ctxLines /\
            hunkEnd h - ctxLines <= lineNumAt lines r2 <= hunkEnd h)).
Proof.
  split.
  { intros Htrunc. unfold buildHunksForFlag.
    eapply (buildLoop_returns projKey flag file lines ctxLines Hasc Htexts HC);
      [exact Hrefs | exact Htrunc | by left]. }
  intros hs log Hbuild.
  destruct (buildLoop_prefix _ _ _ _ _ _ _ _ _ Hbuild)
    as (pre & post & st' & -> & Hrun & -> & Hlog).
  destruct (runRefs_inv1 projKey flag lines ctxLines Hasc Htexts HC pre
              [] initState 0%nat st') as (m' & _ & _ & _ & Hcov & Hext).
  - by apply inv1_init.
  - by eapply refsFrom_app.
  - rewrite forallb_app in Hctx. by apply andb_true_iff in Hctx as [? _].
  - done.
  - exists pre, post. done.
Qed.

Lemma buildHunksForFlag_covers_matches_witness :
  exists hs,
    buildHunksForFlag "default" "foo-flag" "a.go" twoMatches 1 [1; 4]%nat
    = Some (hs, []) /\
    forall r, r ∈ [1; 4]%nat ->
      exists h, h ∈ hs /\ covers h (lineNumAt twoMatches r).
Proof.
  eexists. split; [vm_compute; reflexivity |].
  edestruct (proj2 (buildHunksForFlag_covers_matches "default" "foo-flag"
                      "a.go" twoMatches 1 [1; 4]%nat
                      ltac:(lia) ltac:(vm_compute; reflexivity)
                      ltac:(repeat constructor)
                      ltac:(vm_compute; reflexivity)
                      ltac:(vm_compute; reflexivity)))
    as (pre & post & Hsplit & Hlog & Hcov & _).
  - vm_compute. reflexivity.
  - rewrite (Hlog eq_refl), app_nil_r in Hsplit. subst pre. exact Hcov.
Defined.

(** C1 as stated fails.  In a file of 502 consecutive lines that all match,
    the builder stops after 501 lines and no hunk covers line 502; and when
    the result before a match is not the line before it, the hunk that starts
    there does not reach the match. *)
Lemma buildHunksForFlag_match_not_covered :
  (oneResultPerLine longFileLines = true /\
   forallb (contextAround 0 longFileLines) (seq 0 502) = true /\
   buildHunksForFlag "default" "f" "big.go" longFileLines 0 (seq 0 502)
   = Some (hunks longFileOver, [WarnHunkedLines 501 "big.go" "f"]) /\
   lineNumAt longFileLines 501 = 502 /\
   forall h, h ∈ hunks longFileOver -> ~ covers h 502) /\
  (buildHunksForFlag "default" "foo-flag" "a.go" gapLines 1 [1%nat]
   = Some ([{| ProjKey := "default"; FlagKey := "foo-flag";
               StartingLineNumber := 1; Lines := "a
b
";
               Aliases := [] |}], []) /\
   lineNumAt gapLines 1 = 5 /\
   ~ covers {| ProjKey := "default"; FlagKey := "foo-flag";
               StartingLineNumber := 1; Lines := "a
b
";
               Aliases := [] |} 5).
Proof.
  split.
  - split; [vm_compute; reflexivity |]. split; [vm_compute; reflexivity |].
    split; [vm_compute; reflexivity |]. split; [vm_compute; reflexivity |].
    assert (Hall : forallb (fun h => hunkEnd h <? 502) (hunks longFileOver)
                   = true) by (vm_compute; reflexivity).
    rewrite forallb_forall in Hall.
    intros h Hin%list_elem_of_In [_ Hc]. apply Hall, Z.ltb_lt in Hin. lia.
  - split; [vm_compute; reflexivity |]. split; [vm_compute; reflexivity |].
    intros [_ Hc]. vm_compute in Hc. by apply Hc.
Qed.

(** ** Short flag keys *)

Lemma filterShortLoop_spec flags : forall f o,
  filterShortLoop flags f o
  = (f ++ List.filter (fun k => minFlagKeyLen <=? len k) flags,
     o ++ List.filter (fun k => negb (minFlagKeyLen <=? len k)) flags).
Proof.
  induction flags as [| k flags IH]; intros f o.
  { cbn. by rewrite !app_nil_r. }
  cbn [filterShortLoop List.filter].
  destruct (minFlagKeyLen <=? len k); cbn [negb]; rewrite IH;
    by rewrite <- ?app_assoc.
Qed.

(** The flag keys are split in two, in their order: the keys of at least
    three bytes, which are searched for, and the shorter ones; no key is lost
    and none is duplicated. *)
Theorem filterShortFlagKeys_partition (flags : list string) :
  let '(filtered, omitted) := filterShortFlagKeys flags in
  filtered = List.filter (fun k => 3 <=? len k) flags /\
  omitted = List.filter (fun k => len k <? 3) flags /\
  Forall (fun k => 3 <= len k) filtered /\
  Forall (fun k => len k < 3) omitted /\
  filtered ++ omitted ≡ₚ flags.
Proof.
  unfold filterShortFlagKeys. rewrite filterShortLoop_spec. cbn [app].
  assert (Hneg : List.filter (fun k => negb (minFlagKeyLen <=? len k)) flags
                 = List.filter (fun k => len k <? 3) flags).
  { apply filter_ext. intros k. unfold minFlagKeyLen.
    destruct (Z.leb_spec 3 (len k)), (Z.ltb_spec (len k) 3); cbn; lia. }
  rewrite Hneg. split; [done |]. split; [done |]. split; [| split].
  - apply Forall_forall. intros k [_ Hk%Z.leb_le]%list_elem_of_In%filter_In.
    exact Hk.
  - apply Forall_forall. intros k [_ Hk%Z.ltb_lt]%list_elem_of_In%filter_In.
    exact Hk.
  - rewrite <- Hneg. clear Hneg. induction flags as [| k flags IH]; [done |].
    cbn [List.filter]. destruct (minFlagKeyLen <=? len k); cbn [negb app].
    + by constructor.
    + rewrite <- Permutation_middle. by constructor.
Qed.

(** ** What the hunker logs *)

Lemma buildLoop_log projKey flag file lines ctxLines refs : forall st hs log,
  buildLoop projKey flag file lines ctxLines refs st = Some (hs, log) ->
  log = [] \/ exists n, log = [WarnHunkedLines n file flag].
Proof.
  induction refs as [| ref refs IH]; intros st hs log Hb.
  { cbn in Hb. injection Hb as _ <-. by left. }
  cbn [buildLoop] in Hb.
  destruct (processRef _ _ _ _ _ _) as [st1 |]; [| done]. cbn in Hb.
  destruct (_ <? _); [| by eapply IH].
  injection Hb as _ <-. right. by eexists.
Qed.

Lemma hunkRepsLoop_log projKey fsr ctxLines entries : forall hunks0 log0 hs log,
  hunkRepsLoop projKey fsr ctxLines entries hunks0 log0 = Some (hs, log) ->
  Forall (fun e => exists n flag, e = WarnHunkedLines n (path fsr) flag) log0 ->
  Forall (fun e => exists n flag, e = WarnHunkedLines n (path fsr) flag) log.
Proof.
  induction entries as [| [k refs] entries IH]; intros hunks0 log0 hs log Hl H0.
  { cbn in Hl. by injection Hl as _ <-. }
  cbn [hunkRepsLoop] in Hl.
  destruct (buildHunksForFlag _ _ _ _ _ _) as [[fh l] |] eqn:Hb; [| done].
  cbn in Hl. eapply IH; [exact Hl |]. apply Forall_app. split; [done |].
  apply buildLoop_log in Hb as [-> | [n ->]]; [constructor |].
  constructor; [by eexists _, _ | constructor].
Qed.

Lemma makeHunkReps_log fsr projKey ctxLines hs log :
  makeHunkReps fsr projKey ctxLines = Some (hs, log) ->
  Forall (fun e => exists n flag, e = WarnHunkedLines n (path fsr) flag) log.
Proof. intros H. eapply hunkRepsLoop_log; [exact H | constructor]. Qed.

Lemma makeHunkReps_hunkerEvents fsr projKey ctxLines hs log :
  makeHunkReps fsr projKey ctxLines = Some (hs, log) ->
  Forall (fun e => hunkerEvent e = true) log.
Proof.
  intros H%makeHunkReps_log. eapply Forall_impl; [exact H |].
  by intros e (n & flag & ->).
Qed.

Lemma repsLoop_log projKey ctxLines files : forall n s reps0 log0 reps log,
  repsLoop projKey ctxLines files n s reps0 log0 = Some (reps, log) ->
  Forall (fun e => hunkerEvent e = true) log0 ->
  Forall (fun e => hunkerEvent e = true) log.
Proof.
  induction files as [| fsr files IH]; intros n s reps0 log0 reps log Hr H0.
  { cbn in Hr. by injection Hr as _ <-. }
  cbn [repsLoop] in Hr. destruct (_ <? _).
  { injection Hr as _ <-. apply Forall_app. split; [done |].
    by repeat constructor. }
  destruct (makeHunkReps fsr projKey ctxLines) as [[hunks l] |] eqn:Hm;
    [| done].
  apply makeHunkReps_hunkerEvents in Hm. cbn in Hr. destruct (_ && _).
  - eapply IH; [exact Hr |]. rewrite !Forall_app. by repeat constructor.
  - eapply IH; [exact Hr |]. rewrite !Forall_app. done.
Qed.

Lemma makeBranchRep_log b projKey ctxLines branchRep l :
  makeBranchRep b projKey ctxLines = Ok (branchRep, l) ->
  Forall (fun e => hunkerEvent e = true) l.
Proof.
  unfold makeBranchRep, makeReferenceHunksReps.
  destruct (aggregateByPath _) as [files | |]; [| done | done].
  unfold limitFiles. destruct (_ <? _).
  - destruct (repsLoop _ _ _ _ _ _ _) as [[reps log] |] eqn:Hr; [| done].
    intros [= _ <-]. eapply repsLoop_log; [exact Hr |]. by repeat constructor.
  - destruct (repsLoop _ _ _ _ _ _ _) as [[reps log] |] eqn:Hr; [| done].
    intros [= _ <-]. eapply repsLoop_log; [exact Hr |]. constructor.
Qed.

(** ** The run: dry run, refused PUT, pruning *)

(** A dry run ends once the branch is built and the CSV is written: the
    branch is not sent and nothing is pruned, so the run does not depend on
    what the service and the remote would answer, and all it does from the
    construction of the branch on is log. *)
Theorem Scan_dry_run_sends_nothing (opts : options.Options) (w w' : world)
  (Hdry : options.DryRun opts = true) (Hlocal : sameLocally w w') :
  Scan opts w = Scan opts w' /\
  Forall (fun ev => isCall ev = false) (snd (Scan opts w)).
Proof.
  destruct Hlocal as (H1 & H2 & H3 & H4 & H5). unfold Scan.
  rewrite <- H1, <- H2, <- H3, <- H4, <- H5, Hdry.
  destruct (makeBranchRep _ _ _) as [[branchRep l] | m |];
    [| by split | by split].
  assert (Hlog : Forall (fun ev => isCall ev = false) (map Log l))
    by (apply Forall_forall; by intros ev (e & -> & _)%list_elem_of_fmap).
  by destruct (if decide _ then _ else _).
Qed.

Lemma Scan_dry_run_sends_nothing_witness :
  Scan dryRunOptions (refusingWorld tooLargeErr)
  = Scan dryRunOptions noRemoteWorld /\
  fst (Scan dryRunOptions noRemoteWorld) = Returns.
Proof.
  split; [| vm_compute; reflexivity].
  refine (proj1 (Scan_dry_run_sends_nothing dryRunOptions
                   (refusingWorld tooLargeErr) noRemoteWorld eq_refl _)).
  repeat split.
Defined.

(** A PUT that fails with anything but the conflict ends the run there: the
    branch was sent, nothing is pruned, and the exit code is 0 only for a
    transient error under [ignoreServiceErrors]; a payload that is too large
    is fatal whatever the options. *)
Theorem Scan_refused_put_ends_run (opts : options.Options) (w : world)
  (err : ld.error) (br : ld.BranchRep)
  (Hput : PutCodeReferenceBranch w = Some err)
  (Hkind : ld.kind err <> ld.BranchUpdateSequenceIdConflictErr)
  (Hsent : PutBranch br ∈ snd (Scan opts w)) :
  (exists l, snd (Scan opts w) = map Log l ++ [PutBranch br] /\
             Forall (fun e => hunkerEvent e = true) l) /\
  fst (Scan opts w)
  = (match ld.kind err with
     | ld.OtherErr =>
       if ld.IsTransient err && options.IgnoreServiceErrors opts
       then Exits 0 else Exits 1
     | _ => Exits 1
     end).
Proof.
  revert Hsent. unfold Scan.
  destruct (makeBranchRep _ _ _) as [[branchRep l] | m |] eqn:Hrep;
    [| by intros ?%elem_of_nil | by intros ?%elem_of_nil].
  apply makeBranchRep_log in Hrep.
  destruct (if decide _ then _ else _) as [e |];
    [by intros ?%not_put_in_log |].
  destruct (options.DryRun opts); [by intros ?%not_put_in_log |].
  unfold submit. rewrite Hput.
  destruct (ld.kind err) eqn:Hk; [done | |]; cbn [fst snd].
  - intros [?%not_put_in_log | [= ->]%list_elem_of_singleton]%elem_of_app;
      [done |].
    split; [by exists l | done].
  - intros [?%not_put_in_log | [= ->]%list_elem_of_singleton]%elem_of_app;
      [done |].
    split; [by exists l |]. unfold fatalServiceError.
    by destruct (ld.IsTransient err), (options.IgnoreServiceErrors opts).
Qed.

Lemma Scan_refused_put_ends_run_witness :
  fst (Scan lenientOptions (refusingWorld tooLargeErr)) = Exits 1 /\
  fst (Scan lenientOptions (refusingWorld transientErr)) = Exits 0.
Proof.
  split.
  - edestruct (Scan_refused_put_ends_run lenientOptions
                 (refusingWorld tooLargeErr) tooLargeErr) as [_ H];
      [reflexivity | discriminate | vm_compute; left | exact H].
  - edestruct (Scan_refused_put_ends_run lenientOptions
                 (refusingWorld transientErr) transientErr) as [_ H];
      [reflexivity | discriminate | vm_compute; left | exact H].
Defined.

Lemma call_not_in_log ev (l : list logEvent) :
  isCall ev = true -> ev ∉ map Log l.
Proof. by intros Hc (e & -> & _)%list_elem_of_fmap. Qed.

(** An effect other than a log line is one of the submission. *)
Lemma Scan_call opts w ev :
  isCall ev = true -> ev ∈ snd (Scan opts w) ->
  options.DryRun opts = false /\
  exists b branchRep l,
    Name b = GitBranch w /\ Head b = GitSha w /\ SyncTime b = timestamp w /\
    UpdateSequenceId b = updateIdOf opts /\
    makeBranchRep b (options.ProjKey opts) (options.ContextLines opts)
    = Ok (branchRep, l) /\
    Scan opts w = (fst (submit opts w b branchRep),
                   map Log l ++ snd (submit opts w b branchRep)) /\
    ev ∈ snd (submit opts w b branchRep).
Proof.
  intros Hc. unfold Scan.
  destruct (makeBranchRep _ _ _) as [[branchRep l] | m |] eqn:Hrep;
    [| by intros ?%elem_of_nil | by intros ?%elem_of_nil].
  destruct (if decide _ then _ else _) as [e |];
    [by intros ?%call_not_in_log |].
  destruct (options.DryRun opts); [by intros ?%call_not_in_log |].
  destruct (submit _ _ _ _) as [e tr] eqn:Hsub. cbn [snd].
  intros [Hin | Hin]%elem_of_app; [by apply call_not_in_log in Hin |].
  split; [done |].
  exists {| Name := GitBranch w; UpdateSequenceId := updateIdOf opts;
            SyncTime := timestamp w; Head := GitSha w;
            SearchResults := sortedRefs w |}, branchRep, l.
  rewrite Hsub. by repeat split.
Qed.

Lemma List_filter_sublist {A} (f : A -> bool) (l : list A) :
  List.filter f l `sublist_of` l.
Proof.
  induction l as [| x l IH]; cbn; [constructor |].
  destruct (f x); by constructor.
Qed.

(** The run asks the service to delete branches only after both listings
    succeeded, and then exactly the branches that the service knows and that
    the remote does not have; a branch of the remote is never deleted, and
    no empty request is sent. *)
Theorem Scan_deletes_only_stale (opts : options.Options) (w : world)
  (names : list string)
  (Hdel : DeleteBranches names ∈ snd (Scan opts w)) :
  exists remote branches,
    RemoteBranches w = inr remote /\
    GetCodeReferenceRepositoryBranches w = inr branches /\
    names <> [] /\ names `sublist_of` branches /\
    forall name, name ∈ names <->
                 name ∈ branches /\ remote !! name <> Some true.
Proof.
  apply (Scan_call _ _ (DeleteBranches names) eq_refl) in Hdel
    as (_ & b & br & l & _ & _ & _ & _ & _ & _ & Hin).
  assert (Hp : DeleteBranches names ∈ snd (prune opts w)).
  { revert Hin. unfold submit. destruct (prune opts w) as [e tr].
    destruct (PutCodeReferenceBranch w) as [err |];
      [destruct (ld.kind err) |]; cbn [snd];
      try destruct (UpdateSequenceId b); set_solver. }
  revert Hp. unfold prune, deleteStaleBranches.
  destruct (RemoteBranches w) as [e | remote]; [set_solver |].
  destruct (GetCodeReferenceRepositoryBranches w) as [e | branches];
    [set_solver |].
  destruct (0 <? _) eqn:Hlen; cbn [snd]; [| set_solver].
  intros Hd. assert (names = calculateStaleBranches branches remote)
    as -> by set_solver.
  exists remote, branches. split; [done |]. split; [done |].
  split; [by intros Heq; rewrite Heq in Hlen |].
  split; [apply List_filter_sublist |].
  intros name. unfold calculateStaleBranches.
  rewrite !list_elem_of_In, filter_In.
  destruct (remote !! name) as [[|] |]; naive_solver.
Qed.

Lemma Scan_deletes_only_stale_witness :
  exists remote branches,
    RemoteBranches staleWorld = inr remote /\
    GetCodeReferenceRepositoryBranches staleWorld = inr branches /\
    ["feature-b"] <> [] /\ ["feature-b"] `sublist_of` branches /\
    forall name, name ∈ ["feature-b"] <->
                 name ∈ branches /\ remote !! name <> Some true.
Proof.
  apply (Scan_deletes_only_stale (demoOptions 5) staleWorld ["feature-b"]).
  apply list_elem_of_In. vm_compute. auto 10.
Defined.

(** When the branches of the remote cannot be listed the pruning is skipped
    without an error: the service is neither asked for its branches nor to
    delete any, the warning is logged and [Scan] returns. *)
Theorem Scan_skips_pruning_without_remote (opts : options.Options) (w : world)
  (err : ld.error)
  (Hremote : RemoteBranches w = inl err)
  (Hasked : ListRemoteBranches ∈ snd (Scan opts w)) :
  fst (Scan opts w) = Returns /\
  last (snd (Scan opts w)) = Some (Log WarnRemoteBranches) /\
  (ListRepositoryBranches ∉ snd (Scan opts w)) /\
  (forall names, DeleteBranches names ∉ snd (Scan opts w)).
Proof.
  apply (Scan_call _ _ ListRemoteBranches eq_refl) in Hasked
    as (_ & b & br & l & _ & _ & _ & _ & _ & -> & Hin).
  cbn [fst snd]. revert Hin. unfold submit, prune. rewrite Hremote.
  assert (Hl : forall ev, isCall ev = true -> ev ∉ map Log l)
    by (intros; by apply call_not_in_log).
  pose proof (Hl ListRepositoryBranches eq_refl).
  assert (forall names, DeleteBranches names ∉ map Log l)
    by (intros; by apply Hl).
  destruct (PutCodeReferenceBranch w) as [e |];
    [destruct (ld.kind e) |]; cbn [fst snd];
    try destruct (UpdateSequenceId b); intros Hin;
    rewrite ?last_app; cbn; set_solver.
Qed.

Lemma Scan_skips_pruning_without_remote_witness :
  fst (Scan (demoOptions 5) noRemoteWorld) = Returns.
Proof.
  refine (proj1 (Scan_skips_pruning_without_remote (demoOptions 5)
                   noRemoteWorld serverErr eq_refl _)).
  apply list_elem_of_In. vm_compute. auto 10.
Defined.



(** ** Aggregation: the files and their references *)

Lemma mentions_snoc key lines l :
  mentions key (lines ++ [l])
  = mentions key lines ++
    (if decide (is_Some (FlagKeys l !! key)) then [length lines] else []).
Proof.
  unfold mentions. rewrite length_app, Nat.add_comm. cbn [length plus].
  rewrite seq_S, List.filter_app. cbn [List.filter plus].
  rewrite list_lookup_middle by done.
  f_equal.
  - apply filter_ext_in. intros i [_ Hi]%in_seq.
    by rewrite lookup_app_l by lia.
  - destruct (decide (is_Some (FlagKeys l !! key))) as [H | H].
    + by rewrite bool_decide_eq_true_2.
    + by rewrite bool_decide_eq_false_2.
Qed.

Lemma refsFrom_weaken lo len refs :
  refsFrom (S lo) len refs = true -> refsFrom lo len refs = true.
Proof.
  destruct refs as [| r refs]; [done |]. cbn [refsFrom].
  rewrite !andb_true_iff, !Nat.leb_le. intros [[? ?] ?]. repeat split; try done.
  lia.
Qed.

Lemma refsFrom_filter_seq (f : nat -> bool) len n : forall lo,
  (lo + n <= len)%nat -> refsFrom lo len (List.filter f (seq lo n)) = true.
Proof.
  induction n as [| n IH]; intros lo Hlen; [done |].
  cbn [seq List.filter]. destruct (f lo).
  - cbn [refsFrom]. rewrite IH by lia.
    rewrite Nat.leb_refl. cbn. rewrite andb_true_r. apply Nat.ltb_lt. lia.
  - apply refsFrom_weaken, IH. lia.
Qed.

Lemma mentions_valid key lines : validRefs lines (mentions key lines) = true.
Proof. apply refsFrom_filter_seq. lia. Qed.

Lemma elem_of_mentions key lines r :
  r ∈ mentions key lines <->
  exists l, lines !! r = Some l /\ is_Some (FlagKeys l !! key).
Proof.
  unfold mentions. rewrite list_elem_of_In, filter_In, in_seq. split.
  - intros [_ H]. destruct (lines !! r) as [l |]; [| done].
    exists l. split; [done |]. by apply bool_decide_eq_true_1 in H.
  - intros (l & Hl & Hk). split.
    + apply lookup_lt_Some in Hl. lia.
    + rewrite Hl. by apply bool_decide_eq_true_2.
Qed.

Lemma addFlagReferences_map (m : gmap string (list string)) elem fsr key :
  flagReferenceMap
    (map_fold (fun flagKey _ fsr => addFlagReference flagKey elem fsr) fsr m)
  !! key
  = match m !! key with
    | Some _ => Some (default [] (flagReferenceMap fsr !! key) ++ [elem])
    | None => flagReferenceMap fsr !! key
    end.
Proof.
  revert key. apply (map_fold_weak_ind
    (fun (r : fileSearchResults) (m' : gmap string (list string)) =>
       forall key, flagReferenceMap r !! key
       = match m' !! key with
         | Some _ => Some (default [] (flagReferenceMap fsr !! key) ++ [elem])
         | None => flagReferenceMap fsr !! key
         end)).
  { intros key. by rewrite lookup_empty. }
  intros i x m' r Hi IH key. unfold addFlagReference. cbn [flagReferenceMap].
  pose proof (IH i) as IHi. rewrite Hi in IHi.
  destruct (decide (i = key)) as [<- | Hne].
  - rewrite (lookup_insert_eq m'), IHi.
    destruct (flagReferenceMap fsr !! i) as [refs |];
      by rewrite lookup_insert_eq.
  - rewrite (lookup_insert_ne m') by done.
    rewrite <- IH.
    destruct (flagReferenceMap r !! i); by rewrite lookup_insert_ne.
Qed.

Lemma pathsDiffer_snoc files f :
  pathsDiffer files ->
  (forall f0, last files = Some f0 -> path f0 <> path f) ->
  pathsDiffer (files ++ [f]).
Proof.
  intros Hd Hl i f1 f2 H1 H2.
  destruct (decide (S i < length files)%nat) as [Hlt | Hge].
  - rewrite lookup_app_l in H1, H2 by lia. eauto.
  - apply lookup_lt_Some in H2 as Hlen. rewrite length_app in Hlen.
    cbn in Hlen. assert (S i = length files) as Heq by lia.
    rewrite lookup_app_l in H1 by lia.
    rewrite Heq, list_lookup_middle in H2 by done. injection H2 as <-.
    apply Hl. rewrite last_lookup, <- Heq. exact H1.
Qed.

Lemma lineNumsAscend_snoc lines l :
  lineNumsAscend lines ->
  (forall prev, last lines = Some prev -> LineNum prev <= LineNum l) ->
  lineNumsAscend (lines ++ [l]).
Proof.
  intros Hd Hl i f1 f2 H1 H2.
  destruct (decide (S i < length lines)%nat) as [Hlt | Hge].
  - rewrite lookup_app_l in H1, H2 by lia. eauto.
  - apply lookup_lt_Some in H2 as Hlen. rewrite length_app in Hlen.
    cbn in Hlen. assert (S i = length lines) as Heq by lia.
    rewrite lookup_app_l in H1 by lia.
    rewrite Heq, list_lookup_middle in H2 by done. injection H2 as <-.
    apply Hl. rewrite last_lookup, <- Heq. exact H1.
Qed.

Lemma fileInv_new p : fileInv (newFileSearchResults p).
Proof.
  split; [constructor |]. split; [by intros i a b [=] |].
  intros key. cbn. by rewrite lookup_empty.
Qed.

(** One turn of the loop on the file that is being filled. *)
Lemma fileInv_push cur b fsr' :
  fileInv cur -> Path b = path cur ->
  addSearchResult cur b = Ok (fsr', length (fileSearchResultLines cur)) ->
  let cur' := map_fold (fun flagKey _ fsr =>
                          addFlagReference flagKey
                            (length (fileSearchResultLines cur)) fsr)
                       fsr' (FlagKeys b) in
  fileInv cur' /\ path cur' = path cur /\
  fileSearchResultLines cur' = fileSearchResultLines cur ++ [b].
Proof.
  intros (Hpaths & Hasc & Hrefs) Hp Hadd cur'.
  destruct (addSearchResult_cases cur b)
    as [(prev & _ & _ & Hf) | (Hle & fsr0 & Hok & Hp0 & Hl0 & Hm0)];
    [congruence |].
  rewrite Hadd in Hok. injection Hok as <-.
  destruct (addFlagReferences_fields (FlagKeys b)
              (length (fileSearchResultLines cur)) fsr') as [Hp' Hl'].
  fold cur' in Hp', Hl'.
  assert (Hlines : fileSearchResultLines cur'
                   = fileSearchResultLines cur ++ [b]) by congruence.
  assert (Hpath : path cur' = path cur) by congruence.
  split; [| done]. unfold fileInv. rewrite Hlines, Hpath.
  split; [apply Forall_app; split; [done | by constructor] |].
  split; [by apply lineNumsAscend_snoc |].
  intros key. unfold cur'. rewrite addFlagReferences_map, Hm0, Hrefs.
  rewrite mentions_snoc.
  destruct (decide (is_Some (FlagKeys b !! key))) as [[x Hk] | Hk].
  - rewrite Hk. destruct (decide (_ ++ _ = [])) as [Hnil | _];
      [by apply app_eq_nil in Hnil as [_ [=]] |].
    by destruct (decide (mentions key (fileSearchResultLines cur) = []))
      as [-> |].
  - rewrite app_nil_r. destruct (FlagKeys b !! key); [| done].
    by destruct Hk.
Qed.

Lemma aggregateLoop_inv g : forall all cur files,
  fileInv cur -> Forall fileInv all ->
  Forall (fun f => fileSearchResultLines f <> []) all ->
  pathsDiffer all ->
  (forall f0, last all = Some f0 -> path f0 <> path cur) ->
  (fileSearchResultLines cur <> [] \/
   exists b, head g = Some b /\ Path b = path cur) ->
  aggregateLoop g all cur = Ok files ->
  concat (map fileSearchResultLines files)
  = concat (map fileSearchResultLines all) ++ fileSearchResultLines cur ++ g /\
  Forall fileInv files /\
  Forall (fun f => fileSearchResultLines f <> []) files /\
  pathsDiffer files.
Proof.
  induction g as [| b g IH];
    intros all cur files Hcur Hall Hne Hdiff Hlast Hfirst.
  { cbn. intros [= <-]. rewrite app_nil_r.
    destruct Hfirst as [Hc | (b & [=] & _)].
    rewrite map_app, concat_app. cbn. rewrite app_nil_r.
    split; [done |].
    split; [apply Forall_app; split; [done | by constructor] |].
    split; [| by apply pathsDiffer_snoc].
    apply Forall_app. split; [done |]. by constructor. }
  cbn [aggregateLoop].
  assert (Hstep : forall all1 cur1,
    fileInv cur1 -> Path b = path cur1 -> Forall fileInv all1 ->
    Forall (fun f => fileSearchResultLines f <> []) all1 ->
    pathsDiffer all1 ->
    (forall f0, last all1 = Some f0 -> path f0 <> path cur1) ->
    match addSearchResult cur1 b with
    | Ok (cur2, elem) =>
      aggregateLoop g all1
        (map_fold (fun flagKey _ fsr => addFlagReference flagKey elem fsr)
                  cur2 (FlagKeys b))
    | Fatalf m => Fatalf m
    | Panicked => Panicked
    end = Ok files ->
    concat (map fileSearchResultLines files)
    = concat (map fileSearchResultLines all1) ++
      fileSearchResultLines cur1 ++ b :: g /\
    Forall fileInv files /\
    Forall (fun f => fileSearchResultLines f <> []) files /\
    pathsDiffer files).
  { intros all1 cur1 Hcur1 Hsame Hall1 Hne1 Hdiff1 Hlast1.
    destruct (addSearchResult cur1 b) as [[cur2 elem] | m |] eqn:Hadd;
      [| done | done].
    destruct (addSearchResult_cases cur1 b)
      as [(prev & _ & _ & Hf) | (_ & fsr0 & Hok & _)]; [congruence |].
    assert (elem = length (fileSearchResultLines cur1)) as -> by congruence.
    destruct (fileInv_push cur1 b cur2 Hcur1 Hsame Hadd) as (Hinv & Hp & Hl).
    intros Hloop. apply IH in Hloop; try done.
    - rewrite Hl in Hloop. by rewrite <- !app_assoc in Hloop.
    - by rewrite Hp.
    - left. rewrite Hl. by intros [? [=]]%app_eq_nil. }
  destruct (decide (Path b = path cur)) as [Hsame | Hnew].
  - by apply Hstep.
  - destruct Hfirst as [Hc | (b0 & [= <-] & Hb0)]; [| done].
    intros Hloop. apply Hstep in Hloop.
    + destruct Hloop as (Hcat & Hrest). split; [| done].
      rewrite Hcat, map_app, concat_app. cbn. by rewrite app_nil_r, <- app_assoc.
    + apply fileInv_new.
    + done.
    + apply Forall_app. split; [done | by constructor].
    + apply Forall_app. split; [done | by constructor].
    + by apply pathsDiffer_snoc.
    + intros f0. rewrite last_snoc. intros [= <-]. cbn. congruence.
Qed.

(** The search results are cut into files at the changes of the path, in
    their order and without loss: the lines of the files, one after the
    other, are the search results; no file is empty; the lines of a file
    have its path and line numbers that never go down; and two neighbouring
    files have different paths. *)
Theorem aggregateByPath_groups (g : list searchResultLine)
  (files : list fileSearchResults)
  (Hagg : aggregateByPath g = Ok files) :
  concat (map fileSearchResultLines files) = g /\
  Forall (fun f => fileSearchResultLines f <> [] /\
                   Forall (fun l => Path l = path f)
                          (fileSearchResultLines f) /\
                   lineNumsAscend (fileSearchResultLines f)) files /\
  pathsDiffer files.
Proof.
  destruct g as [| first g]; [by injection Hagg as <- |].
  unfold aggregateByPath in Hagg.
  apply aggregateLoop_inv in Hagg
    as (Hcat & Hinv & Hne & Hdiff);
    [| apply fileInv_new | constructor | constructor | by intros i f1 f2 [=]
     | by intros f0 [=] | right; by exists first].
  split; [exact Hcat |]. split; [| exact Hdiff].
  apply Forall_forall. intros f Hf.
  rewrite Forall_forall in Hinv, Hne.
  destruct (Hinv f Hf) as (H1 & H2 & _). split; [by apply Hne | done].
Qed.

Lemma aggregateByPath_groups_witness :
  exists files, aggregateByPath threeFiles = Ok files /\
                map path files = ["a.go"; "b.go"; "a.go"] /\
                concat (map fileSearchResultLines files) = threeFiles.
Proof.
  eexists. split; [vm_compute; reflexivity |]. split; [reflexivity |].
  refine (proj1 (aggregateByPath_groups threeFiles _ _)).
  vm_compute. reflexivity.
Defined.

(** The references of a flag in a file are the positions of the lines that
    mention the flag, each once and in increasing order; a flag that no line
    of the file mentions has no entry. *)
Theorem aggregateByPath_flagReferenceMap (g : list searchResultLine)
  (files : list fileSearchResults) (f : fileSearchResults) (key : string)
  (Hagg : aggregateByPath g = Ok files) (Hf : f ∈ files) :
  let lines := fileSearchResultLines f in
  flagReferenceMap f !! key
  = (if decide (mentions key lines = []) then None
     else Some (mentions key lines)) /\
  validRefs lines (mentions key lines) = true /\
  forall r, r ∈ mentions key lines <->
            exists l, lines !! r = Some l /\ is_Some (FlagKeys l !! key).
Proof.
  cbn. split; [| split; [apply mentions_valid | apply elem_of_mentions]].
  destruct g as [| first g];
    [injection Hagg as <-; by apply elem_of_nil in Hf |].
  unfold aggregateByPath in Hagg.
  apply aggregateLoop_inv in Hagg
    as (_ & Hinv & _);
    [| apply fileInv_new | constructor | constructor | by intros i f1 f2 [=]
     | by intros f0 [=] | right; by exists first].
  rewrite Forall_forall in Hinv. by destruct (Hinv f Hf) as (_ & _ & H).
Qed.

Lemma aggregateByPath_flagReferenceMap_witness :
  flagReferenceMap threeFilesFirst !! "foo-flag" = Some [0; 2]%nat.
Proof.
  refine (proj1 (aggregateByPath_flagReferenceMap threeFiles
                   threeFilesAggregated threeFilesFirst "foo-flag" _ _)).
  - vm_compute. reflexivity.
  - apply list_elem_of_In. vm_compute. left. reflexivity.
Defined.

(** ** The hunk builder: the hunks of a flag *)

Section HunkerMore.
Context (projKey flag file : string) (lines : list searchResultLine)
        (ctxLines : Z).

Lemma seekForward_frame n : forall ptr st st',
  seekForward flag lines n ptr st = Some st' ->
  hunks st' = hunks st /\
  ProjKey (currentHunk st') = ProjKey (currentHunk st) /\
  FlagKey (currentHunk st') = FlagKey (currentHunk st) /\
  StartingLineNumber (currentHunk st')
  = StartingLineNumber (currentHunk st) /\
  numHunkedLines st' <= numHunkedLines st + Z.of_nat n.
Proof.
  induction n as [| n IH]; intros ptr st st' Hs.
  { cbn in Hs. injection Hs as <-. repeat split; lia. }
  cbn [seekForward] in Hs.
  destruct (lines !! ptr) as [l |]; [| done]. cbn in Hs.
  destruct (writeLine flag l st) as [st1 |] eqn:Hw; [| done]. cbn in Hs.
  apply IH in Hs as (H1 & H2 & H3 & H4 & H5).
  unfold writeLine in Hw.
  destruct (lastSeenLineNum st <? LineNum l).
  - destruct (truncateLine (LineText l)) as [t |]; [| done].
    cbn in Hw. injection Hw as <-. cbn in *. repeat split; try done. lia.
  - injection Hw as <-. repeat split; try done. lia.
Qed.

Lemma seekBack_bound lastSeen n : forall ptr num app ptr' num' app',
  seekBack lines lastSeen n ptr num app = Some (ptr', num', app') ->
  num' <= num + Z.of_nat n.
Proof.
  induction n as [| n IH]; intros ptr num app ptr' num' app' Hs.
  { cbn in Hs. injection Hs as <- <- <-. lia. }
  cbn [seekBack] in Hs. destruct ptr as [| p].
  - destruct (lines !! 0%nat) as [l |]; [| done]. cbn in Hs.
    apply IH in Hs. lia.
  - destruct (lines !! p) as [l |]; [| done]. cbn in Hs.
    apply IH in Hs. lia.
Qed.

(** One reference writes at most the lines of its window. *)
Lemma processRef_window st ref st' :
  processRef projKey flag lines ctxLines st ref = Some st' ->
  numHunkedLines st' <= numHunkedLines st + Z.max 0 (2 * ctxLines + 1).
Proof.
  unfold processRef. intros Hp.
  destruct (seekBack lines (lastSeenLineNum st) (Z.to_nat ctxLines) ref 0 false)
    as [[[ptr num] app] |] eqn:Hback; [| done]. cbn in Hp.
  pose proof (seekBack_bound _ _ _ _ _ _ _ _ Hback) as Hnum.
  pose proof (seekBack_num _ _ _ _ _ _ _ _ _ Hback) as Hnum0.
  assert (Hsteps : Z.of_nat (Z.to_nat (num + 1 + ctxLines))
                   <= Z.max 0 (2 * ctxLines + 1)).
  { destruct (Z.le_gt_cases 0 ctxLines).
    - rewrite Z2Nat.id in Hnum by lia. lia.
    - replace (Z.to_nat ctxLines) with 0%nat in Hnum by lia. lia. }
  destruct (if app then Some st else _) as [st1 |] eqn:H1; [| done].
  assert (numHunkedLines st1 = numHunkedLines st) as Hst1.
  { destruct app; [by injection H1 as <- |].
    destruct (lines !! ptr); [| done]. cbn in H1. by injection H1 as <-. }
  cbn in Hp.
  destruct (seekForward flag lines _ ptr st1) as [st2 |] eqn:Hfwd; [| done].
  cbn in Hp. apply seekForward_frame in Hfwd as (_ & _ & _ & _ & Hn).
  unfold finishHunk in Hp. destruct app.
  - destruct (setPreviousLines _ _); [| done]. cbn in Hp.
    injection Hp as <-. cbn. lia.
  - injection Hp as <-. cbn. lia.
Qed.

(** One reference adds at most one hunk and leaves at least one. *)
Lemma processRef_hunks st ref st' :
  processRef projKey flag lines ctxLines st ref = Some st' ->
  Forall (hunkOf projKey flag lines) (hunks st) ->
  Forall (hunkOf projKey flag lines) (hunks st') /\
  hunks st' <> [] /\
  (length (hunks st) <= length (hunks st') <= S (length (hunks st)))%nat.
Proof.
  unfold processRef. intros Hp Hinv.
  destruct (seekBack lines (lastSeenLineNum st) (Z.to_nat ctxLines) ref 0 false)
    as [[[ptr num] app] |] eqn:Hback; [| done]. cbn in Hp.
  destruct app.
  - cbn in Hp.
    destruct (seekForward flag lines _ ptr st) as [st2 |] eqn:Hfwd; [| done].
    cbn in Hp. apply seekForward_frame in Hfwd as (Hh & _ & _ & _ & Hn).
    unfold finishHunk in Hp.
    destruct (setPreviousLines (hunks st2) (hunkStringBuilder st2))
      as [hs |] eqn:Hprev; [| done].
    cbn in Hp. injection Hp as <-. cbn.
    apply setPreviousLines_Some in Hprev as (hs0 & h & Heq & ->).
    rewrite Hh in Heq. rewrite Heq in Hinv |- *.
    apply Forall_app in Hinv as [Hinv0 Hinvh].
    apply Forall_cons in Hinvh as [Hinvh _].
    split; [apply Forall_app; split; [done |]; by constructor |].
    split; [by intros [? [=]]%app_eq_nil |].
    rewrite !length_app. cbn. lia.
  - destruct (lines !! ptr) as [l |] eqn:Hl; [| done]. cbn in Hp.
    destruct (seekForward flag lines _ ptr _) as [st2 |] eqn:Hfwd; [| done].
    cbn in Hp.
    apply seekForward_frame in Hfwd as (Hh & Hpk & Hfk & Hstart & Hn).
    injection Hp as <-. cbn in *. rewrite Hh.
    split; [apply Forall_app; split; [done |] |].
    { constructor; [| constructor]. unfold hunkOf. cbn.
      split; [done |]. split; [done |]. exists l.
      split; [by eapply list_elem_of_lookup_2 | done]. }
    split; [by intros [? [=]]%app_eq_nil |].
    rewrite length_app. cbn. lia.
Qed.

Lemma buildLoop_hunks refs : forall st hs log,
  buildLoop projKey flag file lines ctxLines refs st = Some (hs, log) ->
  Forall (hunkOf projKey flag lines) (hunks st) ->
  Forall (hunkOf projKey flag lines) hs /\
  (length (hunks st) <= length hs <= length (hunks st) + length refs)%nat /\
  (refs <> [] -> hs <> []).
Proof.
  induction refs as [| ref refs IH]; intros st hs log Hb Hinv.
  { cbn in Hb. injection Hb as <- <-. cbn. split; [done |].
    split; [lia | intros H; by destruct H]. }
  cbn [buildLoop] in Hb.
  destruct (processRef projKey flag lines ctxLines st ref) as [st' |] eqn:Hp;
    [| done].
  cbn in Hb. apply processRef_hunks in Hp as (Hinv' & Hne & Hlen); [| done].
  destruct (maxHunkedLinesPerFileAndFlagCount <? numHunkedLines st').
  - injection Hb as <- <-. cbn [length]. split; [done |]. split; [lia | done].
  - apply IH in Hb as (H1 & H2 & H3); [| done].
    split; [done |]. cbn [length]. split; [lia |]. intros _.
    destruct hs; [| done]. destruct (hunks st'); [done | cbn in H2; lia].
Qed.

End HunkerMore.

(** The hunks of a flag in a file carry the project key and the flag key
    and start at the line number of a search result of the file; there is
    at most one hunk per reference, and at least one when there is a
    reference. *)
Theorem buildHunksForFlag_hunks_of_flag (projKey flag file : string)
  (lines : list searchResultLine) (ctxLines : Z) (refs : list nat)
  (hs : list HunkRep) (log : list logEvent)
  (Hbuild : buildHunksForFlag projKey flag file lines ctxLines refs
            = Some (hs, log)) :
  Forall (hunkOf projKey flag lines) hs /\
  (length hs <= length refs)%nat /\
  (refs <> [] -> hs <> []).
Proof.
  apply buildLoop_hunks in Hbuild as (H1 & H2 & H3); [| constructor].
  cbn in H2. split; [done |]. split; [lia | done].
Qed.

Lemma buildHunksForFlag_hunks_of_flag_witness :
  exists hs log,
    buildHunksForFlag "default" "foo-flag" "a.go" twoMatches 1 [1; 4]%nat
    = Some (hs, log) /\
    Forall (hunkOf "default" "foo-flag" twoMatches) hs /\ length hs = 2%nat.
Proof.
  eexists _, _. split; [vm_compute; reflexivity |].
  split; [| reflexivity].
  refine (proj1 (buildHunksForFlag_hunks_of_flag "default" "foo-flag" "a.go"
                   twoMatches 1 [1; 4]%nat _ _ _)).
  vm_compute. reflexivity.
Defined.

(** ** The hunk builder: the number of lines *)

Lemma totalLines_snoc hs h :
  totalLines (hs ++ [h]) = totalLines hs + countNewlines (Lines h).
Proof.
  induction hs as [| h0 hs IH]; cbn; [lia |].
  unfold totalLines in IH. rewrite IH. lia.
Qed.

Section HunkerLines.
Context (projKey flag file : string) (lines : list searchResultLine)
        (ctxLines : Z).
Context (Htexts : oneLineTexts lines).

(** The lines that are counted are the lines of the hunks. *)
Lemma processRef_totalLines st ref st' :
  processRef projKey flag lines ctxLines st ref = Some st' ->
  totalLines (hunks st) = numHunkedLines st ->
  (forall h, last (hunks st) = Some h -> Lines h = hunkStringBuilder st) ->
  totalLines (hunks st') = numHunkedLines st' /\
  (forall h, last (hunks st') = Some h -> Lines h = hunkStringBuilder st').
Proof.
  unfold processRef. intros Hp Htot Hlast.
  destruct (seekBack lines (lastSeenLineNum st) (Z.to_nat ctxLines) ref 0 false)
    as [[[ptr num] app] |] eqn:Hback; [| done]. cbn in Hp.
  destruct app.
  - cbn in Hp.
    destruct (seekForward flag lines _ ptr st) as [st2 |] eqn:Hfwd; [| done].
    cbn in Hp.
    apply seekForward_general in Hfwd as (Hh & _ & Hn & _); [| done].
    unfold finishHunk in Hp.
    destruct (setPreviousLines (hunks st2) (hunkStringBuilder st2))
      as [hs |] eqn:Hprev; [| done].
    cbn in Hp. injection Hp as <-. cbn.
    apply setPreviousLines_Some in Hprev as (hs0 & h & Heq & ->).
    rewrite Hh in Heq. rewrite Heq in Htot, Hlast.
    specialize (Hlast h (last_snoc _ _)).
    rewrite totalLines_snoc in Htot |- *. cbn.
    split; [rewrite Hlast in Htot; lia |].
    intros h'. rewrite last_snoc. by intros [= <-].
  - destruct (lines !! ptr) as [l |] eqn:Hl; [| done]. cbn in Hp.
    destruct (seekForward flag lines _ ptr _) as [st2 |] eqn:Hfwd; [| done].
    cbn in Hp.
    apply seekForward_general in Hfwd as (Hh & _ & Hn & _); [| done].
    injection Hp as <-. cbn in *. rewrite Hh, totalLines_snoc. cbn.
    split; [lia |]. intros h'. rewrite last_snoc. by intros [= <-].
Qed.

Lemma buildLoop_totalLines refs : forall st hs log,
  buildLoop projKey flag file lines ctxLines refs st = Some (hs, log) ->
  totalLines (hunks st) = numHunkedLines st ->
  (forall h, last (hunks st) = Some h -> Lines h = hunkStringBuilder st) ->
  numHunkedLines st <= maxHunkedLinesPerFileAndFlagCount ->
  (log = [] /\ totalLines hs <= maxHunkedLinesPerFileAndFlagCount) \/
  (log = [WarnHunkedLines (totalLines hs) file flag] /\
   maxHunkedLinesPerFileAndFlagCount < totalLines hs
   <= maxHunkedLinesPerFileAndFlagCount + Z.max 0 (2 * ctxLines + 1)).
Proof.
  induction refs as [| ref refs IH]; intros st hs log Hb Htot Hlast Hle.
  { cbn in Hb. injection Hb as <- <-. left. split; [done | lia]. }
  cbn [buildLoop] in Hb.
  destruct (processRef projKey flag lines ctxLines st ref) as [st' |] eqn:Hp;
    [| done].
  cbn in Hb.
  destruct (processRef_totalLines _ _ _ Hp Htot Hlast) as [Htot' Hlast'].
  assert (Hn : numHunkedLines st'
               <= numHunkedLines st + Z.max 0 (2 * ctxLines + 1)).
    by (eapply processRef_window; exact Hp).
  destruct (Z.ltb_spec maxHunkedLinesPerFileAndFlagCount (numHunkedLines st')).
  - injection Hb as <- <-. right. rewrite Htot'. split; [done | lia].
  - by apply IH in Hb.
Qed.

End HunkerLines.

(** The hunks of a flag in a file hold at most 500 lines plus the window of
    one reference, which has at most [2 * ctxLines + 1] lines: the builder
    stops after the reference that takes the count above 500, and the count
    it logs then is the number of lines of the hunks it returns. *)
Theorem buildHunksForFlag_total_lines (projKey flag file : string)
  (lines : list searchResultLine) (ctxLines : Z) (refs : list nat)
  (hs : list HunkRep) (log : list logEvent)
  (Htexts : oneLineTexts lines)
  (Hbuild : buildHunksForFlag projKey flag file lines ctxLines refs
            = Some (hs, log)) :
  (log = [] /\ totalLines hs <= 500) \/
  (log = [WarnHunkedLines (totalLines hs) file flag] /\
   500 < totalLines hs <= 500 + Z.max 0 (2 * ctxLines + 1)).
Proof.
  apply (buildLoop_totalLines projKey flag file lines ctxLines Htexts refs
           initState hs log Hbuild); [done | done |].
  unfold maxHunkedLinesPerFileAndFlagCount. cbn. lia.
Qed.

Lemma buildHunksForFlag_total_lines_witness :
  500 < totalLines (hunks longFileOver) <= 500 + Z.max 0 (2 * 0 + 1).
Proof.
  assert (H1 : oneLineTexts longFileLines).
  { apply Forall_forall. intros l (i & -> & _)%list_elem_of_fmap.
    reflexivity. }
  assert (H2 : buildHunksForFlag "default" "f" "big.go" longFileLines 0
                 (seq 0 502)
               = Some (hunks longFileOver, [WarnHunkedLines 501 "big.go" "f"]))
    by (vm_compute; reflexivity).
  destruct (buildHunksForFlag_total_lines "default" "f" "big.go"
              longFileLines 0 (seq 0 502) (hunks longFileOver)
              [WarnHunkedLines 501 "big.go" "f"] H1 H2)
    as [[Hnil _] | [_ H]]; [discriminate Hnil | exact H].
Defined.

(** ** The hunk builder without context *)

Lemma buildLoop_negative projKey flag file lines ctxLines refs : forall st,
  ctxLines < 0 ->
  Forall (fun r => (r < length lines)%nat) refs ->
  numHunkedLines st = 0 ->
  buildLoop projKey flag file lines ctxLines refs st
  = Some (hunks st ++ map (bareHunk projKey flag lines) refs, []).
Proof.
  intros st Hneg. revert st.
  induction refs as [| ref refs IH]; intros st Hrefs Hzero.
  { cbn. by rewrite app_nil_r. }
  apply Forall_cons in Hrefs as [Href Hrefs].
  apply lookup_lt_is_Some_2 in Href as [l Hl].
  cbn [buildLoop]. unfold processRef.
  replace (Z.to_nat ctxLines) with 0%nat by lia. cbn [seekBack].
  cbn. rewrite Hl. cbn.
  replace (Z.to_nat (0 + 1 + ctxLines)) with 0%nat by lia. cbn.
  rewrite Hzero. cbn.
  rewrite IH by done. cbn. rewrite <- app_assoc. cbn.
  unfold bareHunk at 2, lineNumAt. by rewrite Hl.
Qed.

(** With a negative number of context lines every reference gets a hunk of
    its own that starts at its line and holds no line of the source, and no
    alias either; nothing is counted towards the limit of 500 lines. *)
Theorem buildHunksForFlag_negative_context (projKey flag file : string)
  (lines : list searchResultLine) (ctxLines : Z) (refs : list nat)
  (Hneg : ctxLines < 0)
  (Hrefs : Forall (fun r => (r < length lines)%nat) refs) :
  buildHunksForFlag projKey flag file lines ctxLines refs
  = Some (map (bareHunk projKey flag lines) refs, []).
Proof.
  unfold buildHunksForFlag. by rewrite buildLoop_negative.
Qed.

Lemma buildHunksForFlag_negative_context_witness :
  buildHunksForFlag "default" "my-flag" "a.go" aliasHunkLines (-1) [0; 2]%nat
  = Some ([{| ProjKey := "default"; FlagKey := "my-flag";
              StartingLineNumber := 1; Lines := EmptyString;
              Aliases := [] |};
           {| ProjKey := "default"; FlagKey := "my-flag";
              StartingLineNumber := 3; Lines := EmptyString;
              Aliases := [] |}], []).
Proof.
  refine (buildHunksForFlag_negative_context "default" "my-flag" "a.go"
            aliasHunkLines (-1) [0; 2]%nat _ _).
  - reflexivity.
  - repeat constructor.
Defined.

(** ** From the search results to the hunks *)

Lemma aggregateByPath_inv g files :
  aggregateByPath g = Ok files ->
  concat (map fileSearchResultLines files) = g /\
  Forall fileInv files.
Proof.
  destruct g as [| first g]; [by intros [= <-] |].
  unfold aggregateByPath. intros Hagg.
  apply aggregateLoop_inv in Hagg
    as (Hcat & Hinv & _);
    [| apply fileInv_new | constructor | constructor | by intros i f1 f2 [=]
     | by intros f0 [=] | right; by exists first].
  done.
Qed.

Lemma hunkRepsLoop_origin projKey fsr ctxLines entries :
  forall hunks0 log0 hs log,
  hunkRepsLoop projKey fsr ctxLines entries hunks0 log0 = Some (hs, log) ->
  forall h, h ∈ hs ->
    h ∈ hunks0 \/
    exists flagKey refs fh l,
      (flagKey, refs) ∈ entries /\
      buildHunksForFlag projKey flagKey (path fsr)
        (fileSearchResultLines fsr) ctxLines refs = Some (fh, l) /\
      h ∈ fh.
Proof.
  induction entries as [| [k refs] entries IH]; intros hunks0 log0 hs log Hl h Hh.
  { cbn in Hl. injection Hl as <- <-. by left. }
  cbn [hunkRepsLoop] in Hl.
  destruct (buildHunksForFlag _ _ _ _ _ _) as [[fh l] |] eqn:Hb; [| done].
  cbn in Hl. destruct (IH _ _ _ _ Hl h Hh)
    as [[Hin | Hin]%elem_of_app | (k' & refs' & fh' & l' & Hin & Hb' & Hh')].
  - by left.
  - right. exists k, refs, fh, l. split; [by left | done].
  - right. exists k', refs', fh', l'. split; [by right | done].
Qed.

(** The hunks of a file come from the flags that its lines mention. *)
Lemma makeHunkReps_origin fsr projKey ctxLines hs log h :
  fileInv fsr ->
  makeHunkReps fsr projKey ctxLines = Some (hs, log) -> h ∈ hs ->
  exists key fh l,
    mentions key (fileSearchResultLines fsr) <> [] /\
    buildHunksForFlag projKey key (path fsr) (fileSearchResultLines fsr)
      ctxLines (mentions key (fileSearchResultLines fsr)) = Some (fh, l) /\
    h ∈ fh.
Proof.
  intros (_ & _ & Hrefs) Hm Hh. unfold makeHunkReps in Hm.
  destruct (hunkRepsLoop_origin _ _ _ _ _ _ _ _ Hm h Hh)
    as [Hin | (k & refs & fh & l & Hin & Hb & Hh')];
    [by apply elem_of_nil in Hin |].
  apply elem_of_map_to_list in Hin. rewrite Hrefs in Hin.
  destruct (decide (mentions k (fileSearchResultLines fsr) = []));
    [done |].
  injection Hin as <-. by exists k, fh, l.
Qed.

(** A file gives no hunk only when none of its lines mentions a flag. *)
Lemma makeHunkReps_none fsr projKey ctxLines log :
  fileInv fsr ->
  makeHunkReps fsr projKey ctxLines = Some ([], log) ->
  forall l, l ∈ fileSearchResultLines fsr -> FlagKeys l = ∅.
Proof.
  intros (_ & _ & Hrefs) Hm l Hl. unfold makeHunkReps in Hm.
  apply map_eq. intros key. rewrite lookup_empty.
  destruct (FlagKeys l !! key) as [a |] eqn:Hk; [| done]. exfalso.
  apply list_elem_of_lookup_1 in Hl as [r Hr].
  assert (Hin : r ∈ mentions key (fileSearchResultLines fsr))
    by (apply elem_of_mentions; exists l; by rewrite Hk).
  pose proof (Hrefs key) as Hkey.
  destruct (decide (mentions key (fileSearchResultLines fsr) = []))
    as [Hnil | Hne]; [rewrite Hnil in Hin; by apply elem_of_nil in Hin |].
  apply elem_of_map_to_list in Hkey.
  destruct (hunkRepsLoop_spec _ _ _ _ _ _ _ _ Hm) as (_ & _ & Hall).
  destruct (Hall _ _ Hkey) as (fh & l' & Hb & Hsub & _).
  apply buildLoop_hunks in Hb as (_ & _ & Hfh); [| constructor].
  destruct fh as [| h fh]; [by apply Hfh |].
  specialize (Hsub h ltac:(left)). by apply elem_of_nil in Hsub.
Qed.

Lemma repsLoop_origin projKey ctxLines files :
  forall n s reps0 log0 reps log,
  repsLoop projKey ctxLines files n s reps0 log0 = Some (reps, log) ->
  forall rep, rep ∈ reps ->
    rep ∈ reps0 \/
    exists fsr hs l,
      fsr ∈ files /\ makeHunkReps fsr projKey ctxLines = Some (hs, l) /\
      rep = {| RepPath := path fsr; Hunks := hs |}.
Proof.
  induction files as [| fsr files IH]; intros n s reps0 log0 reps log Hl rep Hr.
  { cbn in Hl. injection Hl as <- <-. by left. }
  cbn [repsLoop] in Hl.
  destruct (maxHunkCount <? n); [injection Hl as <- <-; by left |].
  destruct (makeHunkReps fsr projKey ctxLines) as [[hs l] |] eqn:Hm; [| done].
  cbn in Hl.
  destruct ((Z.of_nat (length hs) =? 0) && negb s).
  - destruct (IH _ _ _ _ _ _ Hl rep Hr)
      as [Hin | (f & hs' & l' & Hin & Hm' & ->)]; [by left |].
    right. exists f, hs', l'. split; [by right | done].
  - destruct (IH _ _ _ _ _ _ Hl rep Hr)
      as [[Hin | ->%list_elem_of_singleton]%elem_of_app
         | (f & hs' & l' & Hin & Hm' & ->)].
    + by left.
    + right. exists fsr, hs, l. split; [by left | done].
    + right. exists f, hs', l'. split; [by right | done].
Qed.

Lemma limitFiles_subseteq files fs l f :
  limitFiles files = (fs, l) -> f ∈ fs -> f ∈ files.
Proof.
  unfold limitFiles. destruct (maxFileCount <? _); intros [= <- <-] Hf;
    [| done].
  by apply subseteq_take in Hf.
Qed.

(** Where a hunk of the result comes from: a file of the aggregation, a
    flag that the file mentions, and the hunks built for them. *)
Lemma makeReferenceHunksReps_origin g projKey ctxLines reps log rep h :
  makeReferenceHunksReps g projKey ctxLines = Ok (reps, log) ->
  rep ∈ reps -> h ∈ Hunks rep ->
  exists f key fh l,
    fileInv f /\ path f = RepPath rep /\
    (forall x, x ∈ fileSearchResultLines f -> x ∈ g) /\
    mentions key (fileSearchResultLines f) <> [] /\
    buildHunksForFlag projKey key (path f) (fileSearchResultLines f)
      ctxLines (mentions key (fileSearchResultLines f)) = Some (fh, l) /\
    h ∈ fh.
Proof.
  unfold makeReferenceHunksReps. intros Hm Hrep Hh.
  destruct (aggregateByPath g) as [files | |] eqn:Hagg; [| done | done].
  apply aggregateByPath_inv in Hagg as [Hcat Hinv].
  destruct (limitFiles files) as [fs l0] eqn:Hlim.
  destruct (repsLoop _ _ _ _ _ _ _) as [[reps' log'] |] eqn:Hloop;
    [| done].
  injection Hm as -> ->.
  destruct (repsLoop_origin _ _ _ _ _ _ _ _ _ Hloop rep Hrep)
    as [Hin | (f & hs & l & Hf & Hmk & ->)]; [by apply elem_of_nil in Hin |].
  apply (limitFiles_subseteq _ _ _ _ Hlim) in Hf.
  rewrite Forall_forall in Hinv. specialize (Hinv f Hf).
  destruct (makeHunkReps_origin _ _ _ _ _ h Hinv Hmk Hh)
    as (key & fh & l' & Hne & Hb & Hfh).
  exists f, key, fh, l'. split; [done |]. split; [done |].
  split; [| done]. intros x Hx. rewrite <- Hcat. apply list_elem_of_In, in_concat.
  exists (fileSearchResultLines f). split; [| by apply list_elem_of_In].
  apply in_map. by apply list_elem_of_In.
Qed.

(** Every hunk that is reported for a path carries the project key, names a
    flag that a search result of this path mentions, and starts at the line
    of a search result of this path. *)
Theorem makeReferenceHunksReps_hunks_from_results
  (g : list searchResultLine) (projKey : string) (ctxLines : Z)
  (reps : list ReferenceHunksRep) (log : list logEvent)
  (rep : ReferenceHunksRep) (h : HunkRep)
  (Hreps : makeReferenceHunksReps g projKey ctxLines = Ok (reps, log))
  (Hrep : rep ∈ reps) (Hh : h ∈ Hunks rep) :
  ProjKey h = projKey /\
  (exists l, l ∈ g /\ Path l = RepPath rep /\
             is_Some (FlagKeys l !! FlagKey h)) /\
  (exists l, l ∈ g /\ Path l = RepPath rep /\
             LineNum l = StartingLineNumber h).
Proof.
  destruct (makeReferenceHunksReps_origin _ _ _ _ _ _ _ Hreps Hrep Hh)
    as (f & key & fh & l & Hinv & Hpath & Hg & Hne & Hb & Hfh).
  apply buildLoop_hunks in Hb as (Hof & _); [| constructor].
  rewrite Forall_forall in Hof.
  destruct (Hof h Hfh) as (Hpk & Hfk & l1 & Hl1 & Hstart).
  destruct Hinv as (Hpaths & _). rewrite Forall_forall in Hpaths.
  split; [done |]. split.
  - destruct (mentions key (fileSearchResultLines f)) as [| r rs] eqn:Hmen;
      [done |].
    assert (r ∈ mentions key (fileSearchResultLines f)) as Hr
      by (rewrite Hmen; left).
    apply elem_of_mentions in Hr as (l2 & Hl2 & Hk).
    apply list_elem_of_lookup_2 in Hl2.
    exists l2. split; [by apply Hg |]. rewrite Hfk.
    split; [| done]. rewrite <- Hpath. by apply Hpaths.
  - exists l1. split; [by apply Hg |].
    split; [| done]. rewrite <- Hpath. by apply Hpaths.
Qed.

Lemma makeReferenceHunksReps_hunks_from_results_witness :
  ProjKey blankFirstHunk = "default" /\
  (exists l, l ∈ blankFiles /\ Path l = "a.go" /\
             is_Some (FlagKeys l !! "foo-flag")) /\
  (exists l, l ∈ blankFiles /\ Path l = "a.go" /\ LineNum l = 1).
Proof.
  refine (makeReferenceHunksReps_hunks_from_results blankFiles "default" 0
            (fst blankFilesReps) (snd blankFilesReps)
            blankFirstRep blankFirstHunk _ _ _).
  - vm_compute. reflexivity.
  - apply list_elem_of_In. vm_compute. left. reflexivity.
  - apply list_elem_of_In. vm_compute. left. reflexivity.
Defined.

(** ** Files without hunks *)

Lemma repsLoop_log_mono projKey ctxLines files :
  forall n s reps0 log0 reps log,
  repsLoop projKey ctxLines files n s reps0 log0 = Some (reps, log) ->
  forall e, e ∈ log0 -> e ∈ log.
Proof.
  induction files as [| fsr files IH]; intros n s reps0 log0 reps log Hl e He.
  { cbn in Hl. by injection Hl as <- <-. }
  cbn [repsLoop] in Hl.
  destruct (maxHunkCount <? n).
  { injection Hl as <- <-. apply elem_of_app. by left. }
  destruct (makeHunkReps fsr projKey ctxLines) as [[hs l] |]; [| done].
  cbn in Hl.
  destruct (_ && _); eapply IH; try exact Hl; apply elem_of_app; by left.
Qed.

Lemma repsLoop_noHunks projKey ctxLines files :
  forall n s reps0 log0 reps log,
  repsLoop projKey ctxLines files n s reps0 log0 = Some (reps, log) ->
  (length (List.filter isNoHunks log)
   <= length (List.filter isNoHunks log0) + (if s then 0 else 1))%nat /\
  (forall rep, rep ∈ reps -> Hunks rep = [] ->
               rep ∈ reps0 \/ s = true \/ exists p, ErrNoHunks p ∈ log) /\
  (forall p, ErrNoHunks p ∈ log ->
             ErrNoHunks p ∈ log0 \/
             exists fsr l, fsr ∈ files /\ path fsr = p /\
                           makeHunkReps fsr projKey ctxLines = Some ([], l)).
Proof.
  induction files as [| fsr files IH]; intros n s reps0 log0 reps log Hl.
  { cbn in Hl. injection Hl as <- <-.
    split; [lia |]. split; [by left | by left]. }
  cbn [repsLoop] in Hl.
  destruct (maxHunkCount <? n).
  { injection Hl as <- <-. rewrite List.filter_app, length_app. cbn.
    split; [lia |]. split; [by left |].
    intros p [Hin | [=]%list_elem_of_singleton]%elem_of_app. by left. }
  destruct (makeHunkReps fsr projKey ctxLines) as [[hs l] |] eqn:Hm; [| done].
  cbn in Hl.
  assert (Hnone : List.filter isNoHunks l = [] /\
                  forall p, ErrNoHunks p ∉ l).
  { apply makeHunkReps_log in Hm. rewrite Forall_forall in Hm. split.
    - clear IH Hl. induction l as [| e l IHl]; [done |].
      destruct (Hm e ltac:(left)) as (k & fl & ->). cbn.
      apply IHl. intros x Hx. apply Hm. by right.
    - intros p Hp. by destruct (Hm _ Hp) as (k & fl & [=]). }
  destruct Hnone as [Hfilter Hnotin].
  destruct (Z.eqb_spec (Z.of_nat (length hs)) 0) as [Hz | Hnz];
    destruct s; cbn [andb negb] in Hl;
    pose proof (repsLoop_log_mono _ _ _ _ _ _ _ _ _ Hl) as Hmono;
    apply IH in Hl as (Hcount & Hempty & Herr).
  - (* no hunks, already suppressed: the file is appended without hunks *)
    rewrite !List.filter_app, !length_app, Hfilter in Hcount. cbn in Hcount.
    split; [lia |]. split; [by eauto |].
    intros p Hp. destruct (Herr p Hp)
      as [[Hin | Hin]%elem_of_app | (f & l' & Hf & Hpf & Hmk)].
    + by left.
    + by apply Hnotin in Hin.
    + right. exists f, l'. split; [by right | done].
  - (* no hunks, first time: the error is logged and the file is skipped *)
    rewrite !List.filter_app, !length_app, Hfilter in Hcount. cbn in Hcount.
    split; [lia |]. split.
    + intros rep Hrep Hnil. destruct (Hempty rep Hrep Hnil) as [? | [_ | ?]];
        [by left | | by eauto].
      right. right. exists (path fsr). apply Hmono.
      rewrite !elem_of_app, list_elem_of_singleton. by right; right.
    + intros p Hp. destruct (Herr p Hp)
        as [[Hin | [Hin | Hin]%elem_of_app]%elem_of_app
           | (f & l' & Hf & Hpf & Hmk)].
      * by left.
      * by apply Hnotin in Hin.
      * apply list_elem_of_singleton in Hin. injection Hin as ->.
        right. exists fsr, l. split; [by left |]. split; [done |].
        destruct hs; [done | cbn in Hz; lia].
      * right. exists f, l'. split; [by right | done].
  - rewrite !List.filter_app, !length_app, Hfilter in Hcount. cbn in Hcount.
    split; [lia |]. split; [by eauto |].
    intros p Hp. destruct (Herr p Hp)
      as [[Hin | Hin]%elem_of_app | (f & l' & Hf & Hpf & Hmk)].
    + by left.
    + by apply Hnotin in Hin.
    + right. exists f, l'. split; [by right | done].
  - rewrite !List.filter_app, !length_app, Hfilter in Hcount. cbn in Hcount.
    split; [lia |]. split.
    + intros rep Hrep Hnil.
      destruct (Hempty rep Hrep Hnil)
        as [[Hin | ->%list_elem_of_singleton]%elem_of_app | [[=] | ?]];
        [by left | | by eauto].
      cbn in Hnil. subst hs. done.
    + intros p Hp. destruct (Herr p Hp)
        as [[Hin | Hin]%elem_of_app | (f & l' & Hf & Hpf & Hmk)].
      * by left.
      * by apply Hnotin in Hin.
      * right. exists f, l'. split; [by right | done].
Qed.

Lemma makeHunkReps_log_noHunks fsr projKey ctxLines hs l :
  makeHunkReps fsr projKey ctxLines = Some (hs, l) ->
  List.filter isNoHunks l = [].
Proof.
  intros Hm%makeHunkReps_log. rewrite Forall_forall in Hm.
  induction l as [| e l IHl]; [done |].
  destruct (Hm e ltac:(left)) as (k & fl & ->). cbn.
  apply IHl. intros x Hx. apply Hm. by right.
Qed.

(** What the loop over the files reports: the files it looks at, without
    the first one that has no hunk when the error was not logged yet. *)
Lemma repsLoop_reports projKey ctxLines files :
  forall n s reps0 log0 reps log,
  repsLoop projKey ctxLines files n s reps0 log0 = Some (reps, log) ->
  exists seen all,
    seen `prefix_of` files /\
    Forall2 (reportOf projKey ctxLines) seen all /\
    reps = reps0 ++ (if s then all else dropFirstEmpty all) /\
    List.filter isNoHunks log
    = List.filter isNoHunks log0 ++ (if s then [] else firstEmptyError all).
Proof.
  induction files as [| fsr files IH]; intros n s reps0 log0 reps log Hl.
  { cbn in Hl. injection Hl as <- <-. exists [], [].
    split; [done |]. split; [constructor |].
    destruct s; by rewrite !app_nil_r. }
  cbn [repsLoop] in Hl.
  destruct (maxHunkCount <? n).
  { injection Hl as <- <-. exists [], [].
    split; [apply prefix_nil |]. split; [constructor |].
    rewrite List.filter_app. destruct s; by rewrite !app_nil_r. }
  destruct (makeHunkReps fsr projKey ctxLines) as [[hs l] |] eqn:Hm; [| done].
  pose proof (makeHunkReps_log_noHunks _ _ _ _ _ Hm) as Hfilter.
  assert (Hrep : reportOf projKey ctxLines fsr
                   {| RepPath := path fsr; Hunks := hs |})
    by (split; [done | by exists l]).
  cbn in Hl.
  destruct (Z.eqb_spec (Z.of_nat (length hs)) 0) as [Hz | Hnz];
    destruct s; cbn [andb negb] in Hl;
    apply IH in Hl as (seen & all & Hpre & Hall & -> & Hlog);
    exists (fsr :: seen), ({| RepPath := path fsr; Hunks := hs |} :: all);
    (split; [by apply prefix_cons |]); (split; [by constructor |]);
    rewrite Hlog, ?List.filter_app, Hfilter; cbn [app].
  - split; [by rewrite <- app_assoc | by rewrite !app_nil_r].
  - destruct hs; [| cbn in Hz; lia]. cbn. by rewrite !app_nil_r.
  - split; [by rewrite <- app_assoc | by rewrite !app_nil_r].
  - destruct hs as [| h hs]; [done |].
    split; [by rewrite <- app_assoc | by rewrite app_nil_r].
Qed.

(** The error about a file without code references is logged at most once,
    and only for a file none of whose search results mentions a flag: that
    file is left out; the files without hunks that come after it are
    reported, with no hunk.  The result holds the reports of the files
    looked at, in their order, without the first report that has no hunk,
    and the error names the path of that report. *)
Theorem makeReferenceHunksReps_no_hunks_error
  (g : list searchResultLine) (projKey : string) (ctxLines : Z)
  (reps : list ReferenceHunksRep) (log : list logEvent)
  (Hreps : makeReferenceHunksReps g projKey ctxLines = Ok (reps, log)) :
  (length (List.filter isNoHunks log) <= 1)%nat /\
  (forall rep, rep ∈ reps -> Hunks rep = [] -> exists p, ErrNoHunks p ∈ log) /\
  (forall p, ErrNoHunks p ∈ log ->
     exists files f,
       aggregateByPath g = Ok files /\ f ∈ files /\ path f = p /\
       forall l, l ∈ fileSearchResultLines f -> FlagKeys l = ∅) /\
  (exists files seen all,
     aggregateByPath g = Ok files /\ seen `prefix_of` files /\
     Forall2 (reportOf projKey ctxLines) seen all /\
     reps = dropFirstEmpty all /\
     List.filter isNoHunks log = firstEmptyError all).
Proof.
  unfold makeReferenceHunksReps in Hreps.
  destruct (aggregateByPath g) as [files | |] eqn:Hagg; [| done | done].
  pose proof (aggregateByPath_inv _ _ Hagg) as [_ Hinv].
  destruct (limitFiles files) as [fs l0] eqn:Hlim.
  destruct (repsLoop _ _ _ _ _ _ _) as [[reps' log'] |] eqn:Hloop;
    [| done].
  injection Hreps as -> ->.
  assert (Hl0 : List.filter isNoHunks l0 = [] /\ forall p, ErrNoHunks p ∉ l0).
  { unfold limitFiles in Hlim. destruct (maxFileCount <? _);
      injection Hlim as _ <-; split; try done.
    - intros p [=]%list_elem_of_singleton.
    - intros p []%elem_of_nil. }
  destruct Hl0 as [Hf0 Hn0].
  pose proof (repsLoop_reports _ _ _ _ _ _ _ _ _ Hloop)
    as (seen & all & Hpre & Hall & Hr & Hlog).
  apply repsLoop_noHunks in Hloop as (Hcount & Hempty & Herr).
  rewrite Hf0 in Hcount. split; [exact Hcount |]. split; [| split].
  - intros rep Hrep Hnil.
    destruct (Hempty rep Hrep Hnil) as [[]%elem_of_nil | [[=] | ?]]. done.
  - intros p Hp. destruct (Herr p Hp) as [?%Hn0 | (f & l & Hf & Hpf & Hmk)];
      [done |].
    apply (limitFiles_subseteq _ _ _ _ Hlim) in Hf.
    exists files, f. split; [done |]. split; [done |]. split; [done |].
    rewrite Forall_forall in Hinv.
    by apply (makeHunkReps_none f projKey ctxLines l (Hinv f Hf)).
  - exists files, seen, all. split; [done |]. split; [| by rewrite Hf0 in Hlog].
    etrans; [exact Hpre |]. unfold limitFiles in Hlim.
    destruct (maxFileCount <? _); injection Hlim as <- _; [| done].
    eexists. symmetry. apply take_drop.
Qed.

Lemma makeReferenceHunksReps_no_hunks_error_witness :
  map RepPath (fst blankFilesReps) = ["a.go"; "c.go"; "d.go"] /\
  map noHunks (fst blankFilesReps) = [false; false; true] /\
  snd blankFilesReps = [ErrNoHunks "b.go"] /\
  (length (List.filter isNoHunks (snd blankFilesReps)) <= 1)%nat.
Proof.
  split; [reflexivity |]. split; [reflexivity |]. split; [reflexivity |].
  refine (proj1 (makeReferenceHunksReps_no_hunks_error blankFiles "default" 0
                   (fst blankFilesReps) (snd blankFilesReps) _)).
  vm_compute. reflexivity.
Defined.

(** ** A run without context lines *)

(** With a negative number of context lines the branch that is sent holds
    no line of the source: every hunk has an empty text, and no alias. *)
Theorem Scan_negative_context_sends_no_source (opts : options.Options)
  (w : world) (br : ld.BranchRep) (rep : ReferenceHunksRep) (h : HunkRep)
  (Hneg : options.ContextLines opts < 0)
  (Hsent : PutBranch br ∈ snd (Scan opts w))
  (Hrep : rep ∈ ld.References br) (Hh : h ∈ Hunks rep) :
  Lines h = EmptyString /\ Aliases h = [].
Proof.
  apply (Scan_call _ _ (PutBranch br) eq_refl) in Hsent
    as (_ & b & branchRep & l & _ & _ & _ & _ & Hmk & _ & Hin).
  apply submit_puts in Hin as ->.
  unfold makeBranchRep in Hmk.
  destruct (makeReferenceHunksReps _ _ _) as [[refs l'] | |] eqn:Hreps;
    [| done | done].
  injection Hmk as <- <-. cbn in Hrep.
  destruct (makeReferenceHunksReps_origin _ _ _ _ _ _ _ Hreps Hrep Hh)
    as (f & key & fh & l0 & _ & _ & _ & _ & Hb & Hfh).
  unfold buildHunksForFlag in Hb. rewrite buildLoop_negative in Hb; try done.
  - injection Hb as <- _. cbn in Hfh.
    by apply list_elem_of_fmap in Hfh as (r & -> & _).
  - apply Forall_forall. intros r (x & Hx & _)%elem_of_mentions.
    by apply lookup_lt_Some in Hx.
Qed.

Lemma Scan_negative_context_sends_no_source_witness :
  Forall (fun rep => Forall (fun h => Lines h = EmptyString /\ Aliases h = [])
                            (Hunks rep))
         (ld.References noContextBranch) /\
  ld.References noContextBranch <> [].
Proof.
  split; [| vm_compute; discriminate].
  apply Forall_forall. intros rep Hrep. apply Forall_forall. intros h Hh.
  refine (Scan_negative_context_sends_no_source noContextOptions staleWorld
            noContextBranch rep h _ _ Hrep Hh).
  - reflexivity.
  - apply list_elem_of_In. vm_compute. left. reflexivity.
Defined.

(** ** The limit of files *)

Lemma repsLoop_sublist projKey ctxLines files :
  forall n s reps0 log0 reps log,
  repsLoop projKey ctxLines files n s reps0 log0 = Some (reps, log) ->
  (exists added, reps = reps0 ++ added /\
                 map RepPath added `sublist_of` map path files) /\
  (forall k, WarnFileCount k ∈ log -> WarnFileCount k ∈ log0).
Proof.
  induction files as [| fsr files IH]; intros n s reps0 log0 reps log Hl.
  { cbn in Hl. injection Hl as <- <-. split; [| done].
    exists []. by rewrite app_nil_r. }
  cbn [repsLoop] in Hl.
  destruct (maxHunkCount <? n).
  { injection Hl as <- <-. split.
    - exists []. rewrite app_nil_r. split; [done |]. apply sublist_nil_l.
    - intros k [Hin | [=]%list_elem_of_singleton]%elem_of_app. done. }
  destruct (makeHunkReps fsr projKey ctxLines) as [[hs l] |] eqn:Hm; [| done].
  cbn in Hl.
  assert (Hnotin : forall k, WarnFileCount k ∉ l).
  { apply makeHunkReps_log in Hm. rewrite Forall_forall in Hm.
    intros k Hk. by destruct (Hm _ Hk) as (? & ? & [=]). }
  destruct (_ && _); apply IH in Hl as ((added & -> & Hsub) & Hw).
  - split.
    + exists added. split; [done |]. cbn. by constructor.
    + intros k Hk. apply Hw in Hk.
      apply elem_of_app in Hk as [Hk | [Hk | [=]%list_elem_of_singleton]%elem_of_app];
        [done | by apply Hnotin in Hk].
  - split.
    + eexists. rewrite <- app_assoc. split; [reflexivity |]. cbn.
      by constructor.
    + intros k Hk. apply Hw in Hk.
      apply elem_of_app in Hk as [Hk | Hk]; [done | by apply Hnotin in Hk].
Qed.

(** At most 10000 files are reported: the files of the result are among the
    first 10000 files of the search results, in their order, and the warning
    about the number of files is logged exactly when there are more. *)
Theorem makeReferenceHunksReps_file_limit
  (g : list searchResultLine) (projKey : string) (ctxLines : Z)
  (reps : list ReferenceHunksRep) (log : list logEvent)
  (files : list fileSearchResults)
  (Hreps : makeReferenceHunksReps g projKey ctxLines = Ok (reps, log))
  (Hagg : aggregateByPath g = Ok files) :
  map RepPath reps `sublist_of` take (Z.to_nat maxFileCount) (map path files) /\
  Z.of_nat (length reps) <= maxFileCount /\
  (forall n, WarnFileCount n ∈ log <->
             n = Z.of_nat (length files) /\ maxFileCount < n).
Proof.
  unfold makeReferenceHunksReps in Hreps. rewrite Hagg in Hreps.
  destruct (limitFiles files) as [fs l0] eqn:Hlim.
  destruct (repsLoop _ _ _ _ _ _ _) as [[reps' log'] |] eqn:Hloop;
    [| done].
  injection Hreps as -> ->.
  pose proof (repsLoop_log_mono _ _ _ _ _ _ _ _ _ Hloop) as Hmono.
  apply repsLoop_sublist in Hloop as ((added & -> & Hsub) & Hw).
  cbn [app] in *.
  assert (Hfs : fs = take (Z.to_nat maxFileCount) files /\
                forall n, WarnFileCount n ∈ l0 <->
                          n = Z.of_nat (length files) /\ maxFileCount < n).
  { unfold limitFiles in Hlim.
    destruct (Z.ltb_spec maxFileCount (Z.of_nat (length files)));
      injection Hlim as <- <-.
    - split; [done |]. intros n. rewrite list_elem_of_singleton.
      split; [by intros [= ->] | by intros [-> _]].
    - split; [by rewrite take_ge by lia |].
      intros n. split; [by intros []%elem_of_nil | lia]. }
  destruct Hfs as [-> Hl0].
  assert (Hsub' : map RepPath added
                  `sublist_of` take (Z.to_nat maxFileCount) (map path files))
    by (by rewrite <- fmap_take).
  split; [exact Hsub' |]. split.
  - apply sublist_length in Hsub'. rewrite length_map in Hsub'.
    rewrite length_take in Hsub'. unfold maxFileCount in *. lia.
  - intros n. rewrite <- Hl0. split; [apply Hw | apply Hmono].
Qed.

Lemma makeReferenceHunksReps_file_limit_witness :
  map RepPath (fst blankFilesReps)
  `sublist_of` take (Z.to_nat maxFileCount) ["a.go"; "b.go"; "c.go"; "d.go"].
Proof.
  assert (Hagg : exists files,
    aggregateByPath blankFiles = Ok files /\
    map path files = ["a.go"; "b.go"; "c.go"; "d.go"])
    by (eexists; split; vm_compute; reflexivity).
  destruct Hagg as (files & Hagg & <-).
  refine (proj1 (makeReferenceHunksReps_file_limit blankFiles "default" 0
                   (fst blankFilesReps) (snd blankFilesReps) files _ Hagg)).
  vm_compute. reflexivity.
Defined.

(** ** Truncation: the length of the result *)

Lemma len_app a b : len (a ++ b)%string = len a + len b.
Proof.
  unfold len. induction a as [| c a IH].
  { change (EmptyString ++ b)%string with b. cbn [String.length]. lia. }
  change (String c a ++ b)%string with (String c (a ++ b)%string).
  cbn [String.length]. lia.
Qed.

Lemma len_encodeRune r : 1 <= len (Utf8.encodeRune r) <= 4.
Proof.
  unfold Utf8.encodeRune.
  repeat match goal with |- context [if ?b then _ else _] => destruct b end;
    unfold len, Utf8.str4, Utf8.str3, Utf8.str2, Utf8.str1;
    cbn [String.length]; lia.
Qed.

Lemma len_encodeRunes rs :
  len (Utf8.encodeRunes rs) <= 4 * Z.of_nat (length rs).
Proof.
  induction rs as [| r rs IH]; [unfold len; cbn; lia |].
  cbn [Utf8.encodeRunes length]. rewrite len_app.
  pose proof (len_encodeRune r). lia.
Qed.

Lemma len_replicate_zero k :
  len (Utf8.encodeRunes (replicate k 0)) = Z.of_nat k.
Proof.
  induction k as [| k IH]; [reflexivity |].
  cbn [replicate Utf8.encodeRunes]. rewrite len_app, IH.
  assert (len (Utf8.encodeRune 0) = 1) as -> by reflexivity. lia.
Qed.

(** Below 449 runes the slice of the runes has no room for 500. *)
Lemma runeSliceCap_small n :
  0 <= n < 449 -> runeSliceCap n < maxLineCharCount.
Proof.
  intros Hn.
  assert (H : forallb (fun k => runeSliceCap (Z.of_nat k) <? maxLineCharCount)
                      (seq 0 449) = true) by (vm_compute; reflexivity).
  rewrite forallb_forall in H.
  specialize (H (Z.to_nat n)). rewrite Z2Nat.id in H by lia.
  apply Z.ltb_lt, H, in_seq. lia.
Qed.

(** A line that comes out of the truncation has at most 2003 bytes: 500
    characters of at most four bytes and the three bytes of the ellipsis.
    A line of more than 500 bytes is truncated only when it holds at least
    449 characters: with fewer the slice of its characters has no room for
    500 of them.  Cutting a line that is well-formed UTF-8 makes it at most
    54 bytes longer: with 449 to 499 characters the whole line is kept and
    filled up to 500 characters with zero bytes, at most 51, before the three
    bytes of the ellipsis. *)
Theorem truncateLine_length (line t : string)
  (Htrunc : truncateLine line = Some t) :
  len t <= 4 * maxLineCharCount + 3 /\
  (maxLineCharCount < len line ->
   449 <= Z.of_nat (length (Utf8.runes line))) /\
  (validUtf8 line ->
   len t <= len line + 54 /\
   (maxLineCharCount <= Z.of_nat (length (Utf8.runes line)) ->
    len t <= len line + 3)).
Proof.
  unfold truncateLine in Htrunc.
  destruct (Z.ltb_spec maxLineCharCount (len line)) as [Hlong | Hshort];
    [| injection Htrunc as <-; unfold maxLineCharCount in *;
       repeat split; lia].
  cbv zeta in Htrunc. unfold sliceTo in Htrunc.
  set (rs := Utf8.runes line) in *.
  destruct (Z.leb_spec maxLineCharCount (Z.of_nat (length rs))) as [Hge | Hlt].
  - cbv beta iota delta [mbind option_bind] in Htrunc.
    injection Htrunc as <-. rewrite len_app.
    assert (len ellipsis = 3) as -> by reflexivity.
    split; [| split; [unfold maxLineCharCount in *; lia |]].
    + pose proof (len_encodeRunes (take (Z.to_nat maxLineCharCount) rs)) as H.
      rewrite length_take in H. unfold maxLineCharCount in *. lia.
    + intros Hvalid. unfold validUtf8 in Hvalid. fold rs in Hvalid.
      rewrite <- (take_drop (Z.to_nat maxLineCharCount) rs) in Hvalid.
      rewrite encodeRunes_app in Hvalid.
      assert (0 <= len (Utf8.encodeRunes (drop (Z.to_nat maxLineCharCount) rs)))
        by (unfold len; lia).
      assert (len line
              = len (Utf8.encodeRunes (take (Z.to_nat maxLineCharCount) rs))
                + len (Utf8.encodeRunes (drop (Z.to_nat maxLineCharCount) rs)))
        by (rewrite <- len_app; by rewrite Hvalid).
      lia.
  - destruct (Z.leb_spec maxLineCharCount
                (runeSliceCap (Z.of_nat (length rs)))) as [Hcap | Hcap];
      [| done].
    assert (Hrunes : 449 <= Z.of_nat (length rs)).
    { destruct (Z.le_gt_cases 449 (Z.of_nat (length rs))); [done |].
      pose proof (runeSliceCap_small (Z.of_nat (length rs)) ltac:(lia)). lia. }
    cbv beta iota delta [mbind option_bind] in Htrunc.
    injection Htrunc as <-. rewrite len_app, encodeRunes_app, len_app.
    rewrite len_replicate_zero.
    assert (len ellipsis = 3) as -> by reflexivity.
    split; [| split; [done |]].
    + pose proof (len_encodeRunes rs). unfold maxLineCharCount in *. lia.
    + intros Hvalid. unfold validUtf8 in Hvalid. fold rs in Hvalid.
      rewrite Hvalid. unfold maxLineCharCount in *. split; lia.
Qed.

Lemma truncateLine_length_witness :
  exists t, truncateLine paddedLine = Some t /\
            len t <= len paddedLine + 54.
Proof.
  eexists. split; [vm_compute; reflexivity |].
  refine (proj1 (proj2 (proj2 (truncateLine_length paddedLine _ _)) _)).
  - vm_compute. reflexivity.
  - vm_compute. reflexivity.
Defined.

(** ** The search for referenced flags without delimiters *)

(** Without delimiters the key is searched like an alias. *)
Lemma keyMatcher_no_delimiters MustCompile key :
  keyMatcher MustCompile EmptyString key = literalMatcher MustCompile key.
Proof. unfold keyMatcher. by destruct (literalMatcher MustCompile key). Qed.

(** Without delimiters (the defaults disabled and none added) a flag key is
    matched by any occurrence in the line, like an alias, when the keys and
    aliases are terms that [regexp] searches literally.  The aliases listed
    for a flag are the ones that occur in the line, in the order of the
    configuration. *)
Theorem findReferencedFlags_no_delimiters
  (MustCompile : string -> option (string -> bool)) (ref : string)
  (aliases : gmap string (list string))
  (Hterms : termsSearchedLiterally MustCompile aliases) :
  exists ret,
    findReferencedFlags MustCompile ref aliases EmptyString = Some ret /\
    (forall key, aliases !! key = None -> ret !! key = None) /\
    (forall key flagAliases, aliases !! key = Some flagAliases ->
       (is_Some (ret !! key) <->
        occursIn key ref \/ exists a, a ∈ flagAliases /\ occursIn a ref) /\
       (forall l, ret !! key = Some l ->
          l `sublist_of` flagAliases /\
          forall a, a ∈ l <-> a ∈ flagAliases /\ occursIn a ref)).
Proof.
  assert (Hentry : forall key flagAliases,
    aliases !! key = Some flagAliases ->
    exists e,
      referencedEntry MustCompile ref EmptyString key flagAliases = Some e /\
      (is_Some e <->
       occursIn key ref \/ exists a, a ∈ flagAliases /\ occursIn a ref) /\
      (forall l, e = Some l ->
         l `sublist_of` flagAliases /\
         forall a, a ∈ l <-> a ∈ flagAliases /\ occursIn a ref)).
  { intros key flagAliases Hk.
    destruct (Hterms key flagAliases Hk) as [(plain & Hplain & Hocc) Hall].
    apply (referencedEntry_spec _ _ _ _ _ plain (occursIn key));
      [| done | done].
    by rewrite keyMatcher_no_delimiters. }
  eexists. split.
  { apply findReferencedFlags_Some. intros key flagAliases Hk.
    destruct (Hentry key flagAliases Hk) as (e & -> & _). by eexists. }
  split.
  - intros key Hk. by rewrite map_lookup_imap, Hk.
  - intros key flagAliases Hk. rewrite map_lookup_imap, Hk. cbn.
    destruct (Hentry key flagAliases Hk) as (e & -> & Hsome & Hl). done.
Qed.

Lemma findReferencedFlags_no_delimiters_witness :
  (forall MustCompile, termsSearchedLiterally MustCompile demoAliases) /\
  forall MustCompile, exists ret,
    findReferencedFlags MustCompile aliasLine demoAliases EmptyString
    = Some ret /\
    (is_Some (ret !! "my-flag") <->
     occursIn "my-flag" aliasLine \/
     exists a, a ∈ ["myFlag"] /\ occursIn a aliasLine).
Proof.
  assert (Hterms : forall MustCompile,
            termsSearchedLiterally MustCompile demoAliases).
  { intros MustCompile key flagAliases Hk. unfold demoAliases in Hk.
    apply lookup_singleton_Some in Hk as [<- <-]. split.
    - apply plainTerm_searchedLiterally. vm_compute. reflexivity.
    - intros a ->%list_elem_of_singleton.
      apply plainTerm_searchedLiterally. vm_compute. reflexivity. }
  split; [exact Hterms |]. intros MustCompile.
  destruct (findReferencedFlags_no_delimiters MustCompile aliasLine
              demoAliases (Hterms MustCompile)) as (ret & Hret & _ & Hkeys).
  exists ret. split; [exact Hret |].
  by apply (Hkeys "my-flag" ["myFlag"]).
Defined.

(** Delimiters only restrict, where they stand for themselves: a flag with
    a plain key that is attributed to a line with such a delimiter string
    is attributed to it without delimiters too, with the same aliases. *)
Theorem findReferencedFlags_delimiters_restrict
  (MustCompile : string -> option (string -> bool)) (ref : string)
  (aliases : gmap string (list string)) (delims : string)
  (ret ret0 : gmap string (list string)) (key : string) (l : list string)
  (Hplain : Regexp.plainTerm key = true)
  (Hstand : 0 < len delims -> delimitersStandFor MustCompile delims key)
  (Hdelims : findReferencedFlags MustCompile ref aliases delims = Some ret)
  (Hnone : findReferencedFlags MustCompile ref aliases EmptyString
           = Some ret0)
  (Hkey : ret !! key = Some l) :
  ret0 !! key = Some l.
Proof.
  pose proof (findReferencedFlags_inv _ _ _ _ _ Hdelims key) as Hd.
  pose proof (findReferencedFlags_inv _ _ _ _ _ Hnone key) as Hn.
  destruct (aliases !! key) as [flagAliases |]; [| congruence].
  rewrite Hkey in Hd.
  apply referencedEntry_matched in Hd as (m & matched & Hm & Hmatched & He).
  apply referencedEntry_matched in Hn as (m0 & matched0 & Hm0 & Hmatched0 & ->).
  rewrite Hmatched in Hmatched0. injection Hmatched0 as <-.
  rewrite keyMatcher_no_delimiters in Hm0. unfold literalMatcher in Hm0.
  rewrite Hplain in Hm0. injection Hm0 as <-.
  unfold keyMatcher, literalMatcher in Hm. rewrite Hplain in Hm.
  destruct (Z.ltb_spec 0 (len delims)) as [Hlen | Hlen].
  - destruct (Hstand Hlen) as (m' & Hm' & Hwrapped).
    rewrite Hm in Hm'. injection Hm' as <-.
    destruct (m ref) eqn:Hmr.
    + apply Hwrapped, wrappedIn_occursIn, matchLiteral_spec in Hmr; [| done].
      by rewrite Hmr.
    + destruct matched; [done |].
      by destruct (Regexp.matchLiteral key ref).
  - injection Hm as <-. done.
Qed.

Lemma findReferencedFlags_delimiters_restrict_witness :
  Regexp.plainTerm "my-flag" = true /\
  forall MustCompile, exists ret0,
    findReferencedFlags MustCompile aliasLine demoAliases EmptyString
    = Some ret0 /\
    ret0 !! "my-flag" = Some ["myFlag"].
Proof.
  split; [reflexivity |]. intros MustCompile.
  exists {[ "my-flag" := ["myFlag"] ]}. split; [vm_compute; reflexivity |].
  refine (findReferencedFlags_delimiters_restrict MustCompile aliasLine
            demoAliases defaultDelims {[ "my-flag" := ["myFlag"] ]} _
            "my-flag" ["myFlag"] _ _ _ _ _).
  - reflexivity.
  - intros _. apply literalSet_delimitersStandFor; vm_compute; reflexivity.
  - vm_compute. reflexivity.
  - vm_compute. reflexivity.
  - vm_compute. reflexivity.
Defined.




(** ** The validation of the alias configurations *)

Lemma AliasType_IsValid_None t :
  aliases.AliasType_IsValid t = None <->
  t = aliases.Literal \/ t = aliases.FilePattern \/ t = aliases.Command \/
  t ∈ aliases.caseTypes.
Proof.
  unfold aliases.AliasType_IsValid, aliases.caseTypes.
  destruct (existsb _ _) eqn:He.
  - split; [intros _ | done]. apply existsb_exists in He as (x & Hx & ->%String.eqb_eq).
    cbn in Hx. set_solver.
  - split; [done |]. intros H. exfalso.
    assert (existsb (String.eqb t)
              [aliases.Literal; aliases.CamelCase; aliases.PascalCase;
               aliases.SnakeCase; aliases.UpperSnakeCase; aliases.KebabCase;
               aliases.DotCase; aliases.FilePattern; aliases.Command] = true)
      as Ht; [| congruence].
    apply existsb_exists. exists t. split; [| apply String.eqb_refl].
    cbn. set_solver.
Qed.

(** The aliases that the validation accepts.  A literal alias needs its
    flags and may have neither paths nor a pattern; a file pattern needs a
    path and a pattern with [FLAG_KEY] that compiles; a command needs its
    command and no negative timeout; all but the literal alias may not have
    flags.  Nothing else is looked at: a command or a timeout is accepted on
    every alias, paths and a pattern on every alias but the literal one. *)
Theorem Alias_IsValid_accepts (regexpCompile : string -> option string)
  (a : aliases.Alias) :
  aliases.Alias_IsValid regexpCompile a = None <->
  (aliases.Type_ a = aliases.Literal /\
   is_Some (aliases.Flags a) /\ aliases.Paths a = [] /\
   aliases.Pattern a = None) \/
  (aliases.Type_ a = aliases.FilePattern /\ aliases.Flags a = None /\
   (aliases.Paths a <> [] \/ is_Some (aliases.Path a)) /\
   exists p, aliases.Pattern a = Some p /\ occursIn "FLAG_KEY" p /\
             regexpCompile p = None) \/
  (aliases.Type_ a = aliases.Command /\ aliases.Flags a = None /\
   is_Some (aliases.Command_ a) /\
   forall t, aliases.Timeout a = Some t -> 0 <= t) \/
  (aliases.Type_ a ∈ aliases.caseTypes /\ aliases.Flags a = None).
Proof.
  unfold aliases.Alias_IsValid.
  destruct (aliases.AliasType_IsValid (aliases.Type_ a)) as [e |] eqn:Ht.
  { split; [done |]. intros H. exfalso.
    assert (aliases.AliasType_IsValid (aliases.Type_ a) = None) as Hn;
      [| congruence].
    apply AliasType_IsValid_None. unfold aliases.caseTypes in *.
    destruct H as [(? & _) | [(? & _) | [(? & _) | (? & _)]]]; auto. }
  apply AliasType_IsValid_None in Ht.
  destruct a as [t name flags path paths pattern command timeout]. cbn in *.
  unfold aliases.expectedFields, aliases.unexpectedField. cbn.
  destruct Ht as [-> | [-> | [-> | Hcase]]]; cbn.
  - (* literal *)
    destruct flags as [fl |]; cbn.
    + destruct pattern as [p |], paths as [| p0 paths]; cbn;
        split; try done; try (intros _; left; by eauto);
        intros [(_ & _ & ? & ?) | [([=] & _) | [([=] & _) | (Hin & _)]]];
        try done; unfold aliases.caseTypes in Hin; set_solver.
    + split; [done |].
      intros [(_ & [? [=]] & _) | [([=] & _) | [([=] & _) | (Hin & _)]]].
      unfold aliases.caseTypes in Hin. set_solver.
  - (* filepattern *)
    setoid_rewrite <- matchLiteral_spec.
    assert (Hin : "filepattern" ∉ aliases.caseTypes)
      by (unfold aliases.caseTypes; set_solver).
    destruct paths as [| p0 paths], path as [pa |], pattern as [p |],
             flags as [fl |]; cbn;
      try destruct (Regexp.matchLiteral "FLAG_KEY" p) eqn:Hk; cbn;
      try destruct (regexpCompile p) as [err |] eqn:Hc; cbn;
      (split; [try done; intros _; right; left | try done]);
      try (repeat split; try done; eauto; fail);
      try (intros [([=] & _) | [(_ & Hf & Hp & p' & Hpat & Hocc & Hcomp)
                                | [([=] & _) | (? & _)]]];
           [| done];
           try discriminate; try (injection Hpat as <-); try congruence;
           destruct Hp as [? | [? ?]]; try done; try congruence; fail).
  - (* command *)
    assert (Hnot : forall P Q R : Prop,
      "command" = aliases.Literal /\ P \/
      ("command" = aliases.FilePattern /\ Q) \/ R \/
      ("command" ∈ aliases.caseTypes /\ flags = None) -> R).
    { intros P Q R [([=] & _) | [([=] & _) | [? | (Hin & _)]]]; [done |].
      unfold aliases.caseTypes in Hin. set_solver. }
    destruct command as [c |];
      [| split; [done |]; by intros (_ & _ & [? [=]] & _)%Hnot].
    destruct timeout as [t |].
    + destruct (Z.ltb_spec t 0).
      * split; [done |]. intros (_ & _ & _ & Ht)%Hnot.
        specialize (Ht t eq_refl). lia.
      * destruct flags as [fl |]; cbn.
        -- split; [done |]. by intros (_ & [=] & _)%Hnot.
        -- split; [intros _ | done]. right. right. left.
           split; [done |]. split; [done |]. split; [by eexists |].
           intros ? [= <-]. lia.
    + destruct flags as [fl |]; cbn.
      * split; [done |]. by intros (_ & [=] & _)%Hnot.
      * split; [intros _ | done]. right. right. left.
        split; [done |]. split; [done |]. split; [by eexists | done].
  - (* the types that rewrite the key *)
    assert (Ht : String.eqb t aliases.Literal = false /\
                 String.eqb t aliases.FilePattern = false /\
                 String.eqb t aliases.Command = false).
    { unfold aliases.caseTypes in Hcase.
      repeat (apply elem_of_cons in Hcase as [-> | Hcase]; [by repeat split |]).
      by apply elem_of_nil in Hcase. }
    destruct Ht as (H1 & H2 & H3). rewrite H1, H2, H3. cbn.
    apply String.eqb_neq in H1, H2, H3.
    destruct flags as [fl |]; cbn.
    + split; [done |].
      intros [(? & _) | [(? & _) | [(? & _) | (_ & [=])]]]; done.
    + split; [intros _ | done]. by do 3 right.
Qed.

Lemma Alias_IsValid_accepts_witness :
  aliases.Alias_IsValid aliases.compileAll aliases.camelWithCommand = None.
Proof.
  apply (Alias_IsValid_accepts aliases.compileAll aliases.camelWithCommand).
  do 3 right. split; [| reflexivity].
  unfold aliases.caseTypes. cbn. left.
Defined.

(** The only fields that are reported as unexpected are the flags of an
    alias that is not literal and the paths and the pattern of a literal
    alias: a command and a timeout are never reported, and neither are the
    paths and the pattern of an alias that is not a file pattern, unless it
    is literal. *)
Theorem Alias_IsValid_unexpected_field
  (regexpCompile : string -> option string) (a : aliases.Alias)
  (t : aliases.AliasType) (field : string)
  (Herr : aliases.Alias_IsValid regexpCompile a
          = Some (aliases.UnexpectedField t field)) :
  t = aliases.Type_ a /\
  ((aliases.Type_ a <> aliases.Literal /\ field = "flags" /\
    is_Some (aliases.Flags a)) \/
   (aliases.Type_ a = aliases.Literal /\
    ((field = "pattern" /\ is_Some (aliases.Pattern a)) \/
     (field = "paths" /\ aliases.Paths a <> [] /\
      aliases.Pattern a = None)))).
Proof.
  unfold aliases.Alias_IsValid in Herr.
  destruct (aliases.AliasType_IsValid (aliases.Type_ a)) as [e |] eqn:Ht.
  { injection Herr as ->. unfold aliases.AliasType_IsValid in Ht.
    by destruct (existsb _ _). }
  destruct (aliases.expectedFields regexpCompile a) as [e |] eqn:He.
  { injection Herr as ->. unfold aliases.expectedFields in He.
    repeat match type of He with
           | (if ?b then _ else _) = _ => destruct b
           | match ?x with _ => _ end = _ => destruct x
           end; done. }
  destruct (String.eqb_spec (aliases.unexpectedField a) EmptyString)
    as [| Hne]; [done |].
  injection Herr as <- <-. split; [done |].
  revert Hne. unfold aliases.unexpectedField.
  destruct (String.eqb_spec (aliases.Type_ a) aliases.Literal) as [Hl | Hl];
    cbn [negb].
  - rewrite Hl. cbn.
    destruct (aliases.Pattern a) as [p |].
    + intros _. right. split; [done |]. left. by split; [| eexists].
    + destruct (aliases.Paths a) as [| p0 ps]; cbn; [done |].
      intros _. right. split; [done |]. right. by repeat split.
  - destruct (aliases.Flags a) as [fl |]; [| done].
    intros _. left. split; [done |]. by split; [| eexists].
Qed.

Lemma Alias_IsValid_unexpected_field_witness :
  aliases.CamelCase = aliases.Type_ aliases.camelWithFlags /\
  ((aliases.Type_ aliases.camelWithFlags <> aliases.Literal /\
    "flags" = "flags" /\ is_Some (aliases.Flags aliases.camelWithFlags)) \/
   (aliases.Type_ aliases.camelWithFlags = aliases.Literal /\
    (("flags" = "pattern" /\ is_Some (aliases.Pattern aliases.camelWithFlags))
     \/ ("flags" = "paths" /\ aliases.Paths aliases.camelWithFlags <> [] /\
         aliases.Pattern aliases.camelWithFlags = None)))).
Proof.
  apply (Alias_IsValid_unexpected_field aliases.compileAll
           aliases.camelWithFlags aliases.CamelCase "flags").
  reflexivity.
Defined.

(** The validation of the configuration file returns the error of the
    first alias that is not valid, and none when every alias is valid. *)
Theorem YamlOptions_IsValid_first_error
  (regexpCompile : string -> option string) (l : list aliases.Alias) :
  (aliases.YamlOptions_IsValid regexpCompile l = None <->
   Forall (fun a => aliases.Alias_IsValid regexpCompile a = None) l) /\
  (forall err,
     aliases.YamlOptions_IsValid regexpCompile l = Some err <->
     exists pre a post,
       l = pre ++ a :: post /\
       Forall (fun a => aliases.Alias_IsValid regexpCompile a = None) pre /\
       aliases.Alias_IsValid regexpCompile a = Some err).
Proof.
  induction l as [| a l [IHn IHs]].
  { split; [by split |]. intros err. split; [done |].
    intros (pre & a & post & Heq & _). by destruct pre. }
  cbn [aliases.YamlOptions_IsValid].
  destruct (aliases.Alias_IsValid regexpCompile a) as [e |] eqn:Ha.
  - split.
    + split; [done |]. intros [Hv _]%Forall_cons. congruence.
    + intros err. split.
      * intros [= <-]. exists [], a, l. by repeat split.
      * intros (pre & a' & post & Heq & Hpre & Herr).
        destruct pre as [| a0 pre]; cbn in Heq; injection Heq as <- _.
        -- congruence.
        -- apply Forall_cons in Hpre as [? _]. congruence.
  - split.
    + rewrite IHn. split; [by constructor | by intros [_ ?]%Forall_cons].
    + intros err. rewrite IHs. split.
      * intros (pre & a' & post & -> & Hpre & Herr).
        exists (a :: pre), a', post. repeat split; [by constructor | done].
      * intros (pre & a' & post & Heq & Hpre & Herr).
        destruct pre as [| a0 pre]; cbn in Heq; injection Heq as <- ->.
        -- congruence.
        -- apply Forall_cons in Hpre as [_ ?]. by exists pre, a', post.
Qed.

(** ** The flag keys of a run *)

(** The search is run only for flag keys of at least three bytes, in the
    order of the service's answer, and only when there is such a key: a
    project without flags, or with short keys only, ends the run with
    status 0.  The warning counts the keys that are left out.  An error of
    the service ends the run, with status 0 only when it is transient and
    service errors are ignored. *)
Theorem scanFlags_outcome (GetFlagKeyList : ld.error + list string)
  (ignoreServiceErrors : bool) :
  match scanFlags GetFlagKeyList ignoreServiceErrors with
  | Search filteredFlags omitted =>
    exists flags,
      GetFlagKeyList = inr flags /\
      filteredFlags = List.filter (fun k => 3 <=? len k) flags /\
      filteredFlags <> [] /\
      let n := Z.of_nat (length (List.filter (fun k => len k <? 3) flags)) in
      omitted = (if 0 <? n then Some n else None)
  | Stop code =>
    (code = 0 /\
     ((exists flags, GetFlagKeyList = inr flags /\
                     Forall (fun k => len k < 3) flags) \/
      (exists err, GetFlagKeyList = inl err /\ ld.IsTransient err = true /\
                   ignoreServiceErrors = true))) \/
    (code = 1 /\
     exists err, GetFlagKeyList = inl err /\
                 (ld.IsTransient err = false \/ ignoreServiceErrors = false))
  end.
Proof.
  unfold scanFlags, getFlags.
  destruct GetFlagKeyList as [err | flags].
  { unfold fatalServiceError.
    destruct (ld.IsTransient err) eqn:Ht, ignoreServiceErrors;
      [left | right | right | right]; (split; [done |]); eauto 6. }
  destruct (Z.eqb_spec (Z.of_nat (length flags)) 0) as [Hz | Hnz].
  { left. split; [done |]. left. exists flags. split; [done |].
    destruct flags; [constructor | cbn in Hz; lia]. }
  unfold filterShortFlagKeys. rewrite filterShortLoop_spec. cbn [app].
  assert (Hneg : List.filter (fun k => negb (minFlagKeyLen <=? len k)) flags
                 = List.filter (fun k => len k <? 3) flags).
  { apply filter_ext. intros k. unfold minFlagKeyLen.
    destruct (Z.leb_spec 3 (len k)), (Z.ltb_spec (len k) 3); cbn; lia. }
  rewrite Hneg. unfold minFlagKeyLen.
  destruct (Z.eqb_spec
              (Z.of_nat (length (List.filter (fun k => 3 <=? len k) flags))) 0)
    as [Hf | Hf].
  - left. split; [done |]. left. exists flags. split; [done |].
    apply Forall_forall. intros k Hk.
    destruct (Z.leb_spec 3 (len k)) as [Hge | Hlt]; [| cbn; lia].
    exfalso.
    assert (In k (List.filter (fun k => 3 <=? len k) flags)) as Hin.
    { apply filter_In. split; [by apply list_elem_of_In |]. by apply Z.leb_le. }
    destruct (List.filter (fun k => 3 <=? len k) flags);
      [destruct Hin | cbn in Hf; lia].
  - assert (List.filter (fun k => 3 <=? len k) flags <> [])
      by (intros Heq; by rewrite Heq in Hf).
    destruct (0 <? _) eqn:Hom; exists flags; by rewrite ?Hom.
Qed.

(** ** The hunks are built without a panic *)

Section HunkerTotal.
Context (projKey flag file : string) (lines : list searchResultLine)
        (ctxLines : Z).
Context (Hlines : Forall hunkable lines).

Lemma seekBack_total lastSeen n : forall ptr num app,
  (ptr < length lines)%nat ->
  exists ptr' num' app',
    seekBack lines lastSeen n ptr num app = Some (ptr', num', app') /\
    (ptr' < length lines)%nat /\
    (app' = true ->
     app = true \/ exists l, l ∈ lines /\ LineNum l <= lastSeen).
Proof.
  induction n as [| n IH]; intros ptr num app Hptr.
  { exists ptr, num, app. by repeat split; [| left]. }
  cbn [seekBack].
  set (step := match ptr with O => (ptr, num) | S p => (p, num + 1) end).
  assert (Hlt : (fst step < length lines)%nat)
    by (subst step; destruct ptr; cbn; lia).
  destruct step as [ptr1 num1]. cbn in Hlt.
  destruct (lookup_lt_is_Some_2 lines ptr1 Hlt) as [l Hl]. rewrite Hl. cbn.
  destruct (IH ptr1 num1 (if LineNum l <=? lastSeen then true else app) Hlt)
    as (ptr' & num' & app' & -> & Hlt' & Happ).
  exists ptr', num', app'. split; [done |]. split; [done |].
  intros Ht. destruct (Happ Ht) as [Hif | ?]; [| by right].
  destruct (Z.leb_spec (LineNum l) lastSeen); [| by left].
  right. exists l. split; [by eapply list_elem_of_lookup_2 | done].
Qed.

Lemma processRef_total st ref :
  (ref < length lines)%nat ->
  lastSeenLineNum st < 0 \/ hunks st <> [] ->
  exists st',
    processRef projKey flag lines ctxLines st ref = Some st' /\
    hunks st' <> [].
Proof.
  intros Href Hst.
  assert (Htrunc : Forall (fun l => is_Some (truncateLine (LineText l))) lines)
    by (eapply Forall_impl; [exact Hlines | by intros l [_ ?]]).
  destruct (seekBack_total (lastSeenLineNum st) (Z.to_nat ctxLines) ref 0 false
              Href) as (ptr & num & app & Hback & Hptr & Happ).
  unfold processRef. rewrite Hback. cbn [mbind option_bind].
  destruct app.
  - destruct (Happ eq_refl) as [[=] | (l & Hl & Hle)].
    rewrite Forall_forall in Hlines. destruct (Hlines l Hl) as [Hnn _].
    destruct Hst as [? | Hne]; [lia |].
    cbn [mbind option_bind].
    destruct (seekForward_returns flag lines
                (Z.to_nat (num + 1 + ctxLines)) ptr st Hptr Htrunc)
      as [st2 Hfwd].
    rewrite Hfwd. cbn [mbind option_bind].
    apply seekForward_frame in Hfwd as (Hh & _).
    unfold finishHunk. rewrite Hh.
    destruct (hunks st) as [| h0 hs0] using rev_ind; [done |].
    rewrite setPreviousLines_snoc. cbn. eexists. split; [reflexivity |].
    cbn. by intros [? [=]]%app_eq_nil.
  - destruct (lookup_lt_is_Some_2 lines ptr Hptr) as [l Hl]. rewrite Hl.
    cbn [mbind option_bind].
    destruct (seekForward_returns flag lines
                (Z.to_nat (num + 1 + ctxLines)) ptr
                (startHunk projKey flag st (LineNum l)) Hptr Htrunc)
      as [st2 Hfwd].
    rewrite Hfwd. cbn [mbind option_bind]. unfold finishHunk.
    eexists. split; [reflexivity |]. cbn. by intros [? [=]]%app_eq_nil.
Qed.

Lemma buildLoop_total refs : forall st,
  Forall (fun r => (r < length lines)%nat) refs ->
  lastSeenLineNum st < 0 \/ hunks st <> [] ->
  exists r, buildLoop projKey flag file lines ctxLines refs st = Some r.
Proof.
  induction refs as [| ref refs IH]; intros st Hrefs Hst; [by eexists |].
  apply Forall_cons in Hrefs as [Href Hrefs].
  destruct (processRef_total st ref Href Hst) as (st' & Hp & Hne).
  cbn [buildLoop]. rewrite Hp. cbn [mbind option_bind].
  destruct (maxHunkedLinesPerFileAndFlagCount <? numHunkedLines st');
    [by eexists |].
  apply IH; [done | by right].
Qed.

End HunkerTotal.

Lemma hunkRepsLoop_total projKey fsr ctxLines entries :
  (forall flagKey refs, (flagKey, refs) ∈ entries ->
     exists r, buildHunksForFlag projKey flagKey (path fsr)
                 (fileSearchResultLines fsr) ctxLines refs = Some r) ->
  forall hunks0 log0,
    exists r, hunkRepsLoop projKey fsr ctxLines entries hunks0 log0 = Some r.
Proof.
  induction entries as [| [k refs] entries IH]; intros Hall hunks0 log0;
    [by eexists |].
  cbn [hunkRepsLoop].
  destruct (Hall k refs ltac:(left)) as [[fh l] ->]. cbn.
  apply IH. intros k' refs' Hin. apply Hall. by right.
Qed.

Lemma makeHunkReps_total fsr projKey ctxLines :
  fileInv fsr -> Forall hunkable (fileSearchResultLines fsr) ->
  exists r, makeHunkReps fsr projKey ctxLines = Some r.
Proof.
  intros (_ & _ & Hrefs) Hlines. apply hunkRepsLoop_total.
  intros k refs Hin%elem_of_map_to_list. rewrite Hrefs in Hin.
  destruct (decide _); [done |]. injection Hin as <-.
  apply buildLoop_total; [done | | left; cbn; lia].
  apply Forall_forall. intros r (x & Hx & _)%elem_of_mentions.
  by apply lookup_lt_Some in Hx.
Qed.

Lemma repsLoop_total projKey ctxLines files :
  Forall (fun f => exists r, makeHunkReps f projKey ctxLines = Some r) files ->
  forall n s reps0 log0,
    exists r, repsLoop projKey ctxLines files n s reps0 log0 = Some r.
Proof.
  induction files as [| f files IH]; intros Hall n s reps0 log0;
    [by eexists |].
  apply Forall_cons in Hall as [[[hs l] Hf] Hall].
  cbn [repsLoop]. destruct (maxHunkCount <? n); [by eexists |].
  rewrite Hf. cbn. destruct (_ && _); by apply IH.
Qed.

(** Search results in order, with line numbers that are not negative and
    texts that can be truncated, always give a result: the aggregation does
    not end the run and the builder of the hunks does not panic, whatever
    the number of context lines. *)
Theorem makeReferenceHunksReps_returns (g : list searchResultLine)
  (projKey : string) (ctxLines : Z)
  (Hlines : Forall hunkable g)
  (Hordered : forall i, ~ outOfOrderAt g i) :
  exists reps log, makeReferenceHunksReps g projKey ctxLines = Ok (reps, log).
Proof.
  unfold makeReferenceHunksReps.
  assert (Hagg : exists files, aggregateByPath g = Ok files).
  { destruct g as [| first g']; [by eexists |].
    unfold aggregateByPath.
    apply (aggregateLoop_spec (first :: g') []
             (newFileSearchResults (Path first))); [by intros p [=] |].
    intros [(b & p & _ & [=] & _) | [i Hi]]. by apply (Hordered i). }
  destruct Hagg as [files Hagg]. rewrite Hagg.
  apply aggregateByPath_inv in Hagg as [Hcat Hinv].
  destruct (limitFiles files) as [fs l0] eqn:Hlim.
  destruct (repsLoop_total projKey ctxLines fs) with (n := 0) (s := false)
    (reps0 := @nil ReferenceHunksRep) (log0 := l0) as [[reps log] ->];
    [| by eexists _, _].
  apply Forall_forall. intros f Hf.
  apply (limitFiles_subseteq _ _ _ _ Hlim) in Hf.
  rewrite Forall_forall in Hinv. apply makeHunkReps_total; [by apply Hinv |].
  apply Forall_forall. intros x Hx. rewrite Forall_forall in Hlines.
  apply Hlines. rewrite <- Hcat. apply list_elem_of_In, in_concat.
  exists (fileSearchResultLines f). split; [| by apply list_elem_of_In].
  apply in_map. by apply list_elem_of_In.
Qed.

Lemma makeReferenceHunksReps_returns_witness :
  exists reps log, makeReferenceHunksReps threeFiles "default" 2 = Ok (reps, log).
Proof.
  apply (makeReferenceHunksReps_returns threeFiles "default" 2).
  - repeat constructor; try (vm_compute; discriminate); by eexists.
  - intros i (a & b & Ha & Hb & Hp & Hlt).
    do 4 (destruct i as [| i];
          [cbn in Ha, Hb; injection Ha as <-; injection Hb as <-;
           cbn in Hp, Hlt; first [discriminate Hp | lia] |]).
    cbn in Hb. discriminate Hb.
Defined.

(** ** The hunk builder with no line of context *)

Lemma buildLoop_zero projKey flag file lines refs : forall lo st,
  oneResultPerLine lines = true ->
  Forall (fun l => is_Some (truncateLine (LineText l))) lines ->
  refsFrom lo (length lines) refs = true ->
  (forall i, (lo <= i < length lines)%nat ->
             lastSeenLineNum st < lineNumAt lines i) ->
  numHunkedLines st + Z.of_nat (length refs)
  <= maxHunkedLinesPerFileAndFlagCount ->
  buildLoop projKey flag file lines 0 refs st
  = Some (hunks st ++ map (matchHunk projKey flag lines) refs, []).
Proof.
  intros lo st Hasc Htrunc. revert lo st.
  induction refs as [| ref refs IH]; intros lo st Hrefs Hlast Hnum.
  { cbn. by rewrite app_nil_r. }
  cbn [refsFrom] in Hrefs.
  apply andb_true_iff in Hrefs as [[Hlo%Nat.leb_le Hlen%Nat.ltb_lt]%andb_true_iff
                                   Hrefs].
  destruct (lookup_lt_is_Some_2 lines ref Hlen) as [l Hl].
  rewrite Forall_forall in Htrunc.
  destruct (Htrunc l (list_elem_of_lookup_2 _ _ _ Hl)) as [t Ht].
  pose proof (Hlast ref ltac:(lia)) as Hlt.
  rewrite (lineNumAt_lookup _ _ _ Hl) in Hlt.
  cbn [buildLoop length] in *. unfold processRef.
  change (Z.to_nat 0) with 0%nat. cbn [seekBack]. cbn [mbind option_bind].
  rewrite Hl. cbn [mbind option_bind].
  change (Z.to_nat (0 + 1 + 0)) with 1%nat. cbn [seekForward].
  rewrite Hl. cbn [mbind option_bind]. unfold writeLine.
  cbn [startHunk lastSeenLineNum].
  destruct (Z.ltb_spec (lastSeenLineNum st) (LineNum l)); [| lia].
  rewrite Ht. cbn [mbind option_bind finishHunk]. cbn.
  destruct (Z.ltb_spec maxHunkedLinesPerFileAndFlagCount
              (numHunkedLines st + 1)); [lia |].
  erewrite (IH (S ref)); [| done | | cbn; lia].
  - cbn. rewrite <- app_assoc. cbn. unfold matchHunk at 2. by rewrite Hl, Ht.
  - cbn. intros i Hi. rewrite <- (lineNumAt_lookup _ _ _ Hl).
    apply ln_strict; [done | lia | lia].
Qed.

(** With no line of context, every reference gets a hunk of its own that
    holds its line, truncated, and the aliases found on it; this is so for
    up to 500 references of a file whose results are one per line. *)
Theorem buildHunksForFlag_zero_context (projKey flag file : string)
  (lines : list searchResultLine) (refs : list nat)
  (Hasc : oneResultPerLine lines = true)
  (Htrunc : Forall (fun l => is_Some (truncateLine (LineText l))) lines)
  (Hrefs : validRefs lines refs = true)
  (Hcount : Z.of_nat (length refs) <= maxHunkedLinesPerFileAndFlagCount) :
  buildHunksForFlag projKey flag file lines 0 refs
  = Some (map (matchHunk projKey flag lines) refs, []).
Proof.
  unfold buildHunksForFlag.
  rewrite (buildLoop_zero projKey flag file lines refs 0%nat initState);
    try done.
  intros i Hi. cbn. pose proof (ln_nonneg lines Hasc i ltac:(lia)). lia.
Qed.

Lemma buildHunksForFlag_zero_context_witness :
  buildHunksForFlag "default" "my-flag" "a.go" aliasHunkLines 0 [0; 2]%nat
  = Some ([{| ProjKey := "default"; FlagKey := "my-flag";
              StartingLineNumber := 1;
              Lines := ("flag('my-flag')" ++ newline)%string;
              Aliases := [] |};
           {| ProjKey := "default"; FlagKey := "my-flag";
              StartingLineNumber := 3;
              Lines := ("flags.myFlag" ++ newline)%string;
              Aliases := ["myFlag"] |}], []).
Proof.
  refine (buildHunksForFlag_zero_context "default" "my-flag" "a.go"
            aliasHunkLines [0; 2]%nat _ _ _ _).
  - reflexivity.
  - repeat constructor; by eexists.
  - reflexivity.
  - vm_compute. discriminate.
Defined.
